(** * synopsize: column type inference and synopsis (index.ts)

    A shallow embedding of the library module of chbrown/synopsize
    (the later of the two revisions of index.ts, the one whose types
    carry a [compareFunction]) together with the properties of its
    specification.

    Layout: the embedding (strings, regular expressions, IEEE numbers,
    arrays in a store, the functions of index.ts) comes first; lemmas and
    the theorems about the program follow. *)

From Stdlib Require Import List ZArith NArith Bool String Ascii Lia.
From Stdlib Require Import Permutation Sorted.
From Stdlib Require Import DecimalString.
Import ListNotations.

Set Implicit Arguments.

(* ================================================================== *)
(** * Part I. The embedding                                            *)
(* ================================================================== *)

(** ** JavaScript strings and values *)

(** A JavaScript string is a sequence of UTF-16 code units.  Regular
    expressions without the [u] flag, and [===] on strings, work on code
    units. *)
Definition jsstring := list N.

(** Code units of a literal written in ASCII. *)
Definition str (s : string) : jsstring :=
  map N_of_ascii (list_ascii_of_string s).

(** The values a column holds: the CLI hands over strings, or
    [undefined] where a record lacks the field. *)
Inductive value :=
| VUndefined
| VString (s : jsstring).

(** [String(value)]. *)
Definition String_ (v : value) : jsstring :=
  match v with
  | VUndefined => str "undefined"
  | VString s => s
  end.

Definition jsstring_eqb (a b : jsstring) : bool :=
  if list_eq_dec N.eq_dec a b then true else false.

Definition value_eq_dec (a b : value) : {a = b} + {a <> b}.
Proof. decide equality. apply (list_eq_dec N.eq_dec). Defined.

(** SameValueZero, the key equality of [Map]. *)
Definition value_eqb (a b : value) : bool :=
  match a, b with
  | VUndefined, VUndefined => true
  | VString x, VString y => jsstring_eqb x y
  | _, _ => false
  end.

(** ** Regular expressions

    The patterns of index.ts are all of the form [/^...$/] without flags:
    [test] holds iff the whole string belongs to the language of the
    body.  The body is kept as syntax; [Matches] is its language and
    [test] the executable matcher (by derivatives). *)
Module RegExp.

Inductive regex :=
| Void
| Eps
| Cls (p : N -> bool)
| Seq (r1 r2 : regex)
| Alt (r1 r2 : regex)
| Star (r : regex).

Inductive Matches : regex -> jsstring -> Prop :=
| MEps : Matches Eps []
| MCls p c : p c = true -> Matches (Cls p) [c]
| MSeq r1 r2 s1 s2 :
    Matches r1 s1 -> Matches r2 s2 -> Matches (Seq r1 r2) (s1 ++ s2)
| MAltL r1 r2 s : Matches r1 s -> Matches (Alt r1 r2) s
| MAltR r1 r2 s : Matches r2 s -> Matches (Alt r1 r2) s
| MStar0 r : Matches (Star r) []
| MStarS r s1 s2 :
    Matches r s1 -> Matches (Star r) s2 -> Matches (Star r) (s1 ++ s2).

Fixpoint nullable (r : regex) : bool :=
  match r with
  | Void => false
  | Eps => true
  | Cls _ => false
  | Seq r1 r2 => nullable r1 && nullable r2
  | Alt r1 r2 => nullable r1 || nullable r2
  | Star _ => true
  end.

Fixpoint deriv (c : N) (r : regex) : regex :=
  match r with
  | Void => Void
  | Eps => Void
  | Cls p => if p c then Eps else Void
  | Seq r1 r2 =>
      if nullable r1
      then Alt (Seq (deriv c r1) r2) (deriv c r2)
      else Seq (deriv c r1) r2
  | Alt r1 r2 => Alt (deriv c r1) (deriv c r2)
  | Star r1 => Seq (deriv c r1) (Star r1)
  end.

(** [/^r$/.test(s)] *)
Fixpoint test (r : regex) (s : jsstring) : bool :=
  match s with
  | [] => nullable r
  | c :: s' => test (deriv c r) s'
  end.

(** Derived forms: [r?], [r+], [r{n}], [r{0,n}], [r{lo,hi}], and the
    concatenation of a list of pieces. *)
Definition Opt (r : regex) : regex := Alt Eps r.
Definition Plus (r : regex) : regex := Seq r (Star r).

Fixpoint Times (n : nat) (r : regex) : regex :=
  match n with
  | O => Eps
  | S n' => Seq r (Times n' r)
  end.

Fixpoint UpTo (n : nat) (r : regex) : regex :=
  match n with
  | O => Eps
  | S n' => Opt (Seq r (UpTo n' r))
  end.

Definition Range (lo hi : nat) (r : regex) : regex :=
  Seq (Times lo r) (UpTo (hi - lo) r).

Definition Cat (rs : list regex) : regex := fold_right Seq Eps rs.

(** Character classes. *)
Definition char (a : ascii) : regex := Cls (N.eqb (N_of_ascii a)).

Definition oneOf (s : string) : regex :=
  Cls (fun c => existsb (N.eqb c) (str s)).

Definition between (lo hi : ascii) : regex :=
  Cls (fun c => (N_of_ascii lo <=? c)%N && (c <=? N_of_ascii hi)%N).

(** [\d] *)
Definition isDigit (c : N) : bool := (48 <=? c)%N && (c <=? 57)%N.
Definition digit : regex := Cls isDigit.

(** LineTerminator: LF, CR, LS, PS. *)
Definition isLineTerminator (c : N) : bool :=
  existsb (N.eqb c) [10; 13; 8232; 8233]%N.

(** [\s]: WhiteSpace (TAB, VT, FF, SP, NBSP, ZWNBSP and the space
    separators of Unicode) and LineTerminator. *)
Definition isWhiteSpace (c : N) : bool :=
  existsb (N.eqb c) [9; 11; 12; 32; 160; 65279; 5760; 8239; 8287; 12288]%N
  || ((8192 <=? c)%N && (c <=? 8202)%N)
  || isLineTerminator c.
Definition space : regex := Cls isWhiteSpace.

(** [.] *)
Definition dot : regex := Cls (fun c => negb (isLineTerminator c)).

End RegExp.
Import RegExp.

Local Open Scope Z_scope.

(** ** Numbers

    The Number values of IEEE 754 binary64.  Every finite double is an
    integer multiple of 2^-1074, so [Finite k] stands for k * 2^-1074.
    The sign of zero is not kept: the program only looks at numbers
    through [< 0] and [> 0], which do not tell -0 from +0. *)
Inductive Number :=
| NaN
| Infinity (negative : bool)
| Finite (k : Z).

Module Num.

(** Exponent of the unit: 1 = 2^1074 units. *)
Definition unit_exp : Z := 1074.

(** The integer nearest to p/q, ties to even (0 <= p, 0 < q). *)
Definition rne_div (p q : Z) : Z :=
  let n := p / q in
  match (2 * (p mod q) ?= q) with
  | Lt => n
  | Gt => n + 1
  | Eq => if Z.even n then n else n + 1
  end.

(** Round p/q units (0 <= p, 0 < q) to the nearest double: below 2^53
    units every integer is a double; above, the 53 leading bits are
    kept; what reaches 2^1024 is infinite. *)
Definition round_mag (p q : Z) : Number :=
  let n := Z.max 0 (Z.log2 (p / q) - 52) in
  let k := rne_div p (q * 2 ^ n) * 2 ^ n in
  if 2 ^ (1024 + unit_exp) <=? k then Infinity false else Finite k.

Definition neg (x : Number) : Number :=
  match x with
  | NaN => NaN
  | Infinity b => Infinity (negb b)
  | Finite k => Finite (- k)
  end.

(** Round p/q units (0 < q), round-to-nearest, ties-to-even. *)
Definition round (p q : Z) : Number :=
  if p <? 0 then neg (round_mag (- p) q) else round_mag p q.

(** [x - y] *)
Definition sub (x y : Number) : Number :=
  match x, y with
  | NaN, _ | _, NaN => NaN
  | Infinity a, Infinity b => if Bool.eqb a b then NaN else Infinity a
  | Infinity a, Finite _ => Infinity a
  | Finite _, Infinity b => Infinity (negb b)
  | Finite a, Finite b => round (a - b) 1
  end.

(** [x < 0] and [x > 0] *)
Definition lt0 (x : Number) : bool :=
  match x with
  | NaN => false
  | Infinity b => b
  | Finite k => k <? 0
  end.

Definition gt0 (x : Number) : bool :=
  match x with
  | NaN => false
  | Infinity b => negb b
  | Finite k => 0 <? k
  end.

(** [x < y] *)
Definition ltb (x y : Number) : bool :=
  match x, y with
  | NaN, _ | _, NaN => false
  | Infinity a, Infinity b => a && negb b
  | Infinity a, Finite _ => a
  | Finite _, Infinity b => negb b
  | Finite a, Finite b => a <? b
  end.

(** The Number of an integer. *)
Definition ofZ (z : Z) : Number := round (z * 2 ^ unit_exp) 1.

(** Maximal run of decimal digits at the head of a string: its value
    continuing [acc], its length, and the rest. *)
Fixpoint DecimalDigits (acc : Z) (n : nat) (s : jsstring)
  : Z * nat * jsstring :=
  match s with
  | c :: s' =>
      if isDigit c
      then DecimalDigits (10 * acc + (Z.of_N c - 48)) (S n) s'
      else (acc, n, s)
  | [] => (acc, n, [])
  end.

(** StrUnsignedDecimalLiteral without exponent part:
    [DecimalDigits], [. DecimalDigits], [DecimalDigits . DecimalDigits?];
    the mathematical value as a fraction (numerator, denominator). *)
Definition StrUnsignedDecimalLiteral (s : jsstring) : option (Z * Z) :=
  let '(ip, ni, rest) := DecimalDigits 0 0 s in
  match rest with
  | [] => match ni with O => None | S _ => Some (ip, 1) end
  | c :: rest' =>
      if (c =? 46)%N
      then
        let '(m, nf, rest'') := DecimalDigits ip 0 rest' in
        match rest'', (ni + nf)%nat with
        | [], S _ => Some (m, 10 ^ Z.of_nat nf)
        | _, _ => None
        end
      else None
  end.

(** StrDecimalLiteral: an optional sign before the unsigned literal. *)
Definition StrDecimalLiteral (s : jsstring) : option (Z * Z) :=
  match s with
  | c :: s' =>
      if (c =? 45)%N then
        match StrUnsignedDecimalLiteral s' with
        | Some (p, q) => Some (- p, q)
        | None => None
        end
      else if (c =? 43)%N then StrUnsignedDecimalLiteral s'
      else StrUnsignedDecimalLiteral s
  | [] => None
  end.

(** [ToNumber] on strings, for decimal literals without exponent,
    rounded to the nearest double as engines do (the language lets an
    engine cut a literal after its 20th significant digit; that leeway
    is not modelled).  The other forms of StringNumericLiteral
    (surrounding white space, the empty string, exponent parts,
    [Infinity], [0x], [0o], [0b]) are not modelled and give [NaN] here:
    the program converts a string to a number only in
    [compareNumbers], which [inferType] selects only when every value
    matches one of the numeric patterns. *)
Definition ToNumber (s : jsstring) : Number :=
  match StrDecimalLiteral s with
  | Some (p, q) => round (p * 2 ^ unit_exp) q
  | None => NaN
  end.

End Num.

Arguments Num.round : simpl never.
Arguments Num.ofZ : simpl never.
Arguments Num.ToNumber : simpl never.


(** ** The functions of index.ts *)

(** A [Map] keeps its entries in insertion order; [set] on a key that is
    present replaces the value in place. *)
Definition Map := list (value * Z).

Definition Map_has (m : Map) (key : value) : bool :=
  existsb (fun e => value_eqb (fst e) key) m.

Fixpoint Map_get (m : Map) (key : value) : option Z :=
  match m with
  | [] => None
  | (k, v) :: m' => if value_eqb k key then Some v else Map_get m' key
  end.

Fixpoint Map_set (m : Map) (key : value) (v : Z) : Map :=
  match m with
  | [] => [(key, v)]
  | (k, v') :: m' =>
      if value_eqb k key then (k, v) :: m' else (k, v') :: Map_set m' key v
  end.

(** The keys of a map, and the sum of its values. *)
Definition Map_keys (m : Map) : list value := map fst m.

Definition Map_total (m : Map) : Z :=
  fold_right (fun e acc => snd e + acc) 0 m.

(** [count]: the callback of [forEach] is folded over the array from the
    left, threading the map it updates. *)
Definition count (values : list value) : Map :=
  fold_left
    (fun counts value =>
       let previous :=
         if Map_has counts value
         then match Map_get counts value with Some n => n | None => 0 end
         else 0 in
       Map_set counts value (previous + 1))
    values [].

(** The count read from a map, 0 for a key it does not hold, and one
    step of the loop of [count] written with it. *)
Definition Map_count (m : Map) (key : value) : Z :=
  match Map_get m key with Some n => n | None => 0 end.

Definition count_step (counts : Map) (value : value) : Map :=
  Map_set counts value (Map_count counts value + 1).

(** [isEmpty]: its parameter is declared a string, and the function
    itself still asks whether it is [undefined]. *)
Definition isEmpty (value : value) : bool :=
  match value with
  | VUndefined => true
  | VString v => RegExp.test (Star space) v
  end.

(** The callback of the [filter] in [synopsize]: the value is coerced to
    a string before it is handed to [isEmpty]. *)
Definition present (value : value) : bool :=
  negb (isEmpty (VString (String_ value))).

Section WithCollation.

(** [String.prototype.localeCompare] belongs to the host: its result
    depends on the locale and on the collation data of the engine. *)
Variable localeCompare : jsstring -> jsstring -> Number.

(** Comparators are only ever called by [sort], which does not pass
    [undefined] to them: they are typed on strings. *)
Definition compareStrings (a b : jsstring) : Number := localeCompare a b.

(** [a - b] on two strings converts both to numbers. *)
Definition compareNumbers (a b : jsstring) : Number :=
  Num.sub (Num.ToNumber a) (Num.ToNumber b).

Record Type_ := mkType {
  id : string;
  compareFunction : jsstring -> jsstring -> Number;
  regExp : regex;
  test : list value -> bool
}.

(** [(-?)] followed later by [\1]: the group captures either the
    hyphen or the empty string, and the back-reference repeats it. *)
Definition year_month_day : regex :=
  Cat [ oneOf "12"; Times 3 digit;
        Alt (Cat [char "-"; oneOf "01"; digit; char "-"])
            (Cat [oneOf "01"; digit]);
        oneOf "0123"; digit ].

Definition knownTypes : list Type_ :=
  map (fun '(id, regExp, compareFunction) =>
         let test := fun values : list value =>
           forallb (fun value => RegExp.test regExp (String_ value)) values in
         mkType id compareFunction regExp test)
    [ ("DATETIME"%string,
       (* /^[12]\d{3}(-?)[01]\d\1[0123]\d[T ][012]?\d:[0-5]\d(:[0-5]\d)?Z?$/ *)
       Cat [ year_month_day; oneOf "T "; Opt (oneOf "012"); digit; char ":";
             between "0" "5"; digit;
             Opt (Cat [char ":"; between "0" "5"; digit]); Opt (char "Z") ],
       compareStrings);
      ("DATE"%string,
       (* /^[12]\d{3}(-?)[01]\d\1[0123]\d$/ *)
       year_month_day,
       compareStrings);
      ("INTEGER"%string,
       (* /^-?\d{1,10}$/ *)
       Cat [ Opt (char "-"); Range 1 10 digit ],
       compareNumbers);
      ("BIGINT"%string,
       (* /^-?\d{1,19}$/ *)
       Cat [ Opt (char "-"); Range 1 19 digit ],
       compareNumbers);
      ("REAL"%string,
       (* -? and one of \d+, \.\d+, \d+\.\d* between ^ and $ *)
       Cat [ Opt (char "-");
             Alt (Plus digit)
               (Alt (Cat [char "."; Plus digit])
                    (Cat [Plus digit; char "."; Star digit])) ],
       compareNumbers);
      ("TIME"%string,
       (* /^[012]?\d:[0-5]\d$/ *)
       Cat [ Opt (oneOf "012"); digit; char ":"; between "0" "5"; digit ],
       compareStrings) ].

Definition defaultType : Type_ :=
  {| id := "TEXT";
     regExp := Star dot;
     test := fun _ => true;
     compareFunction := compareStrings |}.

(** The loop of [inferType] over the candidates that remain. *)
Fixpoint inferType_loop (types : list Type_) (values : list value)
  : option Type_ :=
  match types with
  | [] => None
  | knownType :: rest =>
      if test knownType values then Some knownType
      else inferType_loop rest values
  end.

Definition inferType (values : list value) : Type_ :=
  if 0 <? Z.of_nat (List.length values) then
    match inferType_loop knownTypes values with
    | Some knownType => knownType
    | None => defaultType
    end
  else defaultType.

(** The pattern of a type matches every value. *)
Definition allMatch (values : list value) (t : Type_) : bool :=
  forallb (fun value => RegExp.test (regExp t) (String_ value)) values.

(** *** Arrays and the store

    Arrays are mutable objects: [filter] makes a new one, [sort]
    rearranges its receiver and returns that same object.  The store
    holds the arrays; a reference is the index of its array. *)
Definition ref := nat.
Definition heap := list (list value).

(** Computations on the store; [None] stands for the use of a
    reference that was never allocated. *)
Definition M (A : Type) : Type := heap -> option (A * heap).

Definition ret {A} (a : A) : M A := fun h => Some (a, h).

Definition bind {A B} (m : M A) (f : A -> M B) : M B :=
  fun h => match m h with
           | Some (a, h') => f a h'
           | None => None
           end.

Notation "x <- m ;; k" := (bind m (fun x => k))
  (at level 61, m at next level, right associativity).

Definition Array_read (r : ref) : M (list value) :=
  fun h => match nth_error h r with
           | Some a => Some (a, h)
           | None => None
           end.

Definition Array_alloc (a : list value) : M ref :=
  fun h => Some (List.length h, h ++ [a]).

Fixpoint heap_set (h : heap) (r : ref) (a : list value) : heap :=
  match h, r with
  | [], _ => []
  | _ :: h', O => a :: h'
  | x :: h', S r' => x :: heap_set h' r' a
  end.

Definition Array_write (r : ref) (a : list value) : M unit :=
  fun h => match nth_error h r with
           | Some _ => Some (tt, heap_set h r a)
           | None => None
           end.

(** [values.filter(f)] *)
Definition Array_filter (f : value -> bool) (r : ref) : M ref :=
  a <- Array_read r ;; Array_alloc (filter f a).

(** [values.length] *)
Definition Array_length (r : ref) : M Z :=
  a <- Array_read r ;; ret (Z.of_nat (List.length a)).

(** [values[i]]: an index outside the array gives [undefined]. *)
Definition Array_index (r : ref) (i : Z) : M value :=
  a <- Array_read r ;;
  ret (if i <? 0 then VUndefined else nth (Z.to_nat i) a VUndefined).

(** *** [Array.prototype.sort]

    SortCompare: [undefined] goes last without the comparator being
    asked, and a comparator result of [NaN] counts as +0. *)
Definition SortCompare (comparefn : jsstring -> jsstring -> Number)
    (x y : value) : Number :=
  match x, y with
  | VUndefined, VUndefined => Finite 0
  | VUndefined, _ => Num.ofZ 1
  | _, VUndefined => Num.ofZ (-1)
  | VString a, VString b =>
      match comparefn a b with
      | NaN => Finite 0
      | v => v
      end
  end.

(** The language fixes the result of [sort] for a consistent
    comparator, up to the order of elements that compare equal, and
    since ES2019 that order too (the sort is stable); the algorithm is
    the engine's.  Here: a stable insertion sort. *)
Fixpoint sort_insert (comparefn : jsstring -> jsstring -> Number)
    (x : value) (sorted : list value) : list value :=
  match sorted with
  | [] => [x]
  | y :: rest =>
      if Num.gt0 (SortCompare comparefn y x)
      then x :: y :: rest
      else y :: sort_insert comparefn x rest
  end.

Definition sort_list (comparefn : jsstring -> jsstring -> Number)
    (a : list value) : list value :=
  fold_left (fun sorted x => sort_insert comparefn x sorted) a [].

(** [x] may stand before [y] in ascending order: comparing them does
    not give a positive number. *)
Definition precedes (comparefn : jsstring -> jsstring -> Number)
    (x y : value) : Prop :=
  Num.gt0 (SortCompare comparefn x y) = false.

(** What the sort needs of a comparator on the strings it is given:
    two strings are not each greater than the other, and not being
    greater is transitive. *)
Definition ConsistentOn (comparefn : jsstring -> jsstring -> Number)
    (P : jsstring -> Prop) : Prop :=
  (forall a b, P a -> P b ->
     Num.gt0 (comparefn a b) = true -> Num.gt0 (comparefn b a) = false) /\
  (forall a b c, P a -> P b -> P c ->
     Num.gt0 (comparefn a b) = false -> Num.gt0 (comparefn b c) = false ->
     Num.gt0 (comparefn a c) = false).

(** [a.sort(comparefn)]: in place, returning the receiver. *)
Definition Array_sort (comparefn : jsstring -> jsstring -> Number)
    (r : ref) : M ref :=
  a <- Array_read r ;;
  _ <- Array_write r (sort_list comparefn a) ;;
  ret r.

(** *** [synopsize] *)

Record ColumnSynopsis := mkColumnSynopsis {
  typeName : string;
  values : ref;
  nonEmptyValues : ref;
  minimum : value;
  maximum : value;
  counts : Map
}.

Definition synopsize (values : ref) : M ColumnSynopsis :=
  nonEmptyValues <-
    Array_filter (fun value => negb (isEmpty (VString (String_ value))))
      values ;;
  type <- (a <- Array_read nonEmptyValues ;; ret (inferType a)) ;;
  sortedNonEmptyValues <-
    Array_sort (compareFunction type) nonEmptyValues ;;
  minimum <- Array_index sortedNonEmptyValues 0 ;;
  len <- Array_length sortedNonEmptyValues ;;
  maximum <- Array_index sortedNonEmptyValues (len - 1) ;;
  counts <- (a <- Array_read nonEmptyValues ;; ret (count a)) ;;
  ret {| typeName := id type;
         values := values;
         nonEmptyValues := nonEmptyValues;
         minimum := minimum;
         maximum := maximum;
         counts := counts |}.

End WithCollation.

(** ** Notions used to state the properties *)

(** A run of decimal digits, and the value it denotes continuing
    [acc]. *)
Definition Digits (w : jsstring) : Prop :=
  Forall (fun c => isDigit c = true) w.

Definition digits_value (acc : Z) (ds : jsstring) : Z :=
  fold_left (fun a c => 10 * a + (Z.of_N c - 48)) ds acc.

(** The strings [ToNumber] reads as unsigned decimal literals: digits,
    or digits around a decimal point with a digit on one side at
    least. *)
Inductive Unsigned : jsstring -> Prop :=
| U_int ds : Digits ds -> ds <> [] -> Unsigned ds
| U_frac ip fp :
    Digits ip -> Digits fp -> ip <> [] \/ fp <> [] ->
    Unsigned (ip ++ 46%N :: fp).

(** The values a comparator is consistent on: the strings of [P], and
    [undefined], which [sort] never hands to the comparator. *)
Definition inDomain (P : jsstring -> Prop) (v : value) : Prop :=
  match v with
  | VUndefined => True
  | VString a => P a
  end.

(** ** Data for the examples

    A collation that compares code units from the left (what
    [localeCompare] gives on digits and on lower-case ASCII letters),
    and the store that holds one column of strings at reference 0. *)
Fixpoint codeUnitCompare (a b : jsstring) : Number :=
  match a, b with
  | [], [] => Finite 0
  | [], _ :: _ => Num.ofZ (-1)
  | _ :: _, [] => Num.ofZ 1
  | x :: a', y :: b' =>
      match (x ?= y)%N with
      | Lt => Num.ofZ (-1)
      | Gt => Num.ofZ 1
      | Eq => codeUnitCompare a' b'
      end
  end.

Definition strings (ss : list string) : list value :=
  map (fun s => VString (str s)) ss.

Definition column (ss : list string) : heap := [strings ss].

(** The distinct values of a list, each at the place of its first
    occurrence. *)
Fixpoint firstOccurrences (l : list value) : list value :=
  match l with
  | [] => []
  | x :: rest => x :: remove value_eq_dec x (firstOccurrences rest)
  end.

(** The type of the table with a given name. *)
Definition typeNamed (localeCompare : jsstring -> jsstring -> Number)
    (name : string) : Type_ :=
  match find (fun t => String.eqb (id t) name) (knownTypes localeCompare) with
  | Some t => t
  | None => defaultType localeCompare
  end.

(** ** The first revision of index.ts

    The file holds an earlier revision too: its types carry no
    comparator, [inferTypeName] returns the name alone, and [synopsize]
    sorts with [sort()], that is by the code units of the strings. *)

(** [a < b] on strings: the first code unit that differs decides, and a
    proper prefix is smaller. *)
Fixpoint jsstring_ltb (a b : jsstring) : bool :=
  match a, b with
  | _, [] => false
  | [], _ :: _ => true
  | x :: a', y :: b' => (x <? y)%N || ((x =? y)%N && jsstring_ltb a' b')
  end.

(** SortCompare without a comparator, on the string forms of two
    values that are not [undefined]. *)
Definition defaultCompare (a b : jsstring) : Number :=
  if jsstring_ltb a b then Num.ofZ (-1)
  else if jsstring_ltb b a then Num.ofZ 1
  else Finite 0.

Module Revision1.

Record Type_ := mkType {
  id : string;
  regExp : regex;
  test : list value -> bool
}.

Definition knownTypes : list Type_ :=
  map (fun '(id, regExp) =>
         let test := fun values : list value =>
           forallb (fun value => RegExp.test regExp (String_ value)) values in
         mkType id regExp test)
    [ ("DATETIME"%string,
       Cat [ year_month_day; oneOf "T "; Opt (oneOf "012"); digit; char ":";
             between "0" "5"; digit;
             Opt (Cat [char ":"; between "0" "5"; digit]); Opt (char "Z") ]);
      ("DATE"%string, year_month_day);
      ("INTEGER"%string, Cat [ Opt (char "-"); Range 1 10 digit ]);
      ("BIGINT"%string, Cat [ Opt (char "-"); Range 1 19 digit ]);
      ("REAL"%string,
       Cat [ Opt (char "-");
             Alt (Plus digit)
               (Alt (Cat [char "."; Plus digit])
                    (Cat [Plus digit; char "."; Star digit])) ]);
      ("TIME"%string,
       Cat [ Opt (oneOf "012"); digit; char ":"; between "0" "5"; digit ]) ].

Fixpoint inferTypeName_loop (types : list Type_) (values : list value)
  : option string :=
  match types with
  | [] => None
  | knownType :: rest =>
      if test knownType values then Some (id knownType)
      else inferTypeName_loop rest values
  end.

Definition inferTypeName (values : list value) : string :=
  if 0 <? Z.of_nat (List.length values) then
    match inferTypeName_loop knownTypes values with
    | Some name => name
    | None => "TEXT"%string
    end
  else "TEXT"%string.

Local Notation "x <- m ;; k" := (bind m (fun x => k))
  (at level 61, m at next level, right associativity).

(** The object literal is evaluated field by field after the sort: the
    type name is inferred from the array as sorted. *)
Definition synopsize (values : ref) : M ColumnSynopsis :=
  total <- Array_length values ;;
  nonEmptyValues <-
    Array_filter (fun value => negb (isEmpty (VString (String_ value))))
      values ;;
  sortedNonEmptyValues <- Array_sort defaultCompare nonEmptyValues ;;
  typeName <- (a <- Array_read nonEmptyValues ;; ret (inferTypeName a)) ;;
  minimum <- Array_index sortedNonEmptyValues 0 ;;
  len <- Array_length sortedNonEmptyValues ;;
  maximum <- Array_index sortedNonEmptyValues (len - 1) ;;
  counts <- (a <- Array_read nonEmptyValues ;; ret (count a)) ;;
  ret {| typeName := typeName;
         values := values;
         nonEmptyValues := nonEmptyValues;
         minimum := minimum;
         maximum := maximum;
         counts := counts |}.

End Revision1.

(** ** The command line: bin/synopsize.ts

    [printSynopsis] and [printCounts] write lines with [console.log];
    here they return the lines written, in order. *)

(** The string of an integer, as a template literal prints a number
    that is an integer (below 10^21 in size). *)
Definition decimal (z : Z) : jsstring :=
  str (NilZero.string_of_int (Z.to_int z)).

Module NumOps.

(** [x / y].  The sign of a zero divisor is not kept (see [Number]): a
    zero divisor counts as +0, which is what a length is. *)
Definition div (x y : Number) : Number :=
  match x, y with
  | NaN, _ | _, NaN => NaN
  | Infinity _, Infinity _ => NaN
  | Infinity a, Finite b => Infinity (xorb a (b <? 0))
  | Finite _, Infinity _ => Finite 0
  | Finite a, Finite b =>
      if b =? 0 then (if a =? 0 then NaN else Infinity (a <? 0))
      else if 0 <? b then Num.round (a * 2 ^ Num.unit_exp) b
      else Num.round (- a * 2 ^ Num.unit_exp) (- b)
  end.

(** [x * y] *)
Definition mul (x y : Number) : Number :=
  match x, y with
  | NaN, _ | _, NaN => NaN
  | Infinity a, Infinity b => Infinity (xorb a b)
  | Infinity a, Finite b =>
      if b =? 0 then NaN else Infinity (xorb a (b <? 0))
  | Finite a, Infinity b =>
      if a =? 0 then NaN else Infinity (xorb (a <? 0) b)
  | Finite a, Finite b => Num.round (a * b) (2 ^ Num.unit_exp)
  end.

(** [x.toFixed(2)]: the integer n nearest to 100 x, the larger of two,
    written with a point before its last two digits.  A number of size
    10^21 or more is printed by [ToString], which is not modelled:
    [None]. *)
Definition toFixed2 (x : Number) : option jsstring :=
  match x with
  | NaN => Some (str "NaN")
  | Infinity b => Some (str (if b then "-Infinity" else "Infinity"))
  | Finite k =>
      let a := Z.abs k in
      if 10 ^ 21 * 2 ^ Num.unit_exp <=? a then None
      else
        let n := (2 * 100 * a + 2 ^ Num.unit_exp) / (2 * 2 ^ Num.unit_exp) in
        let m := decimal n in
        let m :=
          if (List.length m <=? 2)%nat
          then repeat 48%N (3 - List.length m) ++ m
          else m in
        let k' := List.length m in
        Some ((if k <? 0 then str "-" else [])
              ++ firstn (k' - 2) m ++ str "." ++ skipn (k' - 2) m)
  end.

End NumOps.

Arguments NumOps.div : simpl never.
Arguments NumOps.mul : simpl never.
Arguments NumOps.toFixed2 : simpl never.

(** An optional result inside a computation on the store. *)
Definition orFail {A} (o : option A) : M A :=
  fun h => match o with
           | Some a => Some (a, h)
           | None => None
           end.

Section CommandLine.

(** [sample] of the package tarry draws at random. *)
Variable sample : list value -> Z -> list value.

Local Notation "x <- m ;; k" := (bind m (fun x => k))
  (at level 61, m at next level, right associativity).

(** [showCount] is [true] when the caller leaves it out. *)
Definition printCounts (counts : Map) (sampleLength : Z) (showCount : bool)
  : list jsstring :=
  let uniqueValues := Map_keys counts in
  (* if there aren't many unique values, print them all *)
  let isSample := sampleLength <? Z.of_nat (List.length uniqueValues) in
  let values :=
    if isSample then sample uniqueValues sampleLength else uniqueValues in
  (if isSample
   then [str "  " ++ decimal sampleLength ++ str " random examples:"]
   else [])
  ++ map (fun value =>
            if showCount then
              let count :=
                match Map_get counts value with
                | Some n => decimal n
                | None => str "undefined"
                end in
              str "    " ++ String_ value ++ str ": " ++ count
            else str "    " ++ String_ value)
       values.

Definition printSynopsis (synopsis : ColumnSynopsis) (sampleLength : Z)
  : M (list jsstring) :=
  let typeName := typeName synopsis in
  let values := values synopsis in
  let nonEmptyValues := nonEmptyValues synopsis in
  let minimum := minimum synopsis in
  let maximum := maximum synopsis in
  let counts := counts synopsis in
  nonEmptyLength <- Array_length nonEmptyValues ;;
  valuesLength <- Array_length values ;;
  (* print totals summary *)
  let hasEmptyValues := nonEmptyLength <? valuesLength in
  totals <-
    (if hasEmptyValues then
       let totalEmptyValues := valuesLength - nonEmptyLength in
       let emptyValuesRatio :=
         NumOps.div (Num.ofZ totalEmptyValues) (Num.ofZ valuesLength) in
       percent <-
         orFail (NumOps.toFixed2 (NumOps.mul emptyValuesRatio (Num.ofZ 100))) ;;
       ret (str "  " ++ decimal totalEmptyValues
            ++ str " missing values (out of " ++ decimal valuesLength
            ++ str " total), or " ++ percent ++ str "%")
     else
       ret (str "  No missing values (" ++ decimal valuesLength
            ++ str " total)")) ;;
  let valueRef :=
    if hasEmptyValues then str "(non-null) value" else str "value" in
  (* print values / counts summary *)
  let size := Z.of_nat (List.length counts) in
  ret ([str "  Type: " ++ str typeName; totals]
       ++ (if nonEmptyLength =? 0 then
             [str "  No values to show"]
           else if size =? 1 then
             [str "  There is only one unique " ++ valueRef ++ str ": "
              ++ String_ minimum]
           else if size =? nonEmptyLength then
             [str "  All " ++ valueRef
              ++ str "s are unique and range from " ++ String_ minimum
              ++ str " to " ++ String_ maximum]
             ++ printCounts counts sampleLength false
           else
             (* the values aren't all unique *)
             [str "  There are " ++ decimal size ++ str " unique "
              ++ valueRef ++ str "s, which range from " ++ String_ minimum
              ++ str " to " ++ String_ maximum]
             ++ printCounts counts sampleLength true)).

(** The callback of [columns.forEach] in [main]: the heading of the
    column, then its synopsis. *)
Definition printColumn (localeCompare : jsstring -> jsstring -> Number)
    (name : jsstring) (index : Z) (values : ref) (sampleLength : Z)
  : M (list jsstring) :=
  synopsis <- synopsize localeCompare values ;;
  lines <- printSynopsis synopsis sampleLength ;;
  ret ((str "[" ++ decimal index ++ str "] " ++ [34%N] ++ name ++ [34%N])
       :: lines).

End CommandLine.

(* ================================================================== *)
(** * Part II. Properties                                              *)
(* ================================================================== *)

(** ** The matcher decides the language of a pattern *)

Module RegExpFacts.

Lemma nullable_Matches r : nullable r = true <-> Matches r [].
Proof.
  induction r; simpl; split; intros H; try discriminate.
  - inversion H.
  - constructor.
  - reflexivity.
  - inversion H.
  - apply andb_true_iff in H. destruct H as [H1 H2].
    change (@nil N) with (@nil N ++ @nil N). constructor; tauto.
  - inversion H as [ | | ? ? s1 s2 H1 H2 [E1 E2] E | | | | ].
    apply app_eq_nil in E. destruct E; subst.
    apply andb_true_iff; tauto.
  - apply orb_true_iff in H. destruct H; [apply MAltL | apply MAltR]; tauto.
  - apply orb_true_iff. inversion H; subst; tauto.
  - constructor.
  - reflexivity.
Qed.

Lemma Matches_Eps w : Matches Eps w -> w = [].
Proof. intros H. inversion H. reflexivity. Qed.

Lemma Matches_Cls p w : Matches (Cls p) w -> exists c, w = [c] /\ p c = true.
Proof. intros H. inversion H; subst. eauto. Qed.

Lemma Matches_Seq r1 r2 w :
  Matches (Seq r1 r2) w ->
  exists w1 w2, w = w1 ++ w2 /\ Matches r1 w1 /\ Matches r2 w2.
Proof. intros H. inversion H; subst. eauto. Qed.

Lemma Matches_Alt r1 r2 w :
  Matches (Alt r1 r2) w -> Matches r1 w \/ Matches r2 w.
Proof. intros H. inversion H; subst; auto. Qed.

Lemma Matches_Opt r w : Matches (Opt r) w -> w = [] \/ Matches r w.
Proof.
  intros H. apply Matches_Alt in H. destruct H as [H|H]; auto.
  left. now apply Matches_Eps.
Qed.

Lemma Star_cons r c s :
  Matches (Star r) (c :: s) ->
  exists s1 s2, s = s1 ++ s2 /\ Matches r (c :: s1) /\ Matches (Star r) s2.
Proof.
  intros H. remember (Star r) as r' eqn:Er. remember (c :: s) as w eqn:Ew.
  revert c s Ew.
  induction H; intros c' w' Ew; try discriminate.
  injection Er as ->.
  destruct s1 as [|c1 s1]; simpl in Ew.
  - apply IHMatches2; auto.
  - injection Ew as -> <-. exists s1, s2. auto.
Qed.

Lemma deriv_Matches c r s : Matches (deriv c r) s <-> Matches r (c :: s).
Proof.
  revert s. induction r; intros w; simpl.
  - split; intros H; inversion H.
  - split; intros H; inversion H.
  - destruct (p c) eqn:E; split; intros H; inversion H; subst.
    + now constructor.
    + constructor.
    + congruence.
  - split.
    + intros H.
      assert (Matches (Seq (deriv c r1) r2) w \/
              (nullable r1 = true /\ Matches (deriv c r2) w)) as [H'|[Hn H']].
      { destruct (nullable r1); [inversion H; subst; auto | auto]. }
      * inversion H'; subst.
        change (c :: s1 ++ s2) with ((c :: s1) ++ s2).
        constructor; [apply IHr1 | ]; assumption.
      * change (c :: w) with ([] ++ c :: w).
        constructor; [apply nullable_Matches | apply IHr2]; assumption.
    + intros H. inversion H; subst.
      destruct s1 as [|c1 s1]; simpl in *.
      * subst s2. apply nullable_Matches in H3. rewrite H3.
        apply MAltR. now apply IHr2.
      * injection H2 as -> <-.
        assert (Matches (Seq (deriv c r1) r2) (s1 ++ s2))
          by (constructor; [apply IHr1 | ]; assumption).
        destruct (nullable r1); [apply MAltL | ]; assumption.
  - split; intros H; inversion H; subst;
      [apply MAltL, IHr1 | apply MAltR, IHr2
       | apply MAltL, IHr1 | apply MAltR, IHr2]; assumption.
  - split.
    + intros H. inversion H; subst.
      change (c :: s1 ++ s2) with ((c :: s1) ++ s2).
      constructor; [apply IHr | ]; assumption.
    + intros H. apply Star_cons in H.
      destruct H as (s1 & s2 & -> & H1 & H2).
      constructor; [apply IHr | ]; assumption.
Qed.

Theorem test_Matches r s : RegExp.test r s = true <-> Matches r s.
Proof.
  revert r. induction s as [|c s IH]; intros r; simpl.
  - apply nullable_Matches.
  - rewrite IH. apply deriv_Matches.
Qed.

End RegExpFacts.

(** ** Numbers: rounding keeps the sign, so [a - b] compares *)

Module NumFacts.
Import Num.

Lemma rne_div_lower p q : p / q <= rne_div p q.
Proof.
  unfold rne_div.
  destruct (2 * (p mod q) ?= q); [destruct (Z.even (p / q)) | | ]; lia.
Qed.

Lemma round_mag_pos p :
  0 < p -> gt0 (round_mag p 1) = true /\ lt0 (round_mag p 1) = false.
Proof.
  intros Hp. unfold round_mag. rewrite Z.div_1_r, Z.mul_1_l.
  set (n := Z.max 0 (Z.log2 p - 52)).
  assert (Hn : 0 <= n) by lia.
  assert (Hle : 2 ^ n <= p).
  { destruct (Z.log2_spec p Hp) as [Hlo _].
    apply Z.le_trans with (2 ^ Z.log2 p); [ | exact Hlo ].
    apply Z.pow_le_mono_r; [lia | ].
    pose proof (Z.log2_nonneg p). lia. }
  assert (H2 : 0 < 2 ^ n) by (apply Z.pow_pos_nonneg; lia).
  assert (Hq : 0 < p / 2 ^ n) by (apply Z.div_str_pos; lia).
  pose proof (rne_div_lower p (2 ^ n)) as Hr.
  assert (Hk : 0 < rne_div p (2 ^ n) * 2 ^ n) by nia.
  destruct (_ <=? _); simpl.
  - auto.
  - split; [apply Z.ltb_lt | apply Z.ltb_ge]; lia.
Qed.

Lemma gt0_neg x : gt0 (neg x) = lt0 x.
Proof.
  destruct x as [ | b | k]; simpl; auto.
  - now destruct b.
  - destruct (Z.ltb_spec 0 (- k)), (Z.ltb_spec k 0); lia.
Qed.

Lemma lt0_neg x : lt0 (neg x) = gt0 x.
Proof.
  destruct x as [ | b | k]; simpl; auto.
  destruct (Z.ltb_spec 0 k), (Z.ltb_spec (- k) 0); lia.
Qed.

Lemma gt0_round p : gt0 (round p 1) = (0 <? p).
Proof.
  unfold round. destruct (Z.ltb_spec p 0) as [Hneg|Hpos].
  - rewrite gt0_neg. destruct (@round_mag_pos (- p)) as [_ ->]; [lia | ].
    symmetry. apply Z.ltb_ge. lia.
  - destruct (Z.eq_dec p 0) as [->|Hne]; [reflexivity | ].
    destruct (@round_mag_pos p) as [-> _]; [lia | ].
    symmetry. apply Z.ltb_lt. lia.
Qed.

Lemma lt0_round p : lt0 (round p 1) = (p <? 0).
Proof.
  unfold round. destruct (Z.ltb_spec p 0) as [Hneg|Hpos].
  - rewrite lt0_neg. destruct (@round_mag_pos (- p)) as [-> _]; [lia | ].
    reflexivity.
  - destruct (Z.eq_dec p 0) as [->|Hne]; [reflexivity | ].
    destruct (@round_mag_pos p) as [_ ->]; [lia | ]. reflexivity.
Qed.

Lemma round_not_NaN p q : round p q <> NaN.
Proof.
  unfold round, round_mag.
  destruct (p <? 0); repeat destruct (_ <=? _); simpl; discriminate.
Qed.

(** [a - b > 0] iff [b < a], and [a - b < 0] iff [a < b]: two infinities
    of the same sign subtract to [NaN], which is neither. *)
Lemma gt0_sub x y : gt0 (sub x y) = ltb y x.
Proof.
  destruct x as [ | a | a], y as [ | b | b]; try reflexivity.
  - destruct a, b; reflexivity.
  - destruct b; reflexivity.
  - unfold sub, ltb. rewrite gt0_round.
    destruct (Z.ltb_spec 0 (a - b)), (Z.ltb_spec b a); lia.
Qed.

Lemma lt0_sub x y : lt0 (sub x y) = ltb x y.
Proof.
  destruct x as [ | a | a], y as [ | b | b]; try reflexivity.
  - destruct a, b; reflexivity.
  - unfold sub, ltb. rewrite lt0_round.
    destruct (Z.ltb_spec (a - b) 0), (Z.ltb_spec a b); lia.
Qed.

Lemma gt0_one : gt0 (ofZ 1) = true.
Proof. vm_compute. reflexivity. Qed.

Lemma gt0_minus_one : gt0 (ofZ (-1)) = false.
Proof. vm_compute. reflexivity. Qed.

Lemma ltb_asym x y : ltb x y = true -> ltb y x = false.
Proof.
  destruct x as [ | a | a], y as [ | b | b]; simpl; auto.
  - destruct a, b; auto.
  - now destruct a.
  - now destruct b.
  - intros H. apply Z.ltb_lt in H. apply Z.ltb_ge. lia.
Qed.

Lemma leb_trans x y z :
  x <> NaN -> y <> NaN -> z <> NaN ->
  ltb y x = false -> ltb z y = false -> ltb z x = false.
Proof.
  destruct x as [ | a | a], y as [ | b | b], z as [ | c | c];
    simpl; try congruence; intros _ _ _;
    repeat match goal with b : bool |- _ => destruct b end;
    simpl; try congruence; auto.
  intros H1 H2. apply Z.ltb_ge in H1, H2. apply Z.ltb_ge. lia.
Qed.

Lemma unit_exp_ge : 52 <= unit_exp.
Proof. unfold unit_exp. lia. Qed.

(** Integers below 2^53 are doubles: rounding leaves them alone. *)
Lemma round_mag_exact p :
  0 < p < 2 ^ 53 -> round_mag (p * 2 ^ unit_exp) 1 = Finite (p * 2 ^ unit_exp).
Proof.
  intros [Hp Hlt]. unfold round_mag. rewrite Z.div_1_r, Z.mul_1_l.
  pose proof unit_exp_ge as Hu. set (u := unit_exp) in *. clearbody u.
  assert (Hl : Z.log2 p < 53) by (apply Z.log2_lt_pow2; lia).
  pose proof (Z.log2_nonneg p) as Hl0.
  rewrite Z.log2_mul_pow2 by lia.
  set (n := Z.max 0 (u + Z.log2 p - 52)).
  assert (Hn : n = u - (52 - Z.log2 p)) by lia.
  assert (Hsplit : 2 ^ u = 2 ^ (52 - Z.log2 p) * 2 ^ n).
  { rewrite <- Z.pow_add_r by lia. f_equal. lia. }
  assert (H2n : 0 < 2 ^ n) by (apply Z.pow_pos_nonneg; lia).
  assert (Hdiv : rne_div (p * 2 ^ u) (2 ^ n) = p * 2 ^ (52 - Z.log2 p)).
  { unfold rne_div. rewrite Hsplit, Z.mul_assoc.
    rewrite Z.mod_mul, Z.div_mul by lia.
    destruct (Z.compare_spec (2 * 0) (2 ^ n)); [lia | reflexivity | lia]. }
  rewrite Hdiv, <- Z.mul_assoc, <- Hsplit.
  destruct (Z.leb_spec (2 ^ (1024 + u)) (p * 2 ^ u)) as [Hov|_];
    [ | reflexivity].
  rewrite Z.pow_add_r in Hov by lia.
  assert (0 < 2 ^ u) by (apply Z.pow_pos_nonneg; lia).
  assert (2 ^ 53 <= 2 ^ 1024) by (apply Z.pow_le_mono_r; lia).
  nia.
Qed.

Lemma round_exact p :
  Z.abs p < 2 ^ 53 -> round (p * 2 ^ unit_exp) 1 = Finite (p * 2 ^ unit_exp).
Proof.
  intros Hp. unfold round.
  assert (H2 : 0 < 2 ^ unit_exp) by (apply Z.pow_pos_nonneg; [lia | ];
    pose proof unit_exp_ge; lia).
  destruct (Z.ltb_spec (p * 2 ^ unit_exp) 0) as [Hneg|Hpos].
  - replace (- (p * 2 ^ unit_exp)) with ((- p) * 2 ^ unit_exp) by lia.
    rewrite round_mag_exact by nia. simpl. f_equal. lia.
  - destruct (Z.eq_dec p 0) as [->|Hne]; [reflexivity | ].
    apply round_mag_exact. nia.
Qed.

Lemma rne_div_bounds p d M :
  0 <= p -> 0 < d -> p <= M * d -> 0 <= rne_div p d <= M.
Proof.
  intros Hp Hd HM. unfold rne_div.
  pose proof (Z.div_mod p d ltac:(lia)) as Hdm.
  pose proof (Z.mod_pos_bound p d Hd) as Hmod.
  assert (H0 : 0 <= p / d) by (apply Z.div_pos; lia).
  assert (Hle : p / d <= M) by (apply Z.div_le_upper_bound; lia).
  destruct (Z.compare_spec (2 * (p mod d)) d) as [E|E|E].
  - destruct (Z.even (p / d)); [lia | ].
    destruct (Z.eq_dec (p / d) M) as [Eq|Ne]; [ | lia]. nia.
  - lia.
  - destruct (Z.eq_dec (p / d) M) as [Eq|Ne]; [ | lia]. nia.
Qed.

End NumFacts.

(** ** The sort permutes, and orders under a consistent comparator *)

Section SortFacts.

Variable comparefn : jsstring -> jsstring -> Number.

Lemma sort_insert_perm x l :
  Permutation (sort_insert comparefn x l) (x :: l).
Proof.
  induction l as [|y l IH]; simpl.
  - apply Permutation_refl.
  - destruct (Num.gt0 _).
    + apply Permutation_refl.
    + apply Permutation_trans with (y :: x :: l).
      * now apply perm_skip.
      * apply perm_swap.
Qed.

Lemma sort_fold_perm a acc :
  Permutation
    (fold_left (fun sorted x => sort_insert comparefn x sorted) a acc)
    (acc ++ a).
Proof.
  revert acc. induction a as [|x a IH]; intros acc; simpl.
  - rewrite app_nil_r. apply Permutation_refl.
  - eapply Permutation_trans; [apply IH | ].
    eapply Permutation_trans;
      [apply Permutation_app_tail, sort_insert_perm | ].
    simpl. apply Permutation_middle.
Qed.

Lemma sort_list_perm a : Permutation (sort_list comparefn a) a.
Proof. apply (sort_fold_perm a []). Qed.

(** The strings of the array belong to [P]. *)
Variable P : jsstring -> Prop.

Hypothesis consistent : ConsistentOn comparefn P.

Lemma gt0_SortCompare x y :
  Num.gt0 (SortCompare comparefn x y)
  = match x, y with
    | VUndefined, VUndefined => false
    | VUndefined, VString _ => true
    | VString _, VUndefined => false
    | VString a, VString b => Num.gt0 (comparefn a b)
    end.
Proof.
  destruct x as [|a], y as [|b]; unfold SortCompare.
  - reflexivity.
  - apply NumFacts.gt0_one.
  - apply NumFacts.gt0_minus_one.
  - now destruct (comparefn a b).
Qed.

Lemma precedes_total x y :
  inDomain P x -> inDomain P y ->
  Num.gt0 (SortCompare comparefn x y) = true -> precedes comparefn y x.
Proof.
  unfold precedes. rewrite !gt0_SortCompare.
  destruct x as [|a], y as [|b]; intros Hx Hy H;
    try reflexivity; try discriminate.
  now apply consistent.
Qed.

Lemma precedes_trans x y z :
  inDomain P x -> inDomain P y -> inDomain P z ->
  precedes comparefn x y -> precedes comparefn y z ->
  precedes comparefn x z.
Proof.
  unfold precedes. rewrite !gt0_SortCompare.
  destruct x as [|a], y as [|b], z as [|c];
    intros Hx Hy Hz H1 H2; try reflexivity; try discriminate.
  destruct consistent as [_ Htrans]. now apply Htrans with b.
Qed.

Lemma sort_insert_In x l w :
  In w (sort_insert comparefn x l) -> w = x \/ In w l.
Proof.
  intros H.
  apply (Permutation_in _ (sort_insert_perm x l)) in H.
  destruct H; auto.
Qed.

Lemma sort_insert_sorted x l :
  inDomain P x -> Forall (inDomain P) l ->
  StronglySorted (precedes comparefn) l ->
  StronglySorted (precedes comparefn) (sort_insert comparefn x l).
Proof.
  intros Hx. induction l as [|y l IH]; intros Hl Hs; simpl.
  - repeat constructor.
  - inversion Hl as [|? ? Hy Hl']; subst.
    inversion Hs as [|? ? Hs' Hall]; subst.
    destruct (Num.gt0 (SortCompare comparefn y x)) eqn:E.
    + constructor; [assumption | ].
      assert (Hxy : precedes comparefn x y) by now apply precedes_total.
      constructor; [assumption | ].
      rewrite Forall_forall in *. intros z Hz.
      apply precedes_trans with y; auto.
    + constructor; [now apply IH | ].
      rewrite Forall_forall in *. intros w Hw.
      apply sort_insert_In in Hw. destruct Hw as [->|Hw]; auto.
Qed.

Lemma sort_list_sorted a :
  Forall (inDomain P) a ->
  StronglySorted (precedes comparefn) (sort_list comparefn a).
Proof.
  unfold sort_list.
  assert (G : forall acc, Forall (inDomain P) acc ->
    StronglySorted (precedes comparefn) acc -> Forall (inDomain P) a ->
    StronglySorted (precedes comparefn)
      (fold_left (fun sorted x => sort_insert comparefn x sorted) a acc)).
  { induction a as [|x a IH]; intros acc Hacc Hs Ha; simpl.
    - assumption.
    - inversion Ha; subst. apply IH; auto.
      + rewrite Forall_forall in *. intros w Hw.
        apply sort_insert_In in Hw. destruct Hw as [->|Hw]; auto.
      + now apply sort_insert_sorted. }
  intros Ha. apply G; auto. constructor.
Qed.

End SortFacts.

(** ** [Map] and [count] *)

Section CountFacts.

Lemma value_eqb_eq a b : value_eqb a b = true <-> a = b.
Proof.
  destruct a as [|x], b as [|y]; simpl; unfold jsstring_eqb;
    try (split; [discriminate | congruence]); try tauto.
  destruct (list_eq_dec N.eq_dec x y); split; congruence.
Qed.

Lemma value_eqb_refl a : value_eqb a a = true.
Proof. now apply value_eqb_eq. Qed.

Lemma value_eqb_dec a b :
  value_eqb a b = if value_eq_dec a b then true else false.
Proof.
  destruct (value_eq_dec a b) as [->|Hne].
  - apply value_eqb_refl.
  - destruct (value_eqb a b) eqn:E; [ | reflexivity].
    apply value_eqb_eq in E. contradiction.
Qed.

Lemma Map_has_get m key : Map_has m key = false -> Map_get m key = None.
Proof.
  induction m as [|[k v] m IH]; simpl; [reflexivity | ].
  destruct (value_eqb k key); simpl; [discriminate | exact IH].
Qed.

Lemma count_fold values m :
  fold_left
    (fun counts value =>
       let previous :=
         if Map_has counts value
         then match Map_get counts value with Some n => n | None => 0 end
         else 0 in
       Map_set counts value (previous + 1)) values m
  = fold_left count_step values m.
Proof.
  revert m. induction values as [|x values IH]; intros m; simpl.
  - reflexivity.
  - rewrite IH. f_equal. unfold count_step, Map_count.
    destruct (Map_has m x) eqn:E; [reflexivity | ].
    now rewrite (Map_has_get _ _ E).
Qed.

Lemma Map_get_set m k n key :
  Map_get (Map_set m k n) key
  = if value_eq_dec k key then Some n else Map_get m key.
Proof.
  induction m as [|[k' v'] m IH]; simpl.
  - rewrite value_eqb_dec. destruct (value_eq_dec k key); reflexivity.
  - destruct (value_eqb k' k) eqn:E; simpl.
    + apply value_eqb_eq in E. subst k'.
      rewrite value_eqb_dec. destruct (value_eq_dec k key); reflexivity.
    + rewrite IH, value_eqb_dec.
      destruct (value_eq_dec k' key) as [->|]; [ | reflexivity].
      destruct (value_eq_dec k key) as [->|]; [ | reflexivity].
      rewrite value_eqb_refl in E. discriminate.
Qed.

Lemma Map_total_set m k n :
  Map_total (Map_set m k n) = Map_total m - Map_count m k + n.
Proof.
  unfold Map_count.
  induction m as [|[k' v'] m IH]; simpl; [lia | ].
  destruct (value_eqb k' k); simpl; lia.
Qed.

Lemma Map_keys_set m k n :
  Map_keys (Map_set m k n)
  = if in_dec value_eq_dec k (Map_keys m)
    then Map_keys m else Map_keys m ++ [k].
Proof.
  induction m as [|[k' v'] m IH]; simpl; [reflexivity | ].
  destruct (value_eqb k' k) eqn:E; simpl.
  - apply value_eqb_eq in E. subst.
    destruct (value_eq_dec k k); [reflexivity | contradiction].
  - rewrite IH. destruct (value_eq_dec k' k) as [->|Hne].
    + rewrite value_eqb_refl in E. discriminate.
    + destruct (in_dec value_eq_dec k (Map_keys m)); reflexivity.
Qed.

Lemma Map_get_step m x key :
  Map_get (count_step m x) key
  = if value_eq_dec x key then Some (Map_count m key + 1)
    else Map_get m key.
Proof.
  unfold count_step. rewrite Map_get_set.
  destruct (value_eq_dec x key) as [->|]; reflexivity.
Qed.

Lemma Map_count_step m x key :
  Map_count (count_step m x) key
  = Map_count m key + (if value_eq_dec x key then 1 else 0).
Proof.
  unfold Map_count at 1. rewrite Map_get_step.
  destruct (value_eq_dec x key); [reflexivity | ].
  unfold Map_count. destruct (Map_get m key); lia.
Qed.

Lemma count_fold_get values m key :
  Map_get (fold_left count_step values m) key
  = match count_occ value_eq_dec values key with
    | O => Map_get m key
    | S _ as n => Some (Map_count m key + Z.of_nat n)
    end.
Proof.
  revert m. induction values as [|x values IH]; intros m; simpl.
  - reflexivity.
  - rewrite IH, Map_get_step, Map_count_step.
    destruct (value_eq_dec x key) as [->|Hne].
    + destruct (count_occ value_eq_dec values key); f_equal; lia.
    + destruct (count_occ value_eq_dec values key); f_equal; lia.
Qed.

Lemma count_fold_total values m :
  Map_total (fold_left count_step values m)
  = Map_total m + Z.of_nat (List.length values).
Proof.
  revert m. induction values as [|x values IH]; intros m.
  - simpl. lia.
  - cbn [fold_left List.length]. rewrite IH.
    unfold count_step. rewrite Map_total_set. lia.
Qed.

Lemma count_fold_keys values m :
  NoDup (Map_keys m) -> NoDup (Map_keys (fold_left count_step values m)).
Proof.
  revert m. induction values as [|x values IH]; intros m Hm; simpl.
  - assumption.
  - apply IH. unfold count_step. rewrite Map_keys_set.
    destruct (in_dec value_eq_dec x (Map_keys m)) as [|Hn]; [assumption | ].
    apply NoDup_app; [assumption | repeat constructor; auto | ].
    intros y Hy [<-|[]]. contradiction.
Qed.

Lemma count_get values key :
  Map_get (count values) key
  = match count_occ value_eq_dec values key with
    | O => None
    | S _ as n => Some (Z.of_nat n)
    end.
Proof.
  unfold count. rewrite count_fold, count_fold_get.
  destruct (count_occ value_eq_dec values key); reflexivity.
Qed.

Lemma count_total values :
  Map_total (count values) = Z.of_nat (List.length values).
Proof. unfold count. now rewrite count_fold, count_fold_total. Qed.

Lemma count_keys values : NoDup (Map_keys (count values)).
Proof.
  unfold count. rewrite count_fold. apply count_fold_keys. constructor.
Qed.

End CountFacts.

(** ** Strings of the numeric patterns are decimal literals *)

Module LiteralFacts.
Import Num.

Import RegExpFacts.

Lemma Matches_digit w :
  Matches digit w -> exists c, w = [c] /\ isDigit c = true.
Proof. apply Matches_Cls. Qed.

Lemma Matches_char a w :
  Matches (char a) w -> w = [N_of_ascii a].
Proof.
  intros H. apply Matches_Cls in H. destruct H as (c & -> & Hc).
  apply N.eqb_eq in Hc. now subst.
Qed.

Lemma Matches_Star_digit w : Matches (Star digit) w -> Digits w.
Proof.
  intros H. remember (Star digit) as r eqn:E.
  induction H; try discriminate.
  - constructor.
  - injection E as ->. apply Forall_app. split; [ | now apply IHMatches2].
    apply Matches_digit in H. destruct H as (c & -> & Hc).
    repeat constructor. assumption.
Qed.

Lemma Matches_Plus_digit w :
  Matches (Plus digit) w -> Digits w /\ w <> [].
Proof.
  intros H. apply Matches_Seq in H. destruct H as (w1 & w2 & -> & H1 & H2).
  apply Matches_digit in H1. destruct H1 as (c & -> & Hc).
  apply Matches_Star_digit in H2. split; [ | discriminate].
  constructor; assumption.
Qed.

Lemma Matches_Times_digit n w :
  Matches (Times n digit) w -> Digits w /\ List.length w = n.
Proof.
  revert w. induction n as [|n IH]; intros w H; simpl in H.
  - apply Matches_Eps in H. subst. split; [constructor | reflexivity].
  - apply Matches_Seq in H. destruct H as (w1 & w2 & -> & H1 & H2).
    apply Matches_digit in H1. destruct H1 as (c & -> & Hc).
    apply IH in H2. destruct H2 as [Hd <-].
    split; [constructor; assumption | reflexivity].
Qed.

Lemma Matches_UpTo_digit n w :
  Matches (UpTo n digit) w -> Digits w /\ (List.length w <= n)%nat.
Proof.
  revert w. induction n as [|n IH]; intros w H; simpl in H.
  - apply Matches_Eps in H. subst. split; [constructor | auto].
  - apply Matches_Opt in H. destruct H as [->|H].
    + split; [constructor | simpl; lia].
    + apply Matches_Seq in H. destruct H as (w1 & w2 & -> & H1 & H2).
      apply Matches_digit in H1. destruct H1 as (c & -> & Hc).
      apply IH in H2. destruct H2 as [Hd Hl].
      split; [constructor; assumption | simpl; lia].
Qed.

Lemma Matches_Range_digit hi w :
  (1 <= hi)%nat ->
  Matches (Range 1 hi digit) w ->
  Digits w /\ (1 <= List.length w <= hi)%nat.
Proof.
  intros Hhi H. apply Matches_Seq in H. destruct H as (w1 & w2 & -> & H1 & H2).
  apply Matches_Times_digit in H1. destruct H1 as [Hd1 Hl1].
  apply Matches_UpTo_digit in H2. destruct H2 as [Hd2 Hl2].
  split; [now apply Forall_app | rewrite length_app; lia].
Qed.

Lemma DecimalDigits_run ds rest acc n :
  Digits ds ->
  match rest with [] => True | c :: _ => isDigit c = false end ->
  DecimalDigits acc n (ds ++ rest)
  = (digits_value acc ds, (n + List.length ds)%nat, rest).
Proof.
  intros Hd Hrest. revert acc n.
  induction Hd as [|c ds Hc Hd IH]; intros acc n; simpl.
  - rewrite Nat.add_0_r. destruct rest as [|c rest]; [reflexivity | ].
    simpl. now rewrite Hrest.
  - rewrite Hc, IH. unfold digits_value. simpl.
    repeat f_equal. lia.
Qed.

Lemma DecimalDigits_all ds acc n :
  Digits ds ->
  DecimalDigits acc n ds
  = (digits_value acc ds, (n + List.length ds)%nat, []).
Proof.
  intros Hd. pose proof (@DecimalDigits_run ds [] acc n Hd I) as H.
  now rewrite app_nil_r in H.
Qed.

Lemma Unsigned_literal w :
  Unsigned w ->
  exists p q, StrUnsignedDecimalLiteral w = Some (p, q).
Proof.
  intros [ds Hd Hne | ip fp Hi Hf Hne]; unfold StrUnsignedDecimalLiteral.
  - rewrite DecimalDigits_all by assumption.
    destruct ds; [contradiction | simpl; eauto].
  - rewrite DecimalDigits_run by (auto; reflexivity).
    rewrite N.eqb_refl.
    rewrite DecimalDigits_all by assumption.
    simpl.
    destruct (List.length ip + List.length fp)%nat eqn:E; [ | eauto].
    destruct ip, fp; simpl in E; try discriminate.
    destruct Hne; contradiction.
Qed.

Lemma Unsigned_head w :
  Unsigned w ->
  exists c w', w = c :: w' /\ (c =? 45)%N = false /\ (c =? 43)%N = false.
Proof.
  assert (Hdig : forall c, isDigit c = true ->
            (c =? 45)%N = false /\ (c =? 43)%N = false).
  { intros c Hc. unfold isDigit in Hc. apply andb_true_iff in Hc.
    destruct Hc as [H1 H2]. apply N.leb_le in H1, H2.
    split; apply N.eqb_neq; lia. }
  intros [ds Hd Hne | ip fp Hi Hf Hne].
  - destruct Hd as [|c ds Hc Hd]; [contradiction | ].
    exists c, ds. split; [reflexivity | auto].
  - destruct Hi as [|c ip Hc Hi]; simpl.
    + exists 46%N, fp. repeat split.
    + exists c, (ip ++ 46%N :: fp). split; [reflexivity | auto].
Qed.

(** An optional hyphen before an unsigned literal is a literal. *)
Lemma signed_literal body s :
  (forall w, Matches body w -> Unsigned w) ->
  Matches (Cat [Opt (char "-"); body]) s ->
  exists p q, StrDecimalLiteral s = Some (p, q).
Proof.
  intros Hbody H. simpl in H.
  apply Matches_Seq in H. destruct H as (w1 & w2 & -> & H1 & H2).
  apply Matches_Seq in H2. destruct H2 as (w & w3 & -> & H2 & H3).
  apply Matches_Eps in H3. subst w3. rewrite app_nil_r.
  apply Hbody in H2.
  destruct (Unsigned_literal H2) as (p & q & Hpq).
  apply Matches_Opt in H1. destruct H1 as [->|H1].
  - destruct (Unsigned_head H2) as (c & w' & -> & Hm & Hp).
    simpl app. unfold StrDecimalLiteral. rewrite Hm, Hp. eauto.
  - apply Matches_char in H1. subst w1.
    change (N_of_ascii "-") with 45%N. simpl app.
    unfold StrDecimalLiteral. rewrite N.eqb_refl, Hpq. eauto.
Qed.

Lemma literal_not_NaN s p q :
  StrDecimalLiteral s = Some (p, q) -> ToNumber s <> NaN.
Proof.
  intros H. unfold ToNumber. rewrite H. apply NumFacts.round_not_NaN.
Qed.

Lemma Range_Unsigned hi w :
  (1 <= hi)%nat -> Matches (Range 1 hi digit) w -> Unsigned w.
Proof.
  intros Hhi H. apply Matches_Range_digit in H; [ | assumption].
  destruct H as [Hd Hl]. apply U_int; [assumption | ].
  intros ->. simpl in Hl. lia.
Qed.

Lemma REAL_Unsigned w :
  Matches (Alt (Plus digit)
             (Alt (Cat [char "."; Plus digit])
                  (Cat [Plus digit; char "."; Star digit]))) w ->
  Unsigned w.
Proof.
  intros H. apply Matches_Alt in H. destruct H as [H|H].
  - apply Matches_Plus_digit in H. destruct H. now apply U_int.
  - apply Matches_Alt in H. destruct H as [H|H]; simpl in H.
    + apply Matches_Seq in H. destruct H as (w1 & w2 & -> & H1 & H2).
      apply Matches_Seq in H2. destruct H2 as (w3 & w4 & -> & H2 & H3).
      apply Matches_Eps in H3. subst w4. rewrite app_nil_r.
      apply Matches_char in H1. subst w1.
      apply Matches_Plus_digit in H2. destruct H2 as [Hd Hne].
      apply (@U_frac [] w3); auto. constructor.
    + apply Matches_Seq in H. destruct H as (w1 & w2 & -> & H1 & H2).
      apply Matches_Seq in H2. destruct H2 as (w3 & w4 & -> & H2 & H3).
      apply Matches_Seq in H3. destruct H3 as (w5 & w6 & -> & H3 & H4).
      apply Matches_Eps in H4. subst w6. rewrite app_nil_r.
      apply Matches_char in H2. subst w3.
      apply Matches_Plus_digit in H1. destruct H1 as [Hd Hne].
      apply Matches_Star_digit in H3.
      apply (@U_frac w1 w5); auto.
Qed.

Lemma digits_value_bound ds acc :
  Digits ds -> 0 <= acc ->
  0 <= digits_value acc ds < (acc + 1) * 10 ^ Z.of_nat (List.length ds).
Proof.
  intros Hd. revert acc.
  induction Hd as [|c ds Hc Hd IH]; intros acc Hacc.
  - simpl. lia.
  - unfold digits_value. cbn [fold_left].
    fold (digits_value (10 * acc + (Z.of_N c - 48)) ds).
    unfold isDigit in Hc. apply andb_true_iff in Hc.
    destruct Hc as [H1 H2]. apply N.leb_le in H1, H2.
    specialize (IH (10 * acc + (Z.of_N c - 48))).
    cbn [List.length]. rewrite Nat2Z.inj_succ, Z.pow_succ_r by lia.
    assert (0 < 10 ^ Z.of_nat (List.length ds))
      by (apply Z.pow_pos_nonneg; lia).
    nia.
Qed.

(** A string of the patterns of INTEGER and BIGINT is the literal of
    an integer of at most [hi] digits. *)
Lemma integer_literal hi s :
  (1 <= hi)%nat ->
  Matches (Cat [Opt (char "-"); Range 1 hi digit]) s ->
  exists m, StrDecimalLiteral s = Some (m, 1) /\ Z.abs m < 10 ^ Z.of_nat hi.
Proof.
  intros Hhi H. simpl in H.
  apply Matches_Seq in H. destruct H as (w1 & w2 & -> & H1 & H2).
  apply Matches_Seq in H2. destruct H2 as (w & w3 & -> & H2 & H3).
  apply Matches_Eps in H3. subst w3. rewrite app_nil_r.
  pose proof (Range_Unsigned Hhi H2) as Hu.
  apply Matches_Range_digit in H2; [ | assumption].
  destruct H2 as [Hd Hl].
  assert (Hlit : StrUnsignedDecimalLiteral w = Some (digits_value 0 w, 1)).
  { unfold StrUnsignedDecimalLiteral.
    rewrite DecimalDigits_all by assumption.
    destruct w; [simpl in Hl; lia | reflexivity]. }
  assert (Hb : 0 <= digits_value 0 w < 10 ^ Z.of_nat hi).
  { pose proof (@digits_value_bound w 0 Hd (Z.le_refl 0)) as Hb.
    assert (10 ^ Z.of_nat (List.length w) <= 10 ^ Z.of_nat hi)
      by (apply Z.pow_le_mono_r; lia).
    lia. }
  apply Matches_Opt in H1. destruct H1 as [->|H1].
  - destruct (Unsigned_head Hu) as (c & w' & -> & Hm & Hp).
    exists (digits_value 0 (c :: w')). simpl app.
    unfold StrDecimalLiteral. rewrite Hm, Hp. split; [assumption | lia].
  - apply Matches_char in H1. subst w1.
    change (N_of_ascii "-") with 45%N. simpl app.
    exists (- digits_value 0 w).
    unfold StrDecimalLiteral. rewrite N.eqb_refl, Hlit.
    split; [reflexivity | lia].
Qed.

(** On the strings of INTEGER [compareNumbers] is the comparison of
    the integers they denote. *)
Lemma integer_order a b :
  Matches (Cat [Opt (char "-"); Range 1 10 digit]) a ->
  Matches (Cat [Opt (char "-"); Range 1 10 digit]) b ->
  exists m n,
    StrDecimalLiteral a = Some (m, 1) /\
    StrDecimalLiteral b = Some (n, 1) /\
    lt0 (sub (ToNumber a) (ToNumber b)) = (m <? n) /\
    gt0 (sub (ToNumber a) (ToNumber b)) = (n <? m).
Proof.
  intros Ha Hb.
  apply integer_literal in Ha; [ | lia]. destruct Ha as (m & Ha & Hm).
  apply integer_literal in Hb; [ | lia]. destruct Hb as (n & Hb & Hn).
  exists m, n. split; [assumption | ]. split; [assumption | ].
  assert (H10 : 10 ^ Z.of_nat 10 < 2 ^ 53) by (vm_compute; reflexivity).
  unfold ToNumber. rewrite Ha, Hb.
  rewrite !NumFacts.round_exact by lia.
  rewrite NumFacts.lt0_sub, NumFacts.gt0_sub. unfold ltb.
  assert (0 < 2 ^ unit_exp)
    by (apply Z.pow_pos_nonneg; [lia | pose proof NumFacts.unit_exp_ge; lia]).
  split.
  - destruct (Z.ltb_spec (m * 2 ^ unit_exp) (n * 2 ^ unit_exp)),
      (Z.ltb_spec m n); try reflexivity; nia.
  - destruct (Z.ltb_spec (n * 2 ^ unit_exp) (m * 2 ^ unit_exp)),
      (Z.ltb_spec n m); try reflexivity; nia.
Qed.

End LiteralFacts.

(** ** Rounding keeps the order *)

Module RoundingFacts.
Import Num.

(** The integer [rne_div] picks is within one half of the quotient, and
    even when the quotient lies half way between two integers. *)
Lemma rne_div_near p q :
  0 < q ->
  2 * p - q <= 2 * rne_div p q * q <= 2 * p + q /\
  (2 * rne_div p q * q = 2 * p - q \/ 2 * rne_div p q * q = 2 * p + q ->
   Z.even (rne_div p q) = true).
Proof.
  intros Hq. unfold rne_div.
  pose proof (Z.div_mod p q ltac:(lia)) as Hdm.
  pose proof (Z.mod_pos_bound p q Hq) as Hmod.
  set (n := p / q) in *. set (m := p mod q) in *.
  assert (Hp : p = n * q + m) by lia. clearbody n m. subst p.
  destruct (Z.compare_spec (2 * m) q) as [E|E|E].
  - destruct (Z.even n) eqn:En.
    + split; [nia | intros _; exact En].
    + split; [nia | intros _].
      rewrite Z.even_add, En. reflexivity.
  - split; [nia | intros [H|H]; nia].
  - split; [nia | intros [H|H]; nia].
Qed.

Lemma rne_div_mono p q p' q' :
  0 < q -> 0 < q' -> p * q' <= p' * q -> rne_div p q <= rne_div p' q'.
Proof.
  intros Hq Hq' Hle.
  destruct (@rne_div_near p q Hq) as [[_ Hup] Hev].
  destruct (@rne_div_near p' q' Hq') as [[Hlo' _] Hev'].
  set (a := rne_div p q) in *. set (a' := rne_div p' q') in *.
  clearbody a a'.
  destruct (Z.le_gt_cases a a') as [H|Hgt]; [assumption | exfalso].
  assert (H1 : (2 * a - 1) * q' <= 2 * p').
  { assert ((2 * a - 1) * q' * q <= 2 * p' * q) by nia.
    apply Z.mul_le_mono_pos_r with q; assumption. }
  assert (Ha : a = a' + 1) by nia.
  subst a.
  assert (E' : 2 * a' * q' = 2 * p' - q') by nia.
  assert (E : 2 * (a' + 1) * q = 2 * p + q).
  { assert (2 * p * q' = (2 * a' + 1) * q * q') by nia.
    assert (2 * p = (2 * a' + 1) * q)
      by (apply Z.mul_cancel_r with q'; lia).
    lia. }
  specialize (Hev (or_intror E)). specialize (Hev' (or_introl E')).
  rewrite Z.even_add, Hev' in Hev. discriminate Hev.
Qed.

(** The number of units [round_mag] arrives at, before the test for
    overflow. *)
Lemma round_mag_units p q :
  round_mag p q
  = let n := Z.max 0 (Z.log2 (p / q) - 52) in
    let k := rne_div p (q * 2 ^ n) * 2 ^ n in
    if 2 ^ (1024 + unit_exp) <=? k then Infinity false else Finite k.
Proof. reflexivity. Qed.

Lemma quotient_mono p q p' q' :
  0 <= p -> 0 < q -> 0 < q' -> p * q' <= p' * q -> p / q <= p' / q'.
Proof.
  intros Hp Hq Hq' Hle.
  apply Z.div_le_lower_bound; [assumption | ].
  pose proof (Z.mul_div_le p q Hq) as Hf.
  assert (Hf0 : 0 <= p / q) by (apply Z.div_pos; lia).
  assert (q' * (p / q) * q <= p' * q) by nia.
  apply Z.mul_le_mono_pos_r with q; assumption.
Qed.

Lemma units_mono p q p' q' :
  0 <= p -> 0 < q -> 0 < q' -> p * q' <= p' * q ->
  let n := Z.max 0 (Z.log2 (p / q) - 52) in
  let n' := Z.max 0 (Z.log2 (p' / q') - 52) in
  rne_div p (q * 2 ^ n) * 2 ^ n <= rne_div p' (q' * 2 ^ n') * 2 ^ n'.
Proof.
  intros Hp Hq Hq' Hle n n'.
  assert (Hp' : 0 <= p') by nia.
  pose proof (@quotient_mono p q p' q' Hp Hq Hq' Hle) as Hf.
  assert (Hf0 : 0 <= p / q) by (apply Z.div_pos; lia).
  assert (Hl : Z.log2 (p / q) <= Z.log2 (p' / q'))
    by (now apply Z.log2_le_mono).
  assert (Hn : 0 <= n <= n') by (unfold n, n'; lia).
  assert (H2n : 0 < 2 ^ n) by (apply Z.pow_pos_nonneg; lia).
  assert (H2n' : 0 < 2 ^ n') by (apply Z.pow_pos_nonneg; lia).
  destruct (Z.eq_dec n n') as [E|Hne].
  - rewrite <- E. apply Z.mul_le_mono_nonneg_r; [lia | ].
    apply rne_div_mono; nia.
  - assert (Hlt : n + 1 <= n') by lia.
    (* the smaller one stays below 2^(53+n) *)
    assert (Hup : rne_div p (q * 2 ^ n) <= 2 ^ 53).
    { apply (@NumFacts.rne_div_bounds p (q * 2 ^ n) (2 ^ 53)); [assumption | nia | ].
      assert (Hfl : p / q < 2 ^ (53 + n)).
      { destruct (Z.eq_dec (p / q) 0) as [E0|E0].
        - rewrite E0. apply Z.pow_pos_nonneg; lia.
        - destruct (Z.log2_spec (p / q) ltac:(lia)) as [_ Hhi].
          apply Z.lt_le_trans with (2 ^ Z.succ (Z.log2 (p / q)));
            [assumption | ].
          apply Z.pow_le_mono_r; unfold n; lia. }
      pose proof (Z.div_mod p q ltac:(lia)) as Hdm.
      pose proof (Z.mod_pos_bound p q Hq) as Hmod.
      rewrite Z.pow_add_r in Hfl by lia. nia. }
    (* the larger one has reached 2^(52+n') *)
    assert (Hlow : 2 ^ 52 <= rne_div p' (q' * 2 ^ n')).
    { apply Z.le_trans with (p' / (q' * 2 ^ n'));
        [ | apply NumFacts.rne_div_lower].
      apply Z.div_le_lower_bound; [nia | ].
      assert (Hpos : 0 < p' / q').
      { destruct (Z.eq_dec (p' / q') 0) as [E0|E0]; [exfalso | lia].
        assert (n' = 0) by (unfold n'; rewrite E0; reflexivity). lia. }
      destruct (Z.log2_spec (p' / q') Hpos) as [Hlo _].
      assert (Hexp : Z.log2 (p' / q') = 52 + n') by (unfold n' in *; lia).
      rewrite Hexp, Z.pow_add_r in Hlo by lia.
      pose proof (Z.mul_div_le p' q' Hq'). nia. }
    apply Z.le_trans with (2 ^ 53 * 2 ^ n); [nia | ].
    apply Z.le_trans with (2 ^ 52 * 2 ^ n'); [ | nia].
    rewrite <- !Z.pow_add_r by lia. apply Z.pow_le_mono_r; lia.
Qed.

Lemma round_mag_mono p q p' q' :
  0 <= p -> 0 < q -> 0 < q' -> p * q' <= p' * q ->
  ltb (round_mag p' q') (round_mag p q) = false.
Proof.
  intros Hp Hq Hq' Hle.
  pose proof (@units_mono p q p' q' Hp Hq Hq' Hle) as H. cbv zeta in H.
  rewrite !round_mag_units. cbv zeta.
  set (k := rne_div p _ * _) in *. set (k' := rne_div p' _ * _) in *.
  destruct (Z.leb_spec (2 ^ (1024 + unit_exp)) k'),
           (Z.leb_spec (2 ^ (1024 + unit_exp)) k); cbn [ltb andb negb];
    try reflexivity; [lia | apply Z.ltb_ge; assumption].
Qed.

Lemma round_mag_nonneg p q :
  0 <= p -> 0 < q -> lt0 (round_mag p q) = false.
Proof.
  intros Hp Hq. rewrite round_mag_units. cbv zeta.
  set (n := Z.max 0 _).
  assert (H2n : 0 < 2 ^ n) by (apply Z.pow_pos_nonneg; lia).
  destruct (Z.leb_spec (2 ^ (1024 + unit_exp)) (rne_div p (q * 2 ^ n) * 2 ^ n));
    [reflexivity | ].
  cbn [lt0]. apply Z.ltb_ge.
  pose proof (NumFacts.rne_div_lower p (q * 2 ^ n)).
  assert (0 <= p / (q * 2 ^ n)) by (apply Z.div_pos; nia). nia.
Qed.

Lemma ltb_neg x y : ltb (neg x) (neg y) = ltb y x.
Proof.
  destruct x as [ | a | a], y as [ | b | b]; cbn [neg ltb];
    try reflexivity;
    repeat match goal with c : bool |- _ => destruct c end;
    try reflexivity.
  destruct (Z.ltb_spec (- a) (- b)), (Z.ltb_spec b a);
    try reflexivity; lia.
Qed.

Lemma ltb_across_zero x y :
  lt0 x = false -> lt0 y = false -> ltb y (neg x) = false.
Proof.
  destruct x as [ | a | a], y as [ | b | b]; cbn [lt0 neg ltb];
    intros Hx Hy; subst; try reflexivity.
  apply Z.ltb_ge in Hx, Hy. apply Z.ltb_ge. lia.
Qed.

(** Rounding never inverts the order of two quotients. *)
Lemma round_mono p q p' q' :
  0 < q -> 0 < q' -> p * q' <= p' * q ->
  ltb (round p' q') (round p q) = false.
Proof.
  intros Hq Hq' Hle. unfold round.
  destruct (Z.ltb_spec p 0) as [Hn|Hp], (Z.ltb_spec p' 0) as [Hn'|Hp'].
  - rewrite ltb_neg. apply round_mag_mono; nia.
  - apply ltb_across_zero; apply round_mag_nonneg; lia.
  - nia.
  - now apply round_mag_mono.
Qed.

Lemma unsigned_denominator s p q :
  StrUnsignedDecimalLiteral s = Some (p, q) -> 0 < q.
Proof.
  unfold StrUnsignedDecimalLiteral.
  destruct (DecimalDigits 0 0 s) as [[ip ni] rest].
  destruct rest as [|c rest'].
  - destruct ni; [discriminate | ]. intros H. injection H as _ <-. lia.
  - destruct (c =? 46)%N; [ | discriminate].
    destruct (DecimalDigits ip 0 rest') as [[m nf] rest''].
    destruct rest''; [ | discriminate].
    destruct (ni + nf)%nat; [discriminate | ].
    intros H. injection H as _ <-. apply Z.pow_pos_nonneg; lia.
Qed.

Lemma literal_denominator s p q :
  StrDecimalLiteral s = Some (p, q) -> 0 < q.
Proof.
  unfold StrDecimalLiteral. destruct s as [|c s']; [discriminate | ].
  destruct (c =? 45)%N.
  - destruct (StrUnsignedDecimalLiteral s') as [[p' q']|] eqn:E;
      [ | discriminate].
    intros H. injection H as _ <-. exact (@unsigned_denominator s' p' q' E).
  - destruct (c =? 43)%N; apply unsigned_denominator.
Qed.

(** What [compareNumbers] says strictly of two literals holds of the
    numbers they denote. *)
Lemma compareNumbers_sound a b m dm n dn :
  StrDecimalLiteral a = Some (m, dm) ->
  StrDecimalLiteral b = Some (n, dn) ->
  (lt0 (compareNumbers a b) = true -> m * dn < n * dm) /\
  (gt0 (compareNumbers a b) = true -> n * dm < m * dn).
Proof.
  intros Ha Hb.
  pose proof (@literal_denominator a m dm Ha) as Hdm.
  pose proof (@literal_denominator b n dn Hb) as Hdn.
  assert (HU : 0 < 2 ^ unit_exp)
    by (apply Z.pow_pos_nonneg; [lia | pose proof NumFacts.unit_exp_ge; lia]).
  unfold compareNumbers. rewrite NumFacts.lt0_sub, NumFacts.gt0_sub.
  unfold ToNumber. rewrite Ha, Hb. split; intros H.
  - destruct (Z.lt_ge_cases (m * dn) (n * dm)) as [Hlt|Hge];
      [assumption | exfalso].
    rewrite (@round_mono (n * 2 ^ unit_exp) dn (m * 2 ^ unit_exp) dm) in H;
      [discriminate H | assumption | assumption | nia].
  - destruct (Z.lt_ge_cases (n * dm) (m * dn)) as [Hlt|Hge];
      [assumption | exfalso].
    rewrite (@round_mono (m * 2 ^ unit_exp) dm (n * 2 ^ unit_exp) dn) in H;
      [discriminate H | assumption | assumption | nia].
Qed.

(** Whole numbers below 2^53 in magnitude are doubles: on them
    [compareNumbers] compares the numbers. *)
Lemma compareNumbers_exact a b m n :
  StrDecimalLiteral a = Some (m, 1) ->
  StrDecimalLiteral b = Some (n, 1) ->
  Z.abs m < 2 ^ 53 -> Z.abs n < 2 ^ 53 ->
  lt0 (compareNumbers a b) = (m <? n) /\
  gt0 (compareNumbers a b) = (n <? m).
Proof.
  intros Ha Hb Hm Hn.
  assert (HU : 0 < 2 ^ unit_exp)
    by (apply Z.pow_pos_nonneg; [lia | pose proof NumFacts.unit_exp_ge; lia]).
  unfold compareNumbers. rewrite NumFacts.lt0_sub, NumFacts.gt0_sub.
  unfold ToNumber. rewrite Ha, Hb.
  rewrite !NumFacts.round_exact by assumption. unfold ltb. split.
  - destruct (Z.ltb_spec (m * 2 ^ unit_exp) (n * 2 ^ unit_exp)),
      (Z.ltb_spec m n); try reflexivity; nia.
  - destruct (Z.ltb_spec (n * 2 ^ unit_exp) (m * 2 ^ unit_exp)),
      (Z.ltb_spec n m); try reflexivity; nia.
Qed.

End RoundingFacts.

(** ** The store *)

Section StoreFacts.

Lemma nth_error_fresh (h : heap) a :
  nth_error (h ++ [a]) (List.length h) = Some a.
Proof.
  rewrite nth_error_app2 by lia. now rewrite Nat.sub_diag.
Qed.

Lemma nth_error_old (h : heap) a r x :
  nth_error h r = Some x -> nth_error (h ++ [a]) r = Some x.
Proof.
  intros H. rewrite nth_error_app1; [assumption | ].
  apply nth_error_Some. congruence.
Qed.

Lemma heap_set_fresh (h : heap) a b :
  heap_set (h ++ [a]) (List.length h) b = h ++ [b].
Proof. induction h as [|x h IH]; simpl; [reflexivity | now rewrite IH]. Qed.

Lemma index_last (l : list value) :
  (if Z.of_nat (List.length l) - 1 <? 0 then VUndefined
   else nth (Z.to_nat (Z.of_nat (List.length l) - 1)) l VUndefined)
  = last l VUndefined.
Proof.
  destruct l as [|x l'] using rev_ind; [reflexivity | ].
  rewrite last_last, length_app. simpl List.length.
  destruct (Z.ltb_spec (Z.of_nat (List.length l' + 1) - 1) 0); [lia | ].
  replace (Z.to_nat (Z.of_nat (List.length l' + 1) - 1))
    with (List.length l') by lia.
  apply nth_middle.
Qed.

Lemma index_first (l : list value) : nth 0 l VUndefined = hd VUndefined l.
Proof. now destruct l. Qed.

Variable localeCompare : jsstring -> jsstring -> Number.

(** What [synopsize] computes on a column held at [r]: the filtered
    array is allocated at the end of the store and sorted there; the
    extrema and the counts are read from it after the sort. *)
Lemma synopsize_run h r vs :
  nth_error h r = Some vs ->
  let type := inferType localeCompare (filter present vs) in
  let sorted := sort_list (compareFunction type) (filter present vs) in
  synopsize localeCompare r h
  = Some ({| typeName := id type;
             values := r;
             nonEmptyValues := List.length h;
             minimum := hd VUndefined sorted;
             maximum := last sorted VUndefined;
             counts := count sorted |},
          h ++ [sorted]).
Proof.
  intros Hr type sorted.
  unfold synopsize, Array_filter, Array_sort, Array_index, Array_length,
    Array_read, Array_write, Array_alloc, bind, ret.
  rewrite Hr. cbv beta iota.
  repeat (rewrite ?nth_error_fresh, ?heap_set_fresh; cbv beta iota).
  change (0 <? 0) with false. cbv beta iota.
  change (Z.to_nat 0) with O.
  rewrite index_first, index_last. reflexivity.
Qed.

End StoreFacts.

(** ** The cascade of [inferType] *)

Section InferFacts.

Variable localeCompare : jsstring -> jsstring -> Number.

Lemma knownTypes_test t values :
  In t (knownTypes localeCompare) -> test t values = allMatch values t.
Proof.
  intros H. simpl in H.
  repeat (destruct H as [<-|H]; [reflexivity | ]). contradiction.
Qed.

Lemma inferType_loop_find types values :
  (forall t, In t types -> test t values = allMatch values t) ->
  inferType_loop types values = find (allMatch values) types.
Proof.
  induction types as [|t types IH]; intros H; simpl; [reflexivity | ].
  rewrite (H t) by (now left).
  destruct (allMatch values t); [reflexivity | ].
  apply IH. intros u Hu. apply H. now right.
Qed.

Lemma inferType_nonempty values :
  values <> [] ->
  inferType localeCompare values
  = match find (allMatch values) (knownTypes localeCompare) with
    | Some t => t
    | None => defaultType localeCompare
    end.
Proof.
  intros Hne. unfold inferType.
  destruct values as [|v values]; [contradiction | ].
  replace (0 <? Z.of_nat (List.length (v :: values))) with true
    by (symmetry; apply Z.ltb_lt; simpl List.length; lia).
  rewrite inferType_loop_find; [reflexivity | ].
  intros t Ht. now apply knownTypes_test.
Qed.

Lemma inferType_cases values :
  inferType localeCompare values = defaultType localeCompare \/
  (In (inferType localeCompare values) (knownTypes localeCompare) /\
   allMatch values (inferType localeCompare values) = true).
Proof.
  destruct values as [|v values]; [now left | ].
  rewrite inferType_nonempty by discriminate.
  destruct (find _ _) as [t|] eqn:E; [right | now left].
  apply find_some in E. exact E.
Qed.

(** The patterns on the strings that the comments of the table give
    for and against each type (the minutes of "4:90" are refused, as
    the pattern of TIME has it). *)
Example patterns_on_documented_strings :
  map (fun '(i, s) =>
         RegExp.test
           (regExp (nth i (knownTypes localeCompare)
                      (defaultType localeCompare)))
           (str s))
    [ (0%nat, "2016-01-18T01:45:53Z"); (0%nat, "2016-01-18 15:10:20");
      (1%nat, "2016-01-18"); (1%nat, "20160118"); (1%nat, "2016-01-40");
      (1%nat, "2016-0118"); (1%nat, "201601-18");
      (2%nat, "-100"); (2%nat, "0"); (2%nat, "99"); (2%nat, "-");
      (2%nat, "9223372036854775808");
      (3%nat, "-1000000000000000000"); (3%nat, "0");
      (3%nat, "9223372036854775808"); (3%nat, "-");
      (4%nat, "-100.05"); (4%nat, "20"); (4%nat, "99.004"); (4%nat, ".");
      (5%nat, "23:54"); (5%nat, "01:45"); (5%nat, "4:90");
      (5%nat, "2016-0118"); (5%nat, "201601-18") ]%string
  = [ true; true;
      true; true; false; false; false;
      true; true; true; false; false;
      true; true; true; false;
      true; true; true; false;
      true; true; false; false; false ].
Proof. vm_compute. reflexivity. Qed.

(** The types that sort with [compareNumbers]: their patterns admit
    decimal literals only. *)
Lemma knownTypes_numeric t :
  In t (knownTypes localeCompare) ->
  In (id t) ["INTEGER"; "BIGINT"; "REAL"]%string ->
  compareFunction t = compareNumbers /\
  forall s, RegExp.test (regExp t) s = true -> Num.ToNumber s <> NaN.
Proof.
  intros H Hid. unfold knownTypes in H. cbn [map In] in H.
  destruct H as [<-|[<-|[<-|[<-|[<-|[<-|[]]]]]]]; cbn [id] in Hid;
    try (exfalso; destruct Hid as [Hid|[Hid|[Hid|[]]]]; discriminate Hid);
    (split; [reflexivity | ]);
    cbn [regExp]; intros s Hs; apply RegExpFacts.test_Matches in Hs.
  - apply LiteralFacts.signed_literal in Hs.
    + destruct Hs as (p & q & Hs). eapply LiteralFacts.literal_not_NaN, Hs.
    + intros w. apply LiteralFacts.Range_Unsigned. lia.
  - apply LiteralFacts.signed_literal in Hs.
    + destruct Hs as (p & q & Hs). eapply LiteralFacts.literal_not_NaN, Hs.
    + intros w. apply LiteralFacts.Range_Unsigned. lia.
  - apply LiteralFacts.signed_literal in Hs.
    + destruct Hs as (p & q & Hs). eapply LiteralFacts.literal_not_NaN, Hs.
    + apply LiteralFacts.REAL_Unsigned.
Qed.

(** A type of the table sorts with the collation or is one of the
    numeric types. *)
Lemma knownTypes_comparator t :
  In t (knownTypes localeCompare) ->
  compareFunction t = compareStrings localeCompare \/
  In (id t) ["INTEGER"; "BIGINT"; "REAL"]%string.
Proof.
  intros H. unfold knownTypes in H. cbn [map In] in H.
  destruct H as [<-|[<-|[<-|[<-|[<-|[<-|[]]]]]]]; cbn [id compareFunction];
    try (left; reflexivity); right; simpl; auto.
Qed.

Lemma compareNumbers_consistent :
  ConsistentOn compareNumbers (fun s => Num.ToNumber s <> NaN).
Proof.
  unfold compareNumbers. split.
  - intros a b _ _. rewrite !NumFacts.gt0_sub. apply NumFacts.ltb_asym.
  - intros a b c Ha Hb Hc. rewrite !NumFacts.gt0_sub.
    now apply NumFacts.leb_trans.
Qed.

Lemma filter_present_In v vs : In v (filter present vs) -> In v vs.
Proof. intros H. now apply filter_In in H. Qed.

(** The comparator of the inferred type puts the present values of a
    column in ascending order: always when the type is numeric, and
    otherwise provided the collation is consistent on the strings of
    the column. *)
Lemma inferred_sort_sorted vs :
  let type := inferType localeCompare (filter present vs) in
  In (id type) ["INTEGER"; "BIGINT"; "REAL"]%string \/
  ConsistentOn localeCompare (fun s => In (VString s) vs) ->
  StronglySorted (precedes (compareFunction type))
    (sort_list (compareFunction type) (filter present vs)).
Proof.
  intros type Hyp.
  assert (Hnum : forall t,
            In t (knownTypes localeCompare) ->
            allMatch (filter present vs) t = true ->
            In (id t) ["INTEGER"; "BIGINT"; "REAL"]%string ->
            StronglySorted (precedes (compareFunction t))
              (sort_list (compareFunction t) (filter present vs))).
  { intros t Hin Hall Hid.
    destruct (knownTypes_numeric Hin Hid) as [E Hlit]. rewrite E.
    apply sort_list_sorted with (P := fun s => Num.ToNumber s <> NaN);
      [apply compareNumbers_consistent | ].
    apply Forall_forall. intros [|s] Hv; simpl; [exact I | ].
    apply Hlit. unfold allMatch in Hall.
    rewrite forallb_forall in Hall. apply (Hall _ Hv). }
  assert (Hcoll : ConsistentOn localeCompare (fun s => In (VString s) vs) ->
            StronglySorted (precedes localeCompare)
              (sort_list localeCompare (filter present vs))).
  { intros Hlc.
    apply sort_list_sorted with (P := fun s => In (VString s) vs);
      [assumption | ].
    apply Forall_forall. intros [|s] Hv; simpl; [exact I | ].
    now apply filter_present_In. }
  destruct (inferType_cases (filter present vs)) as [E|[Hin Hall]];
    fold type in E || fold type in Hin, Hall.
  - destruct Hyp as [Hid|Hlc].
    + rewrite E in Hid. cbn [id defaultType] in Hid.
      destruct Hid as [Hid|[Hid|[Hid|[]]]]; discriminate Hid.
    + rewrite E. now apply Hcoll.
  - destruct Hyp as [Hid|Hlc]; [now apply Hnum | ].
    destruct (knownTypes_comparator Hin) as [E|Hid].
    + rewrite E. now apply Hcoll.
    + now apply Hnum.
Qed.

End InferFacts.

(** ** Auxiliary facts on lists, columns and the example collation *)

Lemma find_all_false (A : Type) (f : A -> bool) (l : list A) :
  (forall x, In x l -> f x = false) -> find f l = None.
Proof.
  induction l as [|x l IH]; intros H; simpl; [reflexivity | ].
  rewrite (H x) by (now left). apply IH. intros y Hy. apply H. now right.
Qed.

Lemma find_agree (A : Type) (f g : A -> bool) (l : list A) :
  (forall x, f x = g x) -> find f l = find g l.
Proof.
  intros H. induction l as [|x l IH]; simpl; [reflexivity | ].
  now rewrite H, IH.
Qed.

Lemma filter_present_strings vs :
  Forall (fun v => exists s, v = VString s) vs ->
  filter present vs = filter (fun v => negb (isEmpty v)) vs.
Proof.
  intros H. apply filter_ext_in. intros v Hv.
  rewrite Forall_forall in H. destruct (H v Hv) as [s ->]. reflexivity.
Qed.

Lemma allMatch_constant v vs t :
  Forall (eq v) vs -> allMatch (v :: vs) t = allMatch [v] t.
Proof.
  intros H. unfold allMatch. simpl. rewrite andb_true_r.
  destruct (RegExp.test (regExp t) (String_ v)) eqn:E; [ | reflexivity].
  simpl. apply forallb_forall. intros x Hx.
  rewrite Forall_forall in H. now rewrite <- (H x Hx).
Qed.

Lemma filter_present_all v vs :
  present v = true -> Forall (eq v) vs -> filter present vs = vs.
Proof.
  intros Hv H. induction H as [|x vs <- H IH]; simpl; [reflexivity | ].
  now rewrite Hv, IH.
Qed.

Lemma count_occ_filter (f : value -> bool) l v :
  count_occ value_eq_dec (filter f l) v
  = if f v then count_occ value_eq_dec l v else O.
Proof.
  induction l as [|x l IH]; simpl.
  - now destruct (f v).
  - destruct (f x) eqn:Ex; simpl;
      destruct (value_eq_dec x v) as [->|Hne]; rewrite IH;
      try rewrite Ex; reflexivity.
Qed.

Lemma sort_list_triple cmp x : sort_list cmp [x; x; x] = [x; x; x].
Proof.
  unfold sort_list. simpl.
  destruct (Num.gt0 (SortCompare cmp x x)) eqn:E; simpl; rewrite ?E;
    reflexivity.
Qed.

Lemma codeUnitCompare_asym a b :
  Num.gt0 (codeUnitCompare a b) = true ->
  Num.gt0 (codeUnitCompare b a) = false.
Proof.
  revert b. induction a as [|x a IH]; intros [|y b]; cbn [codeUnitCompare].
  - intros _. reflexivity.
  - rewrite NumFacts.gt0_minus_one. intros H. discriminate H.
  - intros _. apply NumFacts.gt0_minus_one.
  - rewrite (N.compare_antisym x y).
    destruct (x ?= y)%N; cbn [CompOpp].
    + apply IH.
    + rewrite NumFacts.gt0_minus_one. intros H. discriminate H.
    + intros _. apply NumFacts.gt0_minus_one.
Qed.

Lemma codeUnitCompare_trans a b c :
  Num.gt0 (codeUnitCompare a b) = false ->
  Num.gt0 (codeUnitCompare b c) = false ->
  Num.gt0 (codeUnitCompare a c) = false.
Proof.
  revert b c. induction a as [|x a IH]; intros [|y b] [|z c];
    cbn [codeUnitCompare]; intros H1 H2.
  - reflexivity.
  - apply NumFacts.gt0_minus_one.
  - reflexivity.
  - apply NumFacts.gt0_minus_one.
  - rewrite NumFacts.gt0_one in H1. discriminate H1.
  - rewrite NumFacts.gt0_one in H1. discriminate H1.
  - rewrite NumFacts.gt0_one in H2. discriminate H2.
  - destruct (x ?= y)%N eqn:Exy;
      [ | | rewrite NumFacts.gt0_one in H1; discriminate H1 ];
      (destruct (y ?= z)%N eqn:Eyz;
       [ | | rewrite NumFacts.gt0_one in H2; discriminate H2 ]).
    + apply N.compare_eq_iff in Exy, Eyz. subst y z.
      rewrite N.compare_refl. now apply IH with b.
    + apply N.compare_eq_iff in Exy. subst y. rewrite Eyz.
      apply NumFacts.gt0_minus_one.
    + apply N.compare_eq_iff in Eyz. subst z. rewrite Exy.
      apply NumFacts.gt0_minus_one.
    + apply N.compare_lt_iff in Exy. apply N.compare_lt_iff in Eyz.
      replace (x ?= z)%N with Lt
        by (symmetry; apply N.compare_lt_iff, N.lt_trans with y; assumption).
      apply NumFacts.gt0_minus_one.
Qed.

Lemma codeUnitCompare_consistent P : ConsistentOn codeUnitCompare P.
Proof.
  split.
  - intros a b _ _. apply codeUnitCompare_asym.
  - intros a b c _ _ _. apply codeUnitCompare_trans.
Qed.

(* ================================================================== *)
(** * Part III. The properties of the specification                        *)
(* ================================================================== *)

(** C1. On a non-empty sequence [inferType] goes through DATETIME, DATE,
    INTEGER, BIGINT, REAL, TIME in that order and returns the first type
    whose pattern matches every value, TEXT when there is none; a value
    that fails every pattern makes the result TEXT; on the empty
    sequence the result is TEXT although the first candidate would
    accept it, and so is the type name [synopsize] reports when no value
    is present. *)
Theorem inferType_cascade (localeCompare : jsstring -> jsstring -> Number) :
  map id (knownTypes localeCompare)
  = ["DATETIME"; "DATE"; "INTEGER"; "BIGINT"; "REAL"; "TIME"]%string /\
  (forall values, values <> [] ->
     inferType localeCompare values
     = match find (allMatch values) (knownTypes localeCompare) with
       | Some t => t
       | None => defaultType localeCompare
       end) /\
  (forall values v, In v values ->
     (forall t, In t (knownTypes localeCompare) ->
        RegExp.test (regExp t) (String_ v) = false) ->
     id (inferType localeCompare values) = "TEXT"%string) /\
  (inferType localeCompare [] = defaultType localeCompare /\
   id (defaultType localeCompare) = "TEXT"%string /\
   option_map id (find (allMatch []) (knownTypes localeCompare))
   = Some "DATETIME"%string) /\
  (forall h r vs, nth_error h r = Some vs -> filter present vs = [] ->
     exists cs h',
       synopsize localeCompare r h = Some (cs, h') /\
       typeName cs = "TEXT"%string).
Proof.
  split; [reflexivity | ].
  split; [apply inferType_nonempty | ].
  split; [ | split; [repeat split | ] ].
  - intros values v Hv Hfail.
    rewrite inferType_nonempty by (intros ->; contradiction).
    rewrite find_all_false; [reflexivity | ].
    intros t Ht. unfold allMatch.
    destruct (forallb _ values) eqn:E; [ | reflexivity].
    rewrite forallb_forall in E. rewrite <- (Hfail t Ht).
    symmetry. now apply E.
  - intros h r vs Hr Hnone.
    rewrite (synopsize_run localeCompare _ _ Hr). do 2 eexists.
    split; [reflexivity | ]. cbn [typeName]. rewrite Hnone. reflexivity.
Qed.

Lemma inferType_cascade_witness :
  id (inferType codeUnitCompare [VString (str "12"); VString (str "hello")])
  = "TEXT"%string.
Proof.
  apply (proj1 (proj2 (proj2 (inferType_cascade codeUnitCompare))))
    with (v := VString (str "hello")).
  - right. left. reflexivity.
  - intros t Ht. unfold knownTypes in Ht. cbn [map In] in Ht.
    destruct Ht as [<-|[<-|[<-|[<-|[<-|[<-|[]]]]]]]; vm_compute; reflexivity.
Defined.

(** C2 (the code departs from it). [isEmpty] takes [undefined] for
    missing, but [synopsize] hands it [String(value)]: the string
    "undefined" is not white space, so an [undefined] entry is kept.  On
    the column of an empty string, a blank string and [undefined], the
    non-empty values are [[undefined]] and the counts hold one entry;
    strings are excluded exactly when they are white space only. *)
Theorem synopsize_keeps_undefined
    (localeCompare : jsstring -> jsstring -> Number) :
  isEmpty VUndefined = true /\
  present VUndefined = true /\
  (forall s, present (VString s) = negb (RegExp.test (Star space) s)) /\
  synopsize localeCompare 0%nat
    [[VString (str EmptyString); VString (str "  "); VUndefined]]
  = Some ({| typeName := "TEXT";
             values := 0%nat;
             nonEmptyValues := 1%nat;
             minimum := VUndefined;
             maximum := VUndefined;
             counts := [(VUndefined, 1)] |},
          [[VString (str EmptyString); VString (str "  "); VUndefined];
           [VUndefined]]).
Proof. repeat split. Qed.

(** C3, as stated, fails: on the column "9", "10", "2" the array in
    [nonEmptyValues] reads "2", "9", "10", while the subsequence of the
    non-missing input values in their original order is "9", "10", "2". *)
Lemma nonEmptyValues_reordered :
  exists cs h',
    synopsize codeUnitCompare 0%nat (column ["9"; "10"; "2"]%string)
    = Some (cs, h') /\
    nth_error h' (nonEmptyValues cs)
    = Some (strings ["2"; "9"; "10"]%string) /\
    filter (fun v => negb (isEmpty v))
      (strings ["9"; "10"; "2"]%string)
    = strings ["9"; "10"; "2"]%string /\
    (if list_eq_dec value_eq_dec
          (strings ["2"; "9"; "10"]%string)
          (strings ["9"; "10"; "2"]%string)
     then true else false) = false.
Proof.
  do 2 eexists. split; [vm_compute; reflexivity | ].
  split; [reflexivity | ]. split; vm_compute; reflexivity.
Qed.

(** C3, amended. For a column of strings, [nonEmptyValues] is the
    subsequence of the values for which the emptiness predicate is false,
    sorted in place under the comparator of the inferred type: a
    permutation of that subsequence, not in general in its order. *)
Theorem nonEmptyValues_permutation
    (localeCompare : jsstring -> jsstring -> Number) h r vs :
  nth_error h r = Some vs ->
  Forall (fun v => exists s, v = VString s) vs ->
  exists cs h' arr,
    synopsize localeCompare r h = Some (cs, h') /\
    nth_error h' (nonEmptyValues cs) = Some arr /\
    arr = sort_list
            (compareFunction
               (inferType localeCompare
                  (filter (fun v => negb (isEmpty v)) vs)))
            (filter (fun v => negb (isEmpty v)) vs) /\
    Permutation arr (filter (fun v => negb (isEmpty v)) vs).
Proof.
  intros Hr Hs. rewrite (synopsize_run localeCompare _ _ Hr).
  rewrite (filter_present_strings Hs).
  do 3 eexists. split; [reflexivity | ]. cbn [nonEmptyValues].
  split; [apply nth_error_fresh | ]. split; [reflexivity | ].
  apply sort_list_perm.
Qed.

Lemma nonEmptyValues_permutation_witness :
  exists cs h' arr,
    synopsize codeUnitCompare 0%nat (column ["b"; " "; "a"]%string)
    = Some (cs, h') /\
    nth_error h' (nonEmptyValues cs) = Some arr /\
    arr = sort_list
            (compareFunction
               (inferType codeUnitCompare
                  (filter (fun v => negb (isEmpty v))
                     (strings ["b"; " "; "a"]%string))))
            (filter (fun v => negb (isEmpty v))
               (strings ["b"; " "; "a"]%string)) /\
    Permutation arr
      (filter (fun v => negb (isEmpty v))
         (strings ["b"; " "; "a"]%string)).
Proof.
  apply (@nonEmptyValues_permutation codeUnitCompare
           (column ["b"; " "; "a"]%string) 0%nat
           (strings ["b"; " "; "a"]%string)).
  - reflexivity.
  - repeat constructor; eexists; reflexivity.
Defined.

(** C4. [minimum] and [maximum] are the first and the last element of
    the non-empty values sorted under the comparator of the inferred
    type, the array that [nonEmptyValues] refers to; both are
    [undefined] when there is no non-empty value. *)
Theorem extrema_first_last
    (localeCompare : jsstring -> jsstring -> Number) h r vs :
  nth_error h r = Some vs ->
  exists cs h' sorted,
    synopsize localeCompare r h = Some (cs, h') /\
    sorted = sort_list
               (compareFunction
                  (inferType localeCompare (filter present vs)))
               (filter present vs) /\
    typeName cs = id (inferType localeCompare (filter present vs)) /\
    nth_error h' (nonEmptyValues cs) = Some sorted /\
    minimum cs = hd VUndefined sorted /\
    maximum cs = last sorted VUndefined /\
    (filter present vs = [] ->
     minimum cs = VUndefined /\ maximum cs = VUndefined).
Proof.
  intros Hr. rewrite (synopsize_run localeCompare _ _ Hr).
  do 3 eexists. split; [reflexivity | ].
  cbn [typeName nonEmptyValues minimum maximum].
  repeat (split; [reflexivity || apply nth_error_fresh | ]).
  intros ->. split; reflexivity.
Qed.

Lemma extrema_first_last_witness :
  exists cs h' sorted,
    synopsize codeUnitCompare 0%nat
      (column ["b"; "c"; EmptyString; "a"]%string)
    = Some (cs, h') /\
    sorted = strings ["a"; "b"; "c"]%string /\
    typeName cs = "TEXT"%string /\
    nth_error h' (nonEmptyValues cs) = Some sorted /\
    minimum cs = VString (str "a") /\
    maximum cs = VString (str "c").
Proof.
  destruct (@extrema_first_last codeUnitCompare
              (column ["b"; "c"; EmptyString; "a"]%string) 0%nat _ eq_refl)
    as (cs & h' & sorted & H1 & H2 & H3 & H4 & H5 & H6 & _).
  exists cs, h', sorted.
  assert (E : sorted = strings ["a"; "b"; "c"]%string)
    by (rewrite H2; vm_compute; reflexivity).
  split; [exact H1 | ]. split; [exact E | ].
  split; [rewrite H3; vm_compute; reflexivity | ].
  split; [exact H4 | ].
  split; [rewrite H5, E | rewrite H6, E]; reflexivity.
Defined.

(** C5, as stated, fails for BIGINT and REAL: [compareNumbers] compares
    the doubles nearest to the numbers, and distinct numbers can have
    the same double.  "9007199254740993" and "9007199254740992" denote
    different integers and compare equal; the column of the two, in
    that order, is BIGINT with the larger number as [minimum] and the
    smaller as [maximum].  The same holds of the REAL strings
    "0.30000000000000001" and "0.3". *)
Lemma numeric_order_ties_on_equal_doubles :
  Num.StrDecimalLiteral (str "9007199254740993")
  = Some (9007199254740993, 1) /\
  Num.StrDecimalLiteral (str "9007199254740992")
  = Some (9007199254740992, 1) /\
  (9007199254740992 <? 9007199254740993) = true /\
  compareNumbers (str "9007199254740993") (str "9007199254740992")
  = Finite 0 /\
  synopsize codeUnitCompare 0%nat
    (column ["9007199254740993"; "9007199254740992"]%string)
  = Some ({| typeName := "BIGINT";
             values := 0%nat;
             nonEmptyValues := 1%nat;
             minimum := VString (str "9007199254740993");
             maximum := VString (str "9007199254740992");
             counts := [(VString (str "9007199254740993"), 1);
                        (VString (str "9007199254740992"), 1)] |},
          [strings ["9007199254740993"; "9007199254740992"]%string;
           strings ["9007199254740993"; "9007199254740992"]%string]) /\
  Num.StrDecimalLiteral (str "0.30000000000000001")
  = Some (30000000000000001, 100000000000000000) /\
  Num.StrDecimalLiteral (str "0.3") = Some (3, 10) /\
  (3 * 100000000000000000 <? 30000000000000001 * 10) = true /\
  compareNumbers (str "0.30000000000000001") (str "0.3") = Finite 0 /\
  synopsize codeUnitCompare 0%nat
    (column ["0.30000000000000001"; "0.3"]%string)
  = Some ({| typeName := "REAL";
             values := 0%nat;
             nonEmptyValues := 1%nat;
             minimum := VString (str "0.30000000000000001");
             maximum := VString (str "0.3");
             counts := [(VString (str "0.30000000000000001"), 1);
                        (VString (str "0.3"), 1)] |},
          [strings ["0.30000000000000001"; "0.3"]%string;
           strings ["0.30000000000000001"; "0.3"]%string]).
Proof.
  do 9 (split; [vm_compute; reflexivity | ]).
  vm_compute. reflexivity.
Qed.

(** C5, amended. INTEGER, BIGINT and REAL sort with [compareNumbers],
    whose sign is the comparison of the doubles nearest to the numbers
    that the two strings denote.  On INTEGER strings (at most 10 digits)
    that is the comparison of the integers.  On the strings of all three
    types it never contradicts the numbers: a negative result means that
    the first number is smaller, a positive one that it is larger, and
    whole numbers below 2^53 in magnitude are compared exactly; but
    distinct numbers with the same double compare equal.  The
    column "9", "10", "2" is INTEGER with minimum "2" and maximum
    "10". *)
Theorem numeric_types_order_numerically
    (localeCompare : jsstring -> jsstring -> Number) :
  (forall t, In t (knownTypes localeCompare) ->
     In (id t) ["INTEGER"; "BIGINT"; "REAL"]%string ->
     compareFunction t = compareNumbers /\
     forall s, RegExp.test (regExp t) s = true -> Num.ToNumber s <> NaN) /\
  (forall a b,
     Num.lt0 (compareNumbers a b)
     = Num.ltb (Num.ToNumber a) (Num.ToNumber b) /\
     Num.gt0 (compareNumbers a b)
     = Num.ltb (Num.ToNumber b) (Num.ToNumber a)) /\
  (forall t a b, In t (knownTypes localeCompare) ->
     id t = "INTEGER"%string ->
     RegExp.test (regExp t) a = true -> RegExp.test (regExp t) b = true ->
     exists m n,
       Num.StrDecimalLiteral a = Some (m, 1) /\
       Num.StrDecimalLiteral b = Some (n, 1) /\
       Num.lt0 (compareFunction t a b) = (m <? n) /\
       Num.gt0 (compareFunction t a b) = (n <? m)) /\
  (forall t a b, In t (knownTypes localeCompare) ->
     In (id t) ["INTEGER"; "BIGINT"; "REAL"]%string ->
     RegExp.test (regExp t) a = true -> RegExp.test (regExp t) b = true ->
     exists m dm n dn,
       Num.StrDecimalLiteral a = Some (m, dm) /\
       Num.StrDecimalLiteral b = Some (n, dn) /\
       0 < dm /\ 0 < dn /\
       (Num.lt0 (compareFunction t a b) = true -> m * dn < n * dm) /\
       (Num.gt0 (compareFunction t a b) = true -> n * dm < m * dn) /\
       (dm = 1 -> dn = 1 -> Z.abs m < 2 ^ 53 -> Z.abs n < 2 ^ 53 ->
        Num.lt0 (compareFunction t a b) = (m <? n) /\
        Num.gt0 (compareFunction t a b) = (n <? m))) /\
  synopsize localeCompare 0%nat (column ["9"; "10"; "2"]%string)
  = Some ({| typeName := "INTEGER";
             values := 0%nat;
             nonEmptyValues := 1%nat;
             minimum := VString (str "2");
             maximum := VString (str "10");
             counts := [(VString (str "2"), 1); (VString (str "9"), 1);
                        (VString (str "10"), 1)] |},
          [strings ["9"; "10"; "2"]%string;
           strings ["2"; "9"; "10"]%string]).
Proof.
  split; [ | split; [ | split; [ | split ] ] ].
  - intros t Ht Hid. exact (knownTypes_numeric Ht Hid).
  - intros a b. unfold compareNumbers.
    now rewrite NumFacts.lt0_sub, NumFacts.gt0_sub.
  - intros t a b Ht Hid Ha Hb.
    unfold knownTypes in Ht. cbn [map In] in Ht.
    destruct Ht as [<-|[<-|[<-|[<-|[<-|[<-|[]]]]]]];
      cbn [id] in Hid; try discriminate Hid.
    cbn [regExp] in Ha, Hb. cbn [compareFunction]. unfold compareNumbers.
    apply RegExpFacts.test_Matches in Ha, Hb.
    now apply LiteralFacts.integer_order.
  - intros t a b Ht Hid Ha Hb.
    destruct (knownTypes_numeric Ht Hid) as [Hc Hnum].
    pose proof (Hnum a Ha) as Na. pose proof (Hnum b Hb) as Nb.
    unfold Num.ToNumber in Na, Nb.
    destruct (Num.StrDecimalLiteral a) as [[m dm]|] eqn:Ea;
      [ | now contradiction Na].
    destruct (Num.StrDecimalLiteral b) as [[n dn]|] eqn:Eb;
      [ | now contradiction Nb].
    exists m, dm, n, dn. rewrite Hc.
    split; [reflexivity | ]. split; [reflexivity | ].
    split; [exact (@RoundingFacts.literal_denominator a m dm Ea) | ].
    split; [exact (@RoundingFacts.literal_denominator b n dn Eb) | ].
    destruct (@RoundingFacts.compareNumbers_sound a b m dm n dn Ea Eb)
      as [Hlt Hgt].
    split; [exact Hlt | ]. split; [exact Hgt | ].
    intros -> -> Hm Hn.
    exact (@RoundingFacts.compareNumbers_exact a b m n Ea Eb Hm Hn).
  - vm_compute. reflexivity.
Qed.

Lemma numeric_types_order_numerically_witness :
  exists m n,
    Num.StrDecimalLiteral (str "9") = Some (m, 1) /\
    Num.StrDecimalLiteral (str "10") = Some (n, 1) /\
    Num.lt0
      (compareFunction
         (nth 2 (knownTypes codeUnitCompare) (defaultType codeUnitCompare))
         (str "9") (str "10"))
    = (m <? n) /\
    Num.gt0
      (compareFunction
         (nth 2 (knownTypes codeUnitCompare) (defaultType codeUnitCompare))
         (str "9") (str "10"))
    = (n <? m).
Proof.
  apply (proj1 (proj2 (proj2 (numeric_types_order_numerically codeUnitCompare)))
           (nth 2 (knownTypes codeUnitCompare) (defaultType codeUnitCompare))
           (str "9") (str "10")).
  - right. right. left. reflexivity.
  - reflexivity.
  - reflexivity.
  - reflexivity.
Defined.

(** C6. A column with at least one value whose values are all
    "20160118" has type DATE, although the pattern of INTEGER matches
    each of them too: DATE stands before INTEGER in the table. *)
Theorem date_before_integer
    (localeCompare : jsstring -> jsstring -> Number) h r vs :
  nth_error h r = Some vs ->
  vs <> [] ->
  Forall (eq (VString (str "20160118"))) vs ->
  (exists cs h',
     synopsize localeCompare r h = Some (cs, h') /\
     typeName cs = "DATE"%string) /\
  (exists t,
     In t (knownTypes localeCompare) /\ id t = "INTEGER"%string /\
     allMatch vs t = true).
Proof.
  intros Hr Hne Hall.
  destruct vs as [|v vs]; [contradiction | ].
  inversion Hall as [|? ? <- Hall']; subst.
  split.
  - rewrite (synopsize_run localeCompare _ _ Hr). do 2 eexists.
    split; [reflexivity | ]. cbn [typeName].
    rewrite (@filter_present_all (VString (str "20160118"))) by auto.
    rewrite inferType_nonempty by discriminate.
    rewrite (find_agree _ (allMatch [VString (str "20160118")]))
      by (intros t; now apply allMatch_constant).
    reflexivity.
  - exists (nth 2 (knownTypes localeCompare) (defaultType localeCompare)).
    split; [right; right; left; reflexivity | ].
    split; [reflexivity | ].
    rewrite allMatch_constant by assumption. reflexivity.
Qed.

Lemma date_before_integer_witness :
  (exists cs h',
     synopsize codeUnitCompare 0%nat (column ["20160118"; "20160118"]%string)
     = Some (cs, h') /\
     typeName cs = "DATE"%string) /\
  (exists t,
     In t (knownTypes codeUnitCompare) /\ id t = "INTEGER"%string /\
     allMatch (strings ["20160118"; "20160118"]%string) t
     = true).
Proof.
  apply (@date_before_integer codeUnitCompare
           (column ["20160118"; "20160118"]%string) 0%nat).
  - reflexivity.
  - discriminate.
  - repeat constructor.
Defined.

(** C7. [counts] gives every value its number of occurrences among the
    non-empty values, has no entry for a value that does not occur
    there and one entry per distinct value; a value that is not missing
    occurs there as often as in the column; and the counts add up to
    the length of [nonEmptyValues]. *)
Theorem counts_tabulate
    (localeCompare : jsstring -> jsstring -> Number) h r vs cs h' :
  nth_error h r = Some vs ->
  synopsize localeCompare r h = Some (cs, h') ->
  exists arr,
    nth_error h' (nonEmptyValues cs) = Some arr /\
    (forall v,
       Map_get (counts cs) v
       = match count_occ value_eq_dec arr v with
         | O => None
         | S _ as n => Some (Z.of_nat n)
         end) /\
    (forall v, isEmpty v = false ->
       count_occ value_eq_dec arr v = count_occ value_eq_dec vs v) /\
    NoDup (Map_keys (counts cs)) /\
    Map_total (counts cs) = Z.of_nat (List.length arr).
Proof.
  intros Hr Hrun. rewrite (synopsize_run localeCompare _ _ Hr) in Hrun.
  injection Hrun as <- <-. cbn [nonEmptyValues counts].
  eexists. split; [apply nth_error_fresh | ].
  split; [apply count_get | ].
  split; [ | split; [apply count_keys | apply count_total] ].
  intros v Hv.
  rewrite (proj1 (Permutation_count_occ value_eq_dec _ _)
             (sort_list_perm _ _) v).
  rewrite count_occ_filter.
  destruct v as [|s]; [discriminate | ].
  unfold present. cbn [String_]. now rewrite Hv.
Qed.

Lemma counts_tabulate_witness :
  exists arr,
    nth_error [strings ["x"; EmptyString; "y"; "x"]%string;
               strings ["x"; "x"; "y"]%string] 1%nat
    = Some arr /\
    (forall v,
       Map_get [(VString (str "x"), 2); (VString (str "y"), 1)] v
       = match count_occ value_eq_dec arr v with
         | O => None
         | S _ as n => Some (Z.of_nat n)
         end) /\
    (forall v, isEmpty v = false ->
       count_occ value_eq_dec arr v
       = count_occ value_eq_dec
           (strings ["x"; EmptyString; "y"; "x"]%string) v) /\
    NoDup (Map_keys [(VString (str "x"), 2); (VString (str "y"), 1)]) /\
    Map_total [(VString (str "x"), 2); (VString (str "y"), 1)]
    = Z.of_nat (List.length arr).
Proof.
  apply (@counts_tabulate codeUnitCompare
           (column ["x"; EmptyString; "y"; "x"]%string) 0%nat
           (strings ["x"; EmptyString; "y"; "x"]%string)
           {| typeName := "TEXT";
              values := 0%nat;
              nonEmptyValues := 1%nat;
              minimum := VString (str "x");
              maximum := VString (str "y");
              counts := [(VString (str "x"), 2); (VString (str "y"), 1)] |}
           [strings ["x"; EmptyString; "y"; "x"]%string;
            strings ["x"; "x"; "y"]%string]).
  - reflexivity.
  - vm_compute. reflexivity.
Defined.

(** C8. [synopsize] yields a result on every column of the store,
    whatever it holds: on the empty column and on a column of missing
    values only the type is TEXT, the extrema are [undefined] and the
    counts are empty; on "a", "a", "a" the type is TEXT, both extrema
    are "a" and the counts are the single entry "a": 3. *)
Theorem synopsize_total (localeCompare : jsstring -> jsstring -> Number) :
  (forall h r vs, nth_error h r = Some vs ->
     exists cs h', synopsize localeCompare r h = Some (cs, h')) /\
  synopsize localeCompare 0%nat [[]]
  = Some ({| typeName := "TEXT";
             values := 0%nat;
             nonEmptyValues := 1%nat;
             minimum := VUndefined;
             maximum := VUndefined;
             counts := [] |},
          [[]; []]) /\
  synopsize localeCompare 0%nat (column [EmptyString; "  "]%string)
  = Some ({| typeName := "TEXT";
             values := 0%nat;
             nonEmptyValues := 1%nat;
             minimum := VUndefined;
             maximum := VUndefined;
             counts := [] |},
          [strings [EmptyString; "  "]%string; []]) /\
  synopsize localeCompare 0%nat (column ["a"; "a"; "a"]%string)
  = Some ({| typeName := "TEXT";
             values := 0%nat;
             nonEmptyValues := 1%nat;
             minimum := VString (str "a");
             maximum := VString (str "a");
             counts := [(VString (str "a"), 3)] |},
          [strings ["a"; "a"; "a"]%string;
           strings ["a"; "a"; "a"]%string]).
Proof.
  split.
  { intros h r vs Hr. rewrite (synopsize_run localeCompare _ _ Hr). eauto. }
  split; [reflexivity | ]. split; [reflexivity | ].
  rewrite (synopsize_run localeCompare (column ["a"; "a"; "a"]%string) 0
             eq_refl).
  change (filter present (strings ["a"; "a"; "a"]%string))
    with [VString (str "a"); VString (str "a"); VString (str "a")].
  rewrite sort_list_triple. reflexivity.
Qed.

Lemma synopsize_total_witness :
  exists cs h',
    synopsize codeUnitCompare 1%nat
      [[VUndefined]; strings ["7"; "x"]%string]
    = Some (cs, h').
Proof.
  apply (proj1 (synopsize_total codeUnitCompare)
           [[VUndefined]; strings ["7"; "x"]%string]
           1%nat (strings ["7"; "x"]%string)).
  reflexivity.
Defined.

(** C9. The [values] field is the reference to the input array, and
    that array is the same after the call as before, like every array
    the store held: [filter] allocates the array that is then sorted. *)
Theorem input_unchanged
    (localeCompare : jsstring -> jsstring -> Number) h r vs cs h' :
  nth_error h r = Some vs ->
  synopsize localeCompare r h = Some (cs, h') ->
  values cs = r /\
  nth_error h' (values cs) = Some vs /\
  nonEmptyValues cs <> values cs /\
  (forall r' a, nth_error h r' = Some a -> nth_error h' r' = Some a).
Proof.
  intros Hr Hrun. rewrite (synopsize_run localeCompare _ _ Hr) in Hrun.
  injection Hrun as <- <-. cbn [values nonEmptyValues].
  split; [reflexivity | ].
  split; [now apply nth_error_old | ].
  split; [ | intros r' a; apply nth_error_old ].
  assert (r < List.length h)%nat by (apply nth_error_Some; congruence).
  lia.
Qed.

Lemma input_unchanged_witness :
  values
    {| typeName := "INTEGER";
       values := 0%nat;
       nonEmptyValues := 1%nat;
       minimum := VString (str "2");
       maximum := VString (str "10");
       counts := [(VString (str "2"), 1); (VString (str "10"), 1)] |}
  = 0%nat /\
  nth_error
    [strings ["10"; " "; "2"]%string;
     strings ["2"; "10"]%string] 0%nat
  = Some (strings ["10"; " "; "2"]%string).
Proof.
  destruct (@input_unchanged codeUnitCompare
              (column ["10"; " "; "2"]%string) 0%nat
              (strings ["10"; " "; "2"]%string)
              {| typeName := "INTEGER";
                 values := 0%nat;
                 nonEmptyValues := 1%nat;
                 minimum := VString (str "2");
                 maximum := VString (str "10");
                 counts := [(VString (str "2"), 1); (VString (str "10"), 1)] |}
              [strings ["10"; " "; "2"]%string;
               strings ["2"; "10"]%string])
    as (H1 & H2 & _).
  - reflexivity.
  - vm_compute. reflexivity.
  - split; [exact H1 | exact H2].
Defined.

(** C10. The array [nonEmptyValues] refers to is in ascending order
    under the comparator of the inferred type, and the extrema are its
    first and last element: [sort] rearranges the filtered array itself.
    For INTEGER, BIGINT and REAL this holds as it stands; for the types
    that sort with [localeCompare], the collation of the host is taken
    to be consistent on the strings of the column, which is what [sort]
    asks of a comparator. *)
Theorem nonEmptyValues_sorted
    (localeCompare : jsstring -> jsstring -> Number) h r vs cs h' :
  nth_error h r = Some vs ->
  synopsize localeCompare r h = Some (cs, h') ->
  In (typeName cs) ["INTEGER"; "BIGINT"; "REAL"]%string \/
  ConsistentOn localeCompare (fun s => In (VString s) vs) ->
  exists type arr,
    type = inferType localeCompare (filter present vs) /\
    typeName cs = id type /\
    nth_error h' (nonEmptyValues cs) = Some arr /\
    Permutation arr (filter present vs) /\
    StronglySorted (precedes (compareFunction type)) arr /\
    minimum cs = hd VUndefined arr /\
    maximum cs = last arr VUndefined.
Proof.
  intros Hr Hrun Hyp. rewrite (synopsize_run localeCompare _ _ Hr) in Hrun.
  injection Hrun as <- <-.
  cbn [typeName nonEmptyValues minimum maximum] in *.
  do 2 eexists. split; [reflexivity | ]. split; [reflexivity | ].
  split; [apply nth_error_fresh | ].
  split; [apply sort_list_perm | ].
  split; [now apply inferred_sort_sorted | ].
  split; reflexivity.
Qed.

Lemma nonEmptyValues_sorted_witness :
  exists type arr,
    type = inferType codeUnitCompare
             (filter present
                (strings ["b"; " "; "a"; "c"]%string)) /\
    typeName
      {| typeName := "TEXT";
         values := 0%nat;
         nonEmptyValues := 1%nat;
         minimum := VString (str "a");
         maximum := VString (str "c");
         counts := [(VString (str "a"), 1); (VString (str "b"), 1);
                    (VString (str "c"), 1)] |}
    = id type /\
    nth_error
      [strings ["b"; " "; "a"; "c"]%string;
       strings ["a"; "b"; "c"]%string] 1%nat
    = Some arr /\
    Permutation arr
      (filter present
         (strings ["b"; " "; "a"; "c"]%string)) /\
    StronglySorted (precedes (compareFunction type)) arr /\
    VString (str "a") = hd VUndefined arr /\
    VString (str "c") = last arr VUndefined.
Proof.
  apply (@nonEmptyValues_sorted codeUnitCompare
           (column ["b"; " "; "a"; "c"]%string) 0%nat
           (strings ["b"; " "; "a"; "c"]%string)
           {| typeName := "TEXT";
              values := 0%nat;
              nonEmptyValues := 1%nat;
              minimum := VString (str "a");
              maximum := VString (str "c");
              counts := [(VString (str "a"), 1); (VString (str "b"), 1);
                         (VString (str "c"), 1)] |}
           [strings ["b"; " "; "a"; "c"]%string;
            strings ["a"; "b"; "c"]%string]).
  - reflexivity.
  - vm_compute. reflexivity.
  - right. apply codeUnitCompare_consistent.
Defined.

(* ================================================================== *)
(** * Part IV. Further properties of the code                          *)
(* ================================================================== *)

(** ** Auxiliary facts *)

Lemma knownTypes_not_TEXT
    (localeCompare : jsstring -> jsstring -> Number) t :
  In t (knownTypes localeCompare) ->
  In (id t) ["DATETIME"; "DATE"; "INTEGER"; "BIGINT"; "REAL"; "TIME"]%string /\
  id t <> "TEXT"%string.
Proof.
  intros H. unfold knownTypes in H. cbn [map In] in H.
  destruct H as [<-|[<-|[<-|[<-|[<-|[<-|[]]]]]]]; cbn [id];
    (split; [simpl; tauto | discriminate]).
Qed.

Lemma sort_list_In cmp l v : In v (sort_list cmp l) <-> In v l.
Proof.
  split; apply Permutation_in;
    [apply sort_list_perm | apply Permutation_sym, sort_list_perm].
Qed.

(** The comparator of the inferred type is consistent on the present
    values of the column, under the condition of [inferred_sort_sorted]. *)
Lemma inferred_comparator_consistent
    (localeCompare : jsstring -> jsstring -> Number) vs :
  let type := inferType localeCompare (filter present vs) in
  In (id type) ["INTEGER"; "BIGINT"; "REAL"]%string \/
  ConsistentOn localeCompare (fun s => In (VString s) vs) ->
  exists P,
    ConsistentOn (compareFunction type) P /\
    Forall (inDomain P) (filter present vs).
Proof.
  intros type Hyp.
  assert (Hcoll : ConsistentOn localeCompare (fun s => In (VString s) vs) ->
            exists P, ConsistentOn localeCompare P /\
                      Forall (inDomain P) (filter present vs)).
  { intros Hlc. exists (fun s => In (VString s) vs). split; [assumption | ].
    apply Forall_forall. intros [|s] Hv; simpl; [exact I | ].
    now apply filter_present_In. }
  assert (Hnum : forall t,
            In t (knownTypes localeCompare) ->
            allMatch (filter present vs) t = true ->
            In (id t) ["INTEGER"; "BIGINT"; "REAL"]%string ->
            exists P, ConsistentOn (compareFunction t) P /\
                      Forall (inDomain P) (filter present vs)).
  { intros t Hin Hall Hid.
    destruct (knownTypes_numeric Hin Hid) as [E Hlit]. rewrite E.
    exists (fun s => Num.ToNumber s <> NaN).
    split; [apply compareNumbers_consistent | ].
    apply Forall_forall. intros [|s] Hv; simpl; [exact I | ].
    apply Hlit. unfold allMatch in Hall.
    rewrite forallb_forall in Hall. apply (Hall _ Hv). }
  destruct (inferType_cases localeCompare (filter present vs))
    as [E|[Hin Hall]]; fold type in E || fold type in Hin, Hall.
  - destruct Hyp as [Hid|Hlc].
    + rewrite E in Hid. cbn [id defaultType] in Hid.
      destruct Hid as [Hid|[Hid|[Hid|[]]]]; discriminate Hid.
    + rewrite E. now apply Hcoll.
  - destruct Hyp as [Hid|Hlc]; [now apply Hnum | ].
    destruct (knownTypes_comparator Hin) as [E|Hid].
    + rewrite E. now apply Hcoll.
    + now apply Hnum.
Qed.

Lemma precedes_refl cmp P v :
  ConsistentOn cmp P -> inDomain P v -> precedes cmp v v.
Proof.
  intros [Hasym _] Hv. unfold precedes. rewrite gt0_SortCompare.
  destruct v as [|a]; [reflexivity | ].
  destruct (Num.gt0 (cmp a a)) eqn:E; [ | reflexivity].
  rewrite <- E. now apply Hasym.
Qed.

Lemma StronglySorted_hd (R : value -> value -> Prop) l v :
  StronglySorted R l -> In v l ->
  v = hd VUndefined l \/ R (hd VUndefined l) v.
Proof.
  intros Hs Hv. destruct l as [|x l]; [contradiction | ].
  apply StronglySorted_inv in Hs. destruct Hs as [_ Hall].
  destruct Hv as [->|Hv]; [now left | right].
  rewrite Forall_forall in Hall. now apply Hall.
Qed.

Lemma StronglySorted_last (R : value -> value -> Prop) l v :
  StronglySorted R l -> In v l ->
  v = last l VUndefined \/ R v (last l VUndefined).
Proof.
  intros Hs. revert v. induction Hs as [|x l Hs IH Hall]; intros v Hv.
  - contradiction.
  - destruct l as [|y l]; [destruct Hv as [->|[]]; now left | ].
    change (last (x :: y :: l) VUndefined) with (last (y :: l) VUndefined).
    destruct Hv as [->|Hv]; [right | now apply IH].
    rewrite Forall_forall in Hall. apply Hall.
    clear. revert y. induction l as [|z l IHl]; intros y; [now left | ].
    right. apply IHl.
Qed.

Lemma hd_In (l : list value) : l <> [] -> In (hd VUndefined l) l.
Proof. destruct l; [contradiction | intros _; now left]. Qed.

Lemma last_In (l : list value) : l <> [] -> In (last l VUndefined) l.
Proof.
  induction l as [|x l IH]; [contradiction | intros _].
  destruct l as [|y l]; [now left | ].
  right. apply IH. discriminate.
Qed.

Lemma forallb_false_exists (A : Type) (f : A -> bool) (l : list A) :
  forallb f l = false -> exists x, In x l /\ f x = false.
Proof.
  induction l as [|x l IH]; simpl; [discriminate | ].
  destruct (f x) eqn:E; simpl; intros H.
  - destruct (IH H) as (y & Hy & Hf). exists y. auto.
  - exists x. auto.
Qed.

Lemma forallb_filter_same (A : Type) (f : A -> bool) (l : list A) :
  forallb f l = true -> filter f l = l.
Proof.
  induction l as [|x l IH]; simpl; [reflexivity | ].
  destruct (f x); simpl; [intros H; now rewrite IH | discriminate].
Qed.

Lemma allMatch_same_elements vs vs' t :
  (forall v, In v vs <-> In v vs') -> allMatch vs t = allMatch vs' t.
Proof.
  intros H. unfold allMatch.
  destruct (forallb _ vs') eqn:E'.
  - apply forallb_forall. intros v Hv.
    rewrite forallb_forall in E'. apply E'. now apply H.
  - apply forallb_false_exists in E'. destruct E' as (v & Hv & Hf).
    destruct (forallb _ vs) eqn:E; [ | reflexivity].
    rewrite forallb_forall in E. rewrite <- Hf. symmetry. apply E.
    now apply H.
Qed.

(** What [inferType] returns: the default type, when there are no values
    or no type of the table accepts them all; otherwise a type of the
    table that accepts them all. *)
Lemma inferType_spec (localeCompare : jsstring -> jsstring -> Number) ne :
  (inferType localeCompare ne = defaultType localeCompare /\
   (ne = [] \/
    forall t, In t (knownTypes localeCompare) -> allMatch ne t = false)) \/
  (ne <> [] /\
   In (inferType localeCompare ne) (knownTypes localeCompare) /\
   allMatch ne (inferType localeCompare ne) = true).
Proof.
  destruct ne as [|v ne]; [left; split; [reflexivity | now left] | ].
  rewrite inferType_nonempty by discriminate.
  destruct (find _ _) as [t|] eqn:E.
  - right. apply find_some in E. split; [discriminate | exact E].
  - left. split; [reflexivity | right].
    intros t Ht. apply (find_none _ _ E t Ht).
Qed.

(** X1. The values that [synopsize] leaves out of [nonEmptyValues] are
    those whose string form is white space only: the two lengths differ
    by their number, every value kept has a string form that is not
    blank, and [nonEmptyValues] is shorter than [values] exactly when
    the column holds such a value. *)
Theorem missing_values_accounted
    (localeCompare : jsstring -> jsstring -> Number) h r vs :
  nth_error h r = Some vs ->
  exists cs h' arr,
    synopsize localeCompare r h = Some (cs, h') /\
    nth_error h' (nonEmptyValues cs) = Some arr /\
    (List.length arr
     + List.length (filter (fun v => isEmpty (VString (String_ v))) vs)
     = List.length vs)%nat /\
    Forall (fun v => isEmpty (VString (String_ v)) = false) arr /\
    ((List.length arr < List.length vs)%nat <->
     exists v, In v vs /\ isEmpty (VString (String_ v)) = true).
Proof.
  intros Hr. rewrite (synopsize_run localeCompare _ _ Hr).
  do 3 eexists. split; [reflexivity | ]. cbn [nonEmptyValues].
  split; [apply nth_error_fresh | ].
  set (cmp := compareFunction _).
  assert (Hlen : List.length (sort_list cmp (filter present vs))
                 = List.length (filter present vs))
    by apply Permutation_length, sort_list_perm.
  assert (Hsum : (List.length (filter present vs)
                  + List.length
                      (filter (fun v => isEmpty (VString (String_ v))) vs)
                  = List.length vs)%nat).
  { rewrite <- (filter_length present vs). f_equal.
    f_equal. apply filter_ext. intros v. unfold present.
    now rewrite negb_involutive. }
  rewrite Hlen. split; [exact Hsum | ]. split.
  - apply Forall_forall. intros v Hv. apply sort_list_In in Hv.
    apply filter_In in Hv. destruct Hv as [_ Hv].
    unfold present in Hv. now apply negb_true_iff in Hv.
  - split.
    + intros Hlt.
      destruct (forallb present vs) eqn:E.
      * rewrite (forallb_filter_same _ _ E) in Hlt. lia.
      * apply forallb_false_exists in E. destruct E as (v & Hv & Hf).
        exists v. split; [assumption | ].
        unfold present in Hf. now apply negb_false_iff in Hf.
    + intros (v & Hv & He).
      assert (Hin : In v (filter (fun v => isEmpty (VString (String_ v))) vs))
        by (apply filter_In; auto).
      destruct (filter (fun v => isEmpty (VString (String_ v))) vs);
        [contradiction | simpl in Hsum; lia].
Qed.

Lemma missing_values_accounted_witness :
  exists cs h' arr,
    synopsize codeUnitCompare 0%nat (column ["b"; "  "; "a"; EmptyString]%string)
    = Some (cs, h') /\
    nth_error h' (nonEmptyValues cs) = Some arr /\
    (List.length arr
     + List.length
         (filter (fun v => isEmpty (VString (String_ v)))
            (strings ["b"; "  "; "a"; EmptyString]%string))
     = List.length (strings ["b"; "  "; "a"; EmptyString]%string))%nat /\
    Forall (fun v => isEmpty (VString (String_ v)) = false) arr /\
    ((List.length arr
      < List.length (strings ["b"; "  "; "a"; EmptyString]%string))%nat <->
     exists v,
       In v (strings ["b"; "  "; "a"; EmptyString]%string) /\
       isEmpty (VString (String_ v)) = true).
Proof.
  apply (@missing_values_accounted codeUnitCompare
           (column ["b"; "  "; "a"; EmptyString]%string) 0%nat).
  reflexivity.
Defined.

(** X2. The type [synopsize] names holds the values it kept: the name
    is one of the seven; when it is not TEXT there is a value, the type
    is in the table and its pattern matches the string form of every
    non-empty value; when it is TEXT there is no value, or every type
    of the table has a value its pattern refuses. *)
Theorem inferred_type_holds_values
    (localeCompare : jsstring -> jsstring -> Number) h r vs :
  nth_error h r = Some vs ->
  exists cs h' arr type,
    synopsize localeCompare r h = Some (cs, h') /\
    nth_error h' (nonEmptyValues cs) = Some arr /\
    type = inferType localeCompare (filter present vs) /\
    typeName cs = id type /\
    In (typeName cs)
      ["DATETIME"; "DATE"; "INTEGER"; "BIGINT"; "REAL"; "TIME";
       "TEXT"]%string /\
    (typeName cs <> "TEXT"%string ->
     arr <> [] /\ In type (knownTypes localeCompare) /\
     Forall (fun v => RegExp.test (regExp type) (String_ v) = true) arr) /\
    (typeName cs = "TEXT"%string ->
     arr = [] \/
     forall t, In t (knownTypes localeCompare) ->
       exists v, In v arr /\ RegExp.test (regExp t) (String_ v) = false).
Proof.
  intros Hr. rewrite (synopsize_run localeCompare _ _ Hr).
  do 4 eexists. split; [reflexivity | ]. cbn [nonEmptyValues typeName].
  split; [apply nth_error_fresh | ]. split; [reflexivity | ].
  split; [reflexivity | ].
  set (ne := filter present vs). set (type := inferType localeCompare ne).
  destruct (inferType_spec localeCompare ne) as [[E Hcase]|(Hne & Hin & Hall)];
    fold type in E || fold type in Hin, Hall.
  - rewrite E. cbn [id defaultType].
    split; [simpl; tauto | ]. split; [intros H; now contradiction H | ].
    intros _. destruct Hcase as [->|Hnone]; [now left | right].
    intros t Ht. specialize (Hnone t Ht). unfold allMatch in Hnone.
    apply forallb_false_exists in Hnone. destruct Hnone as (v & Hv & Hf).
    exists v. split; [now apply sort_list_In | exact Hf].
  - destruct (knownTypes_not_TEXT Hin) as [Hid Hnot].
    split; [simpl in Hid |- *; tauto | ]. split; [ | intros H; contradiction].
    intros _. split.
    + intros Hnil.
      apply Hne. apply length_zero_iff_nil.
      rewrite <- (Permutation_length
                    (sort_list_perm (compareFunction type) ne)), Hnil.
      reflexivity.
    + split; [assumption | ].
      apply Forall_forall. intros v Hv. apply sort_list_In in Hv.
      unfold allMatch in Hall. rewrite forallb_forall in Hall. now apply Hall.
Qed.

Lemma inferred_type_holds_values_witness :
  exists cs h' arr type,
    synopsize codeUnitCompare 0%nat (column ["12:30"; " "; "7:05"]%string)
    = Some (cs, h') /\
    nth_error h' (nonEmptyValues cs) = Some arr /\
    type = inferType codeUnitCompare
             (filter present (strings ["12:30"; " "; "7:05"]%string)) /\
    typeName cs = id type /\
    In (typeName cs)
      ["DATETIME"; "DATE"; "INTEGER"; "BIGINT"; "REAL"; "TIME";
       "TEXT"]%string /\
    (typeName cs <> "TEXT"%string ->
     arr <> [] /\ In type (knownTypes codeUnitCompare) /\
     Forall (fun v => RegExp.test (regExp type) (String_ v) = true) arr) /\
    (typeName cs = "TEXT"%string ->
     arr = [] \/
     forall t, In t (knownTypes codeUnitCompare) ->
       exists v, In v arr /\ RegExp.test (regExp t) (String_ v) = false).
Proof.
  apply (@inferred_type_holds_values codeUnitCompare
           (column ["12:30"; " "; "7:05"]%string) 0%nat).
  reflexivity.
Defined.

(** X3. Under the comparator of the inferred type, [minimum] stands
    before every non-empty value and every non-empty value stands
    before [maximum]; when there is a non-empty value, both extrema are
    values of the column.  (For the types that sort with
    [localeCompare], on a collation that is consistent on the strings of
    the column.) *)
Theorem extrema_bound_values
    (localeCompare : jsstring -> jsstring -> Number) h r vs :
  nth_error h r = Some vs ->
  In (id (inferType localeCompare (filter present vs)))
    ["INTEGER"; "BIGINT"; "REAL"]%string \/
  ConsistentOn localeCompare (fun s => In (VString s) vs) ->
  exists cs h' arr,
    synopsize localeCompare r h = Some (cs, h') /\
    nth_error h' (nonEmptyValues cs) = Some arr /\
    (arr <> [] -> In (minimum cs) vs /\ In (maximum cs) vs) /\
    Forall
      (fun v =>
         precedes
           (compareFunction (inferType localeCompare (filter present vs)))
           (minimum cs) v /\
         precedes
           (compareFunction (inferType localeCompare (filter present vs)))
           v (maximum cs))
      arr.
Proof.
  intros Hr Hyp. rewrite (synopsize_run localeCompare _ _ Hr).
  do 3 eexists. split; [reflexivity | ].
  cbn [nonEmptyValues minimum maximum].
  split; [apply nth_error_fresh | ].
  pose proof (@inferred_sort_sorted localeCompare vs Hyp) as Hs.
  destruct (@inferred_comparator_consistent localeCompare vs Hyp)
    as (P & Hcons & Hdom).
  set (cmp := compareFunction _) in *.
  set (arr := sort_list cmp (filter present vs)) in *.
  assert (Hin : forall v, In v arr -> In v vs).
  { intros v Hv. apply sort_list_In in Hv. now apply filter_present_In. }
  split.
  - intros Hne. split; apply Hin; [now apply hd_In | now apply last_In].
  - apply Forall_forall. intros v Hv.
    assert (Hv' : inDomain P v).
    { rewrite Forall_forall in Hdom. apply Hdom. now apply sort_list_In in Hv. }
    split.
    + destruct (@StronglySorted_hd (precedes cmp) arr v Hs Hv) as [<-|H];
        [ | exact H].
      now apply precedes_refl with P.
    + destruct (@StronglySorted_last (precedes cmp) arr v Hs Hv) as [<-|H];
        [ | exact H].
      now apply precedes_refl with P.
Qed.

Lemma extrema_bound_values_witness :
  exists cs h' arr,
    synopsize codeUnitCompare 0%nat (column ["9"; "10"; "2"]%string)
    = Some (cs, h') /\
    nth_error h' (nonEmptyValues cs) = Some arr /\
    (arr <> [] ->
     In (minimum cs) (strings ["9"; "10"; "2"]%string) /\
     In (maximum cs) (strings ["9"; "10"; "2"]%string)) /\
    Forall
      (fun v =>
         precedes
           (compareFunction
              (inferType codeUnitCompare
                 (filter present (strings ["9"; "10"; "2"]%string))))
           (minimum cs) v /\
         precedes
           (compareFunction
              (inferType codeUnitCompare
                 (filter present (strings ["9"; "10"; "2"]%string))))
           v (maximum cs))
      arr.
Proof.
  apply (@extrema_bound_values codeUnitCompare
           (column ["9"; "10"; "2"]%string) 0%nat).
  - reflexivity.
  - left. vm_compute. tauto.
Defined.

(** ** [count] in full *)

Lemma Map_get_keys m key :
  In key (Map_keys m) <-> Map_get m key <> None.
Proof.
  induction m as [|[k v] m IH]; simpl.
  - split; [contradiction | congruence].
  - rewrite value_eqb_dec. destruct (value_eq_dec k key) as [->|Hne].
    + split; [discriminate | auto].
    + rewrite <- IH. split; [intros [H|H]; [contradiction | exact H] | auto].
Qed.

Lemma count_keys_In l key : In key (Map_keys (count l)) <-> In key l.
Proof.
  rewrite Map_get_keys, count_get, (count_occ_In value_eq_dec).
  destruct (count_occ value_eq_dec l key); split;
    try discriminate; try lia; congruence.
Qed.

Lemma Map_of_keys m :
  NoDup (Map_keys m) ->
  m = map (fun k => (k, Map_count m k)) (Map_keys m).
Proof.
  induction m as [|[k v] m IH]; intros Hnd; simpl; [reflexivity | ].
  inversion Hnd as [|? ? Hnot Hnd']; subst.
  unfold Map_count at 1. simpl. rewrite value_eqb_refl. f_equal.
  rewrite (IH Hnd') at 1. apply map_ext_in. intros k' Hk'.
  unfold Map_count. simpl. rewrite value_eqb_dec.
  destruct (value_eq_dec k k') as [->|]; [contradiction | reflexivity].
Qed.

Lemma filter_remove_absent (f : value -> bool) x l :
  f x = false -> filter f (remove value_eq_dec x l) = filter f l.
Proof.
  intros Hx. induction l as [|y l IH]; simpl; [reflexivity | ].
  destruct (value_eq_dec x y) as [<-|Hne].
  - now rewrite Hx.
  - simpl. now rewrite IH.
Qed.

Lemma filter_remove_fresh acc x l :
  filter (fun y => if in_dec value_eq_dec y (acc ++ [x]) then false else true) l
  = filter (fun y => if in_dec value_eq_dec y acc then false else true)
      (remove value_eq_dec x l).
Proof.
  induction l as [|y l IH]; simpl; [reflexivity | ].
  destruct (value_eq_dec x y) as [<-|Hne].
  - destruct (in_dec value_eq_dec x (acc ++ [x])) as [_|Hn]; [exact IH | ].
    exfalso. apply Hn, in_or_app. right. now left.
  - simpl. rewrite IH.
    destruct (in_dec value_eq_dec y (acc ++ [x])) as [Hi|Hn],
             (in_dec value_eq_dec y acc) as [Hi'|Hn']; try reflexivity.
    + apply in_app_or in Hi. destruct Hi as [Hi|[Hi|[]]];
        [contradiction | now contradiction Hne].
    + exfalso. apply Hn, in_or_app. now left.
Qed.

Lemma keys_fold_firstOccurrences l acc :
  fold_left
    (fun acc x => if in_dec value_eq_dec x acc then acc else acc ++ [x]) l acc
  = acc ++ filter (fun y => if in_dec value_eq_dec y acc then false else true)
             (firstOccurrences l).
Proof.
  revert acc. induction l as [|x l IH]; intros acc; simpl.
  - now rewrite app_nil_r.
  - rewrite IH. destruct (in_dec value_eq_dec x acc) as [Hi|Hn].
    + f_equal. symmetry. apply filter_remove_absent.
      destruct (in_dec value_eq_dec x acc); [reflexivity | contradiction].
    + rewrite <- app_assoc. simpl. f_equal. f_equal.
      apply filter_remove_fresh.
Qed.

Lemma count_step_keys l m :
  Map_keys (fold_left count_step l m)
  = fold_left
      (fun acc x => if in_dec value_eq_dec x acc then acc else acc ++ [x])
      l (Map_keys m).
Proof.
  revert m. induction l as [|x l IH]; intros m; simpl; [reflexivity | ].
  rewrite IH. f_equal. unfold count_step. apply Map_keys_set.
Qed.

Lemma count_keys_firstOccurrences l :
  Map_keys (count l) = firstOccurrences l.
Proof.
  unfold count. rewrite count_fold, count_step_keys.
  rewrite keys_fold_firstOccurrences. simpl.
  induction (firstOccurrences l) as [|y t IH]; simpl; [reflexivity | ].
  now rewrite IH.
Qed.

Lemma firstOccurrences_In l v : In v (firstOccurrences l) <-> In v l.
Proof. rewrite <- count_keys_firstOccurrences. apply count_keys_In. Qed.

(** X4. [count] returns, for each distinct value in the order of its
    first occurrence, the entry of that value with its number of
    occurrences, and nothing else. *)
Theorem count_first_occurrence_order (values : list value) :
  count values
  = map (fun v => (v, Z.of_nat (count_occ value_eq_dec values v)))
      (firstOccurrences values).
Proof.
  rewrite (@Map_of_keys (count values) (count_keys values)) at 1.
  rewrite count_keys_firstOccurrences.
  apply map_ext_in. intros v Hv. f_equal.
  unfold Map_count. rewrite count_get.
  apply firstOccurrences_In, (count_occ_In value_eq_dec) in Hv.
  destruct (count_occ value_eq_dec values v); [lia | reflexivity].
Qed.

Lemma nodup_length_NoDup (l : list value) :
  List.length (nodup value_eq_dec l) = List.length l -> NoDup l.
Proof.
  induction l as [|x l IH]; simpl; [constructor | ].
  assert (Hle : (List.length (nodup value_eq_dec l) <= List.length l)%nat).
  { apply NoDup_incl_length; [apply NoDup_nodup | ].
    intros y Hy. now apply nodup_In in Hy. }
  destruct (in_dec value_eq_dec x l) as [Hi|Hn]; simpl; intros H.
  - lia.
  - constructor; [assumption | apply IH; lia].
Qed.

Lemma count_size l :
  List.length (count l) = List.length (nodup value_eq_dec l).
Proof.
  rewrite <- (length_map fst (count l)). fold (Map_keys (count l)).
  apply Permutation_length, NoDup_Permutation.
  - apply count_keys.
  - apply NoDup_nodup.
  - intros v. rewrite count_keys_In. symmetry. apply nodup_In.
Qed.

(** X5. The size of [counts] is the number of distinct non-empty
    values: it equals the length of [nonEmptyValues] exactly when no
    value occurs twice, it is 0 exactly when there is no value, and
    when it is 1 every non-empty value is [minimum], which is also
    [maximum]. *)
Theorem counts_size_distinct
    (localeCompare : jsstring -> jsstring -> Number) h r vs :
  nth_error h r = Some vs ->
  exists cs h' arr,
    synopsize localeCompare r h = Some (cs, h') /\
    nth_error h' (nonEmptyValues cs) = Some arr /\
    List.length (counts cs) = List.length (nodup value_eq_dec arr) /\
    (List.length (counts cs) = List.length arr <-> NoDup arr) /\
    (List.length (counts cs) = 0%nat <-> arr = []) /\
    (List.length (counts cs) = 1%nat ->
     Forall (eq (minimum cs)) arr /\ maximum cs = minimum cs).
Proof.
  intros Hr. rewrite (synopsize_run localeCompare _ _ Hr).
  do 3 eexists. split; [reflexivity | ].
  cbn [nonEmptyValues counts minimum maximum].
  split; [apply nth_error_fresh | ].
  set (arr := sort_list _ _).
  split; [apply count_size | ].
  split; [ | split].
  - rewrite count_size. split; [apply nodup_length_NoDup | ].
    intros Hnd. now rewrite (nodup_fixed_point value_eq_dec Hnd).
  - rewrite count_size. split.
    + intros H. apply length_zero_iff_nil in H.
      destruct arr as [|x arr']; [reflexivity | ].
      assert (Hx : In x (nodup value_eq_dec (x :: arr')))
        by (apply nodup_In; now left).
      rewrite H in Hx. contradiction.
    + intros ->. reflexivity.
  - intros H1.
    assert (Hk : exists k, Map_keys (count arr) = [k]).
    { unfold Map_keys. destruct (count arr) as [|[k n] [|e m]];
        try discriminate. now exists k. }
    destruct Hk as [k Hk].
    assert (Hall : forall v, In v arr -> v = k).
    { intros v Hv. apply count_keys_In in Hv. rewrite Hk in Hv.
      destruct Hv as [<-|[]]. reflexivity. }
    assert (Hne : arr <> []).
    { intros E. rewrite E in H1. discriminate. }
    rewrite (Hall _ (hd_In Hne)), (Hall _ (last_In Hne)).
    split; [ | reflexivity].
    apply Forall_forall. intros v Hv. symmetry. now apply Hall.
Qed.

Lemma counts_size_distinct_witness :
  exists cs h' arr,
    synopsize codeUnitCompare 0%nat (column ["x"; "y"; "x"]%string)
    = Some (cs, h') /\
    nth_error h' (nonEmptyValues cs) = Some arr /\
    List.length (counts cs) = List.length (nodup value_eq_dec arr) /\
    (List.length (counts cs) = List.length arr <-> NoDup arr) /\
    (List.length (counts cs) = 0%nat <-> arr = []) /\
    (List.length (counts cs) = 1%nat ->
     Forall (eq (minimum cs)) arr /\ maximum cs = minimum cs).
Proof.
  apply (@counts_size_distinct codeUnitCompare
           (column ["x"; "y"; "x"]%string) 0%nat
           (strings ["x"; "y"; "x"]%string)).
  reflexivity.
Defined.

Lemma StronglySorted_remove (R : value -> value -> Prop) x l :
  StronglySorted R l -> StronglySorted R (remove value_eq_dec x l).
Proof.
  induction 1 as [|y l Hs IH Hall]; simpl; [constructor | ].
  destruct (value_eq_dec x y); [assumption | ].
  constructor; [assumption | ].
  rewrite Forall_forall in *. intros z Hz.
  apply in_remove in Hz. now apply Hall.
Qed.

Lemma StronglySorted_firstOccurrences (R : value -> value -> Prop) l :
  StronglySorted R l -> StronglySorted R (firstOccurrences l).
Proof.
  induction 1 as [|x l Hs IH Hall]; simpl; [constructor | ].
  constructor; [now apply StronglySorted_remove | ].
  rewrite Forall_forall in *. intros z Hz.
  apply in_remove in Hz. destruct Hz as [Hz _].
  now apply Hall, firstOccurrences_In.
Qed.

(** X6. The entries of [counts] come in ascending order of their keys
    under the comparator of the inferred type, one entry per distinct
    non-empty value: [count] runs over the array that [sort] has
    rearranged.  (For the types that sort with [localeCompare], on a
    collation that is consistent on the strings of the column.) *)
Theorem counts_listed_ascending
    (localeCompare : jsstring -> jsstring -> Number) h r vs :
  nth_error h r = Some vs ->
  In (id (inferType localeCompare (filter present vs)))
    ["INTEGER"; "BIGINT"; "REAL"]%string \/
  ConsistentOn localeCompare (fun s => In (VString s) vs) ->
  exists cs h' arr,
    synopsize localeCompare r h = Some (cs, h') /\
    nth_error h' (nonEmptyValues cs) = Some arr /\
    Map_keys (counts cs) = firstOccurrences arr /\
    NoDup (Map_keys (counts cs)) /\
    StronglySorted
      (precedes
         (compareFunction (inferType localeCompare (filter present vs))))
      (Map_keys (counts cs)).
Proof.
  intros Hr Hyp. rewrite (synopsize_run localeCompare _ _ Hr).
  do 3 eexists. split; [reflexivity | ]. cbn [nonEmptyValues counts].
  split; [apply nth_error_fresh | ].
  split; [apply count_keys_firstOccurrences | ].
  split; [apply count_keys | ].
  rewrite count_keys_firstOccurrences.
  apply StronglySorted_firstOccurrences.
  exact (@inferred_sort_sorted localeCompare vs Hyp).
Qed.

Lemma counts_listed_ascending_witness :
  exists cs h' arr,
    synopsize codeUnitCompare 0%nat (column ["c"; "a"; "c"; "b"]%string)
    = Some (cs, h') /\
    nth_error h' (nonEmptyValues cs) = Some arr /\
    Map_keys (counts cs) = firstOccurrences arr /\
    NoDup (Map_keys (counts cs)) /\
    StronglySorted
      (precedes
         (compareFunction
            (inferType codeUnitCompare
               (filter present (strings ["c"; "a"; "c"; "b"]%string)))))
      (Map_keys (counts cs)).
Proof.
  apply (@counts_listed_ascending codeUnitCompare
           (column ["c"; "a"; "c"; "b"]%string) 0%nat).
  - reflexivity.
  - right. apply codeUnitCompare_consistent.
Defined.

(** ** The order of the rows *)

Lemma filter_Permutation (f : value -> bool) l l' :
  Permutation l l' -> Permutation (filter f l) (filter f l').
Proof.
  induction 1 as [ | x l l' H IH | x y l | l l' l'' H1 IH1 H2 IH2]; simpl.
  - constructor.
  - destruct (f x); [now constructor | assumption].
  - destruct (f x), (f y); try apply Permutation_refl. apply perm_swap.
  - now apply Permutation_trans with (filter f l').
Qed.

Lemma inferType_Permutation
    (localeCompare : jsstring -> jsstring -> Number) l l' :
  Permutation l l' -> inferType localeCompare l = inferType localeCompare l'.
Proof.
  intros H. destruct l as [|x l].
  - apply Permutation_nil in H. now subst.
  - destruct l' as [|x' l'];
      [apply Permutation_sym, Permutation_nil in H; discriminate | ].
    rewrite !inferType_nonempty by discriminate.
    rewrite (find_agree _ (allMatch (x' :: l'))); [reflexivity | ].
    intros t. apply allMatch_same_elements. intros v.
    split; apply Permutation_in; [assumption | now apply Permutation_sym].
Qed.

(** X7. What [synopsize] reports of a column does not depend on the
    order of its rows, up to the order inside [nonEmptyValues]: two
    columns with the same values in a different order get the same type
    name, the same count for every value, the same number of entries in
    [counts], and the same non-empty values. *)
Theorem row_order_irrelevant
    (localeCompare : jsstring -> jsstring -> Number) h1 r1 vs1 h2 r2 vs2 :
  nth_error h1 r1 = Some vs1 ->
  nth_error h2 r2 = Some vs2 ->
  Permutation vs1 vs2 ->
  exists cs1 h1' arr1 cs2 h2' arr2,
    synopsize localeCompare r1 h1 = Some (cs1, h1') /\
    synopsize localeCompare r2 h2 = Some (cs2, h2') /\
    nth_error h1' (nonEmptyValues cs1) = Some arr1 /\
    nth_error h2' (nonEmptyValues cs2) = Some arr2 /\
    typeName cs1 = typeName cs2 /\
    Permutation arr1 arr2 /\
    (forall v, Map_get (counts cs1) v = Map_get (counts cs2) v) /\
    List.length (counts cs1) = List.length (counts cs2).
Proof.
  intros Hr1 Hr2 Hp.
  rewrite (synopsize_run localeCompare _ _ Hr1).
  rewrite (synopsize_run localeCompare _ _ Hr2).
  do 6 eexists. split; [reflexivity | ]. split; [reflexivity | ].
  cbn [nonEmptyValues typeName counts].
  split; [apply nth_error_fresh | ]. split; [apply nth_error_fresh | ].
  pose proof (filter_Permutation present Hp) as Hf.
  rewrite <- (inferType_Permutation localeCompare Hf).
  set (cmp := compareFunction _).
  assert (Hs : Permutation (sort_list cmp (filter present vs1))
                 (sort_list cmp (filter present vs2))).
  { eapply Permutation_trans; [apply sort_list_perm | ].
    eapply Permutation_trans; [exact Hf | ].
    apply Permutation_sym, sort_list_perm. }
  split; [reflexivity | ]. split; [exact Hs | ]. split.
  - intros v. rewrite !count_get.
    now rewrite (proj1 (Permutation_count_occ value_eq_dec _ _) Hs v).
  - rewrite !count_size. apply Permutation_length, NoDup_Permutation.
    + apply NoDup_nodup.
    + apply NoDup_nodup.
    + intros v. rewrite !nodup_In.
      split; apply Permutation_in; [assumption | now apply Permutation_sym].
Qed.

Lemma row_order_irrelevant_witness :
  exists cs1 h1' arr1 cs2 h2' arr2,
    synopsize codeUnitCompare 0%nat (column ["1.5"; " "; "20"]%string)
    = Some (cs1, h1') /\
    synopsize codeUnitCompare 0%nat (column ["20"; "1.5"; " "]%string)
    = Some (cs2, h2') /\
    nth_error h1' (nonEmptyValues cs1) = Some arr1 /\
    nth_error h2' (nonEmptyValues cs2) = Some arr2 /\
    typeName cs1 = typeName cs2 /\
    Permutation arr1 arr2 /\
    (forall v, Map_get (counts cs1) v = Map_get (counts cs2) v) /\
    List.length (counts cs1) = List.length (counts cs2).
Proof.
  apply (@row_order_irrelevant codeUnitCompare
           (column ["1.5"; " "; "20"]%string) 0%nat
           (strings ["1.5"; " "; "20"]%string)
           (column ["20"; "1.5"; " "]%string) 0%nat
           (strings ["20"; "1.5"; " "]%string)).
  - reflexivity.
  - reflexivity.
  - apply Permutation_trans
      with (strings ["1.5"; "20"; " "]%string).
    + apply perm_skip, perm_swap.
    + apply perm_swap.
Defined.

(** ** The patterns *)

Lemma Matches_Star_Cls p w :
  Matches (Star (Cls p)) w <-> Forall (fun c => p c = true) w.
Proof.
  split.
  - intros H. remember (Star (Cls p)) as r eqn:E.
    induction H; try discriminate.
    + constructor.
    + injection E as ->. apply Forall_app. split; [ | now apply IHMatches2].
      apply RegExpFacts.Matches_Cls in H. destruct H as (c & -> & Hc).
      repeat constructor. assumption.
  - induction 1 as [|c w Hc Hw IH]; [constructor | ].
    change (c :: w) with ([c] ++ w). constructor; [now constructor | exact IH].
Qed.

(** X8. [isEmpty] holds of [undefined] and of the strings all of whose
    code units are white space or line terminators, the empty string
    among them, and of nothing else. *)
Theorem isEmpty_white_space (v : value) :
  isEmpty v
  = match v with
    | VUndefined => true
    | VString s => forallb isWhiteSpace s
    end.
Proof.
  destruct v as [|s]; [reflexivity | ]. cbn [isEmpty].
  destruct (forallb isWhiteSpace s) eqn:E.
  - apply RegExpFacts.test_Matches, Matches_Star_Cls.
    apply Forall_forall. now apply forallb_forall.
  - destruct (RegExp.test (Star space) s) eqn:T; [ | reflexivity].
    apply RegExpFacts.test_Matches, Matches_Star_Cls in T.
    rewrite <- E. symmetry. apply forallb_forall.
    now apply Forall_forall.
Qed.

Lemma Digits_Times w : Digits w -> Matches (Times (List.length w) digit) w.
Proof.
  induction 1 as [|c w Hc Hw IH]; simpl; [constructor | ].
  change (c :: w) with ([c] ++ w). constructor; [now constructor | exact IH].
Qed.

Lemma Digits_UpTo n w :
  Digits w -> (List.length w <= n)%nat -> Matches (UpTo n digit) w.
Proof.
  intros Hd. revert n. induction Hd as [|c w Hc Hw IH]; intros n Hn.
  - destruct n; simpl; [constructor | apply MAltL; constructor].
  - destruct n as [|n]; simpl in Hn |- *; [lia | ].
    apply MAltR. change (c :: w) with ([c] ++ w).
    constructor; [now constructor | apply IH; lia].
Qed.

Lemma Digits_Range hi w :
  Digits w -> (1 <= List.length w <= hi)%nat ->
  Matches (Range 1 hi digit) w.
Proof.
  intros Hd Hl. destruct Hd as [|c w Hc Hw]; [simpl in Hl; lia | ].
  change (c :: w) with ([c] ++ w). unfold Range. constructor.
  - apply (Digits_Times (w := [c])). now repeat constructor.
  - apply Digits_UpTo; [assumption | simpl in Hl; lia].
Qed.

Lemma Digits_Plus w : Digits w -> w <> [] -> Matches (Plus digit) w.
Proof.
  intros Hd Hne. destruct Hd as [|c w Hc Hw]; [contradiction | ].
  change (c :: w) with ([c] ++ w). unfold Plus.
  constructor; [now constructor | now apply Matches_Star_Cls].
Qed.

Lemma signed_body_incl (b1 b2 : regex) s :
  (forall w, Matches b1 w -> Matches b2 w) ->
  Matches (Cat [Opt (char "-"); b1]) s ->
  Matches (Cat [Opt (char "-"); b2]) s.
Proof.
  intros Hb H. simpl in H |- *.
  apply RegExpFacts.Matches_Seq in H. destruct H as (w1 & w2 & -> & H1 & H2).
  apply RegExpFacts.Matches_Seq in H2.
  destruct H2 as (w & w3 & -> & H2 & H3).
  constructor; [assumption | ]. constructor; [now apply Hb | assumption].
Qed.

Lemma oneOf_digit (cs : string) w :
  forallb isDigit (str cs) = true ->
  Matches (oneOf cs) w -> exists c, w = [c] /\ isDigit c = true.
Proof.
  intros Hcs H. apply RegExpFacts.Matches_Cls in H.
  destruct H as (c & -> & Hc). exists c. split; [reflexivity | ].
  apply existsb_exists in Hc. destruct Hc as (c' & Hin & Heq).
  apply N.eqb_eq in Heq. subst c'.
  rewrite forallb_forall in Hcs. now apply Hcs.
Qed.

(** A date written without hyphens is a run of eight digits. *)
Lemma year_month_day_plain s :
  Matches year_month_day s -> List.length s = 8%nat -> Digits s.
Proof.
  intros H Hlen. unfold year_month_day in H. simpl in H.
  apply RegExpFacts.Matches_Seq in H. destruct H as (y1 & s1 & -> & Hy1 & H).
  apply RegExpFacts.Matches_Seq in H. destruct H as (y & s2 & -> & Hy & H).
  apply RegExpFacts.Matches_Seq in H. destruct H as (m & s3 & -> & Hm & H).
  apply RegExpFacts.Matches_Seq in H. destruct H as (d1 & s4 & -> & Hd1 & H).
  apply RegExpFacts.Matches_Seq in H. destruct H as (d2 & s5 & -> & Hd2 & H).
  apply RegExpFacts.Matches_Eps in H. subst s5.
  apply oneOf_digit in Hy1; [ | reflexivity]. destruct Hy1 as (c1 & -> & Hc1).
  apply oneOf_digit in Hd1; [ | reflexivity]. destruct Hd1 as (c2 & -> & Hc2).
  apply LiteralFacts.Matches_digit in Hd2. destruct Hd2 as (c3 & -> & Hc3).
  apply (LiteralFacts.Matches_Times_digit 3) in Hy. destruct Hy as [Hy Hly].
  assert (Hmd : Digits m).
  { apply RegExpFacts.Matches_Alt in Hm. destruct Hm as [Hm|Hm].
    - exfalso.
      apply RegExpFacts.Matches_Seq in Hm.
      destruct Hm as (a & t1 & -> & Ha & Hm).
      apply RegExpFacts.Matches_Seq in Hm.
      destruct Hm as (b & t2 & -> & Hb & Hm).
      apply RegExpFacts.Matches_Seq in Hm.
      destruct Hm as (c & t3 & -> & Hc & Hm).
      apply RegExpFacts.Matches_Seq in Hm.
      destruct Hm as (e & t4 & -> & He & Hm).
      apply RegExpFacts.Matches_Eps in Hm. subst t4.
      apply LiteralFacts.Matches_char in Ha, He. subst a e.
      apply RegExpFacts.Matches_Cls in Hb. destruct Hb as (b' & -> & _).
      apply LiteralFacts.Matches_digit in Hc. destruct Hc as (c' & -> & _).
      rewrite !length_app in Hlen. simpl in Hlen. lia.
    - apply RegExpFacts.Matches_Seq in Hm.
      destruct Hm as (b & t2 & -> & Hb & Hm).
      apply RegExpFacts.Matches_Seq in Hm.
      destruct Hm as (c & t3 & -> & Hc & Hm).
      apply RegExpFacts.Matches_Eps in Hm. subst t3.
      apply oneOf_digit in Hb; [ | reflexivity].
      destruct Hb as (b' & -> & Hb').
      apply LiteralFacts.Matches_digit in Hc. destruct Hc as (c' & -> & Hc').
      repeat constructor; assumption. }
  unfold Digits. rewrite !Forall_app.
  repeat split; try assumption; repeat constructor; assumption.
Qed.

(** X9. The patterns nest as the comments of the table say: a string
    of INTEGER is a string of BIGINT, a string of BIGINT is a string of
    REAL, and a string of DATE of length 8 (a date without hyphens) is a
    string of INTEGER, which is why DATE stands before INTEGER and
    INTEGER before BIGINT and REAL. *)
Theorem patterns_nest
    (localeCompare : jsstring -> jsstring -> Number) (s : jsstring) :
  (RegExp.test (regExp (typeNamed localeCompare "INTEGER")) s = true ->
   RegExp.test (regExp (typeNamed localeCompare "BIGINT")) s = true) /\
  (RegExp.test (regExp (typeNamed localeCompare "BIGINT")) s = true ->
   RegExp.test (regExp (typeNamed localeCompare "REAL")) s = true) /\
  (RegExp.test (regExp (typeNamed localeCompare "DATE")) s = true ->
   List.length s = 8%nat ->
   RegExp.test (regExp (typeNamed localeCompare "INTEGER")) s = true).
Proof.
  change (regExp (typeNamed localeCompare "INTEGER"))
    with (Cat [Opt (char "-"); Range 1 10 digit]).
  change (regExp (typeNamed localeCompare "BIGINT"))
    with (Cat [Opt (char "-"); Range 1 19 digit]).
  change (regExp (typeNamed localeCompare "REAL"))
    with (Cat [Opt (char "-");
               Alt (Plus digit)
                 (Alt (Cat [char "."; Plus digit])
                      (Cat [Plus digit; char "."; Star digit]))]).
  change (regExp (typeNamed localeCompare "DATE")) with year_month_day.
  rewrite !RegExpFacts.test_Matches.
  split; [ | split].
  - apply signed_body_incl. intros w Hw.
    apply LiteralFacts.Matches_Range_digit in Hw; [ | lia].
    destruct Hw as [Hd Hl]. apply Digits_Range; [assumption | lia].
  - apply signed_body_incl. intros w Hw.
    apply LiteralFacts.Matches_Range_digit in Hw; [ | lia].
    destruct Hw as [Hd Hl]. apply MAltL, Digits_Plus; [assumption | ].
    intros ->. simpl in Hl. lia.
  - intros H Hlen. pose proof (year_month_day_plain H Hlen) as Hd.
    simpl. rewrite <- (app_nil_l s). constructor; [apply MAltL; constructor | ].
    rewrite <- (app_nil_r s). constructor; [ | constructor].
    apply Digits_Range; [assumption | lia].
Qed.

Lemma patterns_nest_witness :
  RegExp.test (regExp (typeNamed codeUnitCompare "INTEGER")) (str "20160118")
  = true.
Proof.
  apply (proj2 (proj2 (patterns_nest codeUnitCompare (str "20160118")))).
  - reflexivity.
  - reflexivity.
Defined.

(** ** The first revision *)

Lemma defaultCompare_codeUnit a b : defaultCompare a b = codeUnitCompare a b.
Proof.
  unfold defaultCompare. revert b.
  induction a as [|x a IH]; intros [|y b]; cbn [jsstring_ltb codeUnitCompare];
    try reflexivity.
  specialize (IH b).
  destruct (N.compare_spec x y) as [->|Hlt|Hgt].
  - rewrite N.ltb_irrefl, N.eqb_refl. exact IH.
  - replace (x <? y)%N with true by (symmetry; now apply N.ltb_lt).
    reflexivity.
  - replace (x <? y)%N with false by (symmetry; apply N.ltb_ge; lia).
    replace (x =? y)%N with false by (symmetry; apply N.eqb_neq; lia).
    replace (y <? x)%N with true by (symmetry; now apply N.ltb_lt).
    reflexivity.
Qed.

Lemma defaultCompare_consistent P : ConsistentOn defaultCompare P.
Proof.
  destruct (codeUnitCompare_consistent P) as [Ha Ht]. split.
  - intros a b Hpa Hpb. rewrite !defaultCompare_codeUnit. now apply Ha.
  - intros a b c Hpa Hpb Hpc. rewrite !defaultCompare_codeUnit.
    now apply Ht.
Qed.

Lemma Revision1_run h r vs :
  nth_error h r = Some vs ->
  Revision1.synopsize r h
  = Some ({| typeName :=
               Revision1.inferTypeName
                 (sort_list defaultCompare (filter present vs));
             values := r;
             nonEmptyValues := List.length h;
             minimum :=
               hd VUndefined (sort_list defaultCompare (filter present vs));
             maximum :=
               last (sort_list defaultCompare (filter present vs)) VUndefined;
             counts := count (sort_list defaultCompare (filter present vs)) |},
          h ++ [sort_list defaultCompare (filter present vs)]).
Proof.
  intros Hr.
  unfold Revision1.synopsize, Array_filter, Array_sort, Array_index,
    Array_length, Array_read, Array_write, Array_alloc, bind, ret.
  rewrite Hr. cbv beta iota.
  repeat (rewrite ?Hr, ?nth_error_fresh, ?heap_set_fresh; cbv beta iota).
  change (0 <? 0) with false. cbv beta iota.
  change (Z.to_nat 0) with O.
  rewrite index_first, index_last. reflexivity.
Qed.

Lemma inferTypeName_inferType
    (localeCompare : jsstring -> jsstring -> Number) values :
  Revision1.inferTypeName values = id (inferType localeCompare values).
Proof.
  unfold Revision1.inferTypeName, inferType.
  destruct (0 <? Z.of_nat (List.length values)); [ | reflexivity].
  unfold Revision1.knownTypes, knownTypes.
  cbn [map Revision1.inferTypeName_loop inferType_loop
       Revision1.test test Revision1.id].
  repeat (destruct (forallb _ values); [reflexivity | ]).
  reflexivity.
Qed.

(** X10. The two revisions of [synopsize] agree on everything but the
    order: for the same column they give the same type name, the same
    references, the same non-empty values up to their order, and the
    same count for every value.  Only the comparator of the sort, and so
    the extrema and the order of the entries, changed. *)
Theorem revisions_agree
    (localeCompare : jsstring -> jsstring -> Number) h r vs :
  nth_error h r = Some vs ->
  exists cs1 h1 arr1 cs2 h2 arr2,
    Revision1.synopsize r h = Some (cs1, h1) /\
    synopsize localeCompare r h = Some (cs2, h2) /\
    nth_error h1 (nonEmptyValues cs1) = Some arr1 /\
    nth_error h2 (nonEmptyValues cs2) = Some arr2 /\
    typeName cs1 = typeName cs2 /\
    values cs1 = values cs2 /\
    nonEmptyValues cs1 = nonEmptyValues cs2 /\
    Permutation arr1 arr2 /\
    (forall v, Map_get (counts cs1) v = Map_get (counts cs2) v).
Proof.
  intros Hr. rewrite (Revision1_run _ _ Hr).
  rewrite (synopsize_run localeCompare _ _ Hr).
  do 6 eexists. split; [reflexivity | ]. split; [reflexivity | ].
  cbn [nonEmptyValues typeName values counts].
  split; [apply nth_error_fresh | ]. split; [apply nth_error_fresh | ].
  set (cmp := compareFunction _).
  assert (Hs : Permutation (sort_list defaultCompare (filter present vs))
                 (sort_list cmp (filter present vs))).
  { eapply Permutation_trans; [apply sort_list_perm | ].
    apply Permutation_sym, sort_list_perm. }
  split.
  - rewrite (inferTypeName_inferType localeCompare).
    f_equal. apply inferType_Permutation, sort_list_perm.
  - split; [reflexivity | ]. split; [reflexivity | ].
    split; [exact Hs | ].
    intros v. rewrite !count_get.
    now rewrite (proj1 (Permutation_count_occ value_eq_dec _ _) Hs v).
Qed.

Lemma revisions_agree_witness :
  exists cs1 h1 arr1 cs2 h2 arr2,
    Revision1.synopsize 0%nat (column ["9"; "10"; " "; "9"]%string)
    = Some (cs1, h1) /\
    synopsize codeUnitCompare 0%nat (column ["9"; "10"; " "; "9"]%string)
    = Some (cs2, h2) /\
    nth_error h1 (nonEmptyValues cs1) = Some arr1 /\
    nth_error h2 (nonEmptyValues cs2) = Some arr2 /\
    typeName cs1 = typeName cs2 /\
    values cs1 = values cs2 /\
    nonEmptyValues cs1 = nonEmptyValues cs2 /\
    Permutation arr1 arr2 /\
    (forall v, Map_get (counts cs1) v = Map_get (counts cs2) v).
Proof.
  apply (@revisions_agree codeUnitCompare
           (column ["9"; "10"; " "; "9"]%string) 0%nat
           (strings ["9"; "10"; " "; "9"]%string)).
  reflexivity.
Defined.

(** X11. In the first revision the non-empty values are in ascending
    order of their code units whatever the type, with [undefined] last,
    and the extrema are the ends of that order: [minimum] is not greater
    than any non-empty value and none is greater than [maximum], as
    strings.  A numeric column is no exception: "9", "10", "2" has
    minimum "10" and maximum "9". *)
Theorem first_revision_sorts_by_code_units :
  (forall h r vs, nth_error h r = Some vs ->
     exists cs h' arr,
       Revision1.synopsize r h = Some (cs, h') /\
       nth_error h' (nonEmptyValues cs) = Some arr /\
       Permutation arr (filter present vs) /\
       StronglySorted (precedes defaultCompare) arr /\
       minimum cs = hd VUndefined arr /\
       maximum cs = last arr VUndefined /\
       Forall
         (fun v =>
            precedes defaultCompare (minimum cs) v /\
            precedes defaultCompare v (maximum cs))
         arr) /\
  Revision1.synopsize 0%nat (column ["9"; "10"; "2"]%string)
  = Some ({| typeName := "INTEGER";
             values := 0%nat;
             nonEmptyValues := 1%nat;
             minimum := VString (str "10");
             maximum := VString (str "9");
             counts := [(VString (str "10"), 1); (VString (str "2"), 1);
                        (VString (str "9"), 1)] |},
          [strings ["9"; "10"; "2"]%string;
           strings ["10"; "2"; "9"]%string]).
Proof.
  split; [ | vm_compute; reflexivity].
  intros h r vs Hr. rewrite (Revision1_run _ _ Hr).
  do 3 eexists. split; [reflexivity | ].
  cbn [nonEmptyValues minimum maximum].
  split; [apply nth_error_fresh | ].
  split; [apply sort_list_perm | ].
  set (arr := sort_list defaultCompare (filter present vs)).
  assert (Hdom : Forall (inDomain (fun _ => True)) (filter present vs)).
  { apply Forall_forall. intros [|s] _; exact I. }
  assert (Hs : StronglySorted (precedes defaultCompare) arr).
  { apply sort_list_sorted with (P := fun _ => True);
      [apply defaultCompare_consistent | exact Hdom]. }
  split; [exact Hs | ]. split; [reflexivity | ]. split; [reflexivity | ].
  apply Forall_forall. intros v Hv.
  assert (Hv' : inDomain (fun _ => True) v) by (destruct v; exact I).
  split.
  - destruct (@StronglySorted_hd (precedes defaultCompare) arr v Hs Hv)
      as [<-|H]; [ | exact H].
    apply precedes_refl with (fun _ => True);
      [apply defaultCompare_consistent | exact Hv'].
  - destruct (@StronglySorted_last (precedes defaultCompare) arr v Hs Hv)
      as [<-|H]; [ | exact H].
    apply precedes_refl with (fun _ => True);
      [apply defaultCompare_consistent | exact Hv'].
Qed.

Lemma first_revision_sorts_by_code_units_witness :
  exists cs h' arr,
    Revision1.synopsize 0%nat (column ["b"; "B"; "a"]%string)
    = Some (cs, h') /\
    nth_error h' (nonEmptyValues cs) = Some arr /\
    Permutation arr (filter present (strings ["b"; "B"; "a"]%string)) /\
    StronglySorted (precedes defaultCompare) arr /\
    minimum cs = hd VUndefined arr /\
    maximum cs = last arr VUndefined /\
    Forall
      (fun v =>
         precedes defaultCompare (minimum cs) v /\
         precedes defaultCompare v (maximum cs))
      arr.
Proof.
  apply (proj1 first_revision_sorts_by_code_units
           (column ["b"; "B"; "a"]%string) 0%nat).
  reflexivity.
Defined.

(** ** The command line: the percentage of missing values *)

Module NumOpsFacts.
Import Num NumOps.

Lemma rne_div_scale p q c :
  0 < q -> 0 < c -> rne_div (p * c) (q * c) = rne_div p q.
Proof.
  intros Hq Hc. unfold rne_div.
  rewrite Z.div_mul_cancel_r, Z.mul_mod_distr_r by lia.
  rewrite Z.mul_assoc, <- Zmult_compare_compat_r by lia.
  reflexivity.
Qed.

Lemma round_mag_scale p q c :
  0 < q -> 0 < c -> round_mag (p * c) (q * c) = round_mag p q.
Proof.
  intros Hq Hc. unfold round_mag.
  rewrite Z.div_mul_cancel_r by lia.
  set (n := Z.max 0 (Z.log2 (p / q) - 52)).
  assert (0 < 2 ^ n) by (apply Z.pow_pos_nonneg; lia).
  replace (q * c * 2 ^ n) with (q * 2 ^ n * c) by lia.
  rewrite rne_div_scale by nia. reflexivity.
Qed.

Lemma round_mag_unit p c : 0 < c -> round_mag (p * c) c = round_mag p 1.
Proof.
  intros Hc. rewrite <- (round_mag_scale p (q := 1) (c := c)) by lia.
  now rewrite Z.mul_1_l.
Qed.

(** Rounding a quotient that does not exceed the double [m * 2^e]
    gives a double that does not exceed it. *)
Lemma round_mag_bound p q m e :
  0 <= p -> 0 < q -> 0 < m -> 0 <= e ->
  Z.log2 (m * 2 ^ e) - 52 <= e ->
  p <= m * 2 ^ e * q ->
  m * 2 ^ e < 2 ^ (1024 + unit_exp) ->
  exists k, round_mag p q = Finite k /\ 0 <= k <= m * 2 ^ e.
Proof.
  intros Hp Hq Hm He Hlog Hle Hfin. unfold round_mag.
  set (M := m * 2 ^ e) in *.
  assert (HM : 0 < M) by (apply Z.mul_pos_pos; [ | apply Z.pow_pos_nonneg]; lia).
  assert (Hquo : p / q <= M) by (apply Z.div_le_upper_bound; lia).
  assert (Hquo0 : 0 <= p / q) by (apply Z.div_pos; lia).
  assert (Hl : Z.log2 (p / q) <= Z.log2 M) by (now apply Z.log2_le_mono).
  set (n := Z.max 0 (Z.log2 (p / q) - 52)).
  assert (Hn : 0 <= n <= e) by lia.
  assert (H2n : 0 < 2 ^ n) by (apply Z.pow_pos_nonneg; lia).
  assert (Hsplit : M = m * 2 ^ (e - n) * 2 ^ n).
  { unfold M. rewrite <- Z.mul_assoc, <- Z.pow_add_r by lia.
    do 2 f_equal. lia. }
  assert (H2en : 0 < 2 ^ (e - n)) by (apply Z.pow_pos_nonneg; lia).
  destruct (@NumFacts.rne_div_bounds p (q * 2 ^ n) (m * 2 ^ (e - n))) as [Hr0 HrM];
    [lia | nia | rewrite Hsplit in Hle; lia | ].
  set (k := rne_div p (q * 2 ^ n) * 2 ^ n).
  assert (Hk : 0 <= k <= M) by (unfold k; rewrite Hsplit; nia).
  destruct (Z.leb_spec (2 ^ (1024 + unit_exp)) k); [lia | ].
  exists k. auto.
Qed.

Lemma ofZ_exact z : Z.abs z < 2 ^ 53 -> ofZ z = Finite (z * 2 ^ unit_exp).
Proof. intros H. unfold ofZ. now apply NumFacts.round_exact. Qed.

Lemma unit_pos : 0 < 2 ^ unit_exp.
Proof. apply Z.pow_pos_nonneg; [lia | pose proof NumFacts.unit_exp_ge; lia]. Qed.

(** [a / b * 100] for two lengths [a <= b] is a double between 0 and
    100. *)
Lemma percent_bounds a b :
  0 <= a <= b -> 0 < b < 2 ^ 53 ->
  exists k,
    mul (div (ofZ a) (ofZ b)) (ofZ 100) = Finite k /\
    0 <= k <= 100 * 2 ^ unit_exp.
Proof.
  intros Ha Hb. pose proof unit_pos as HU.
  pose proof NumFacts.unit_exp_ge as Hu.
  rewrite !ofZ_exact by (try lia; vm_compute; reflexivity).
  unfold div.
  replace (b * 2 ^ unit_exp =? 0) with false by (symmetry; apply Z.eqb_neq; nia).
  replace (0 <? b * 2 ^ unit_exp) with true by (symmetry; apply Z.ltb_lt; nia).
  unfold round at 1.
  replace (a * 2 ^ unit_exp * 2 ^ unit_exp <? 0) with false
    by (symmetry; apply Z.ltb_ge; nia).
  rewrite round_mag_scale by lia.
  destruct (@round_mag_bound (a * 2 ^ unit_exp) b 1 unit_exp)
    as (k1 & E1 & Hk1); try lia.
  - rewrite Z.mul_1_l, Z.log2_pow2 by lia. lia.
  - nia.
  - rewrite Z.mul_1_l. apply Z.pow_lt_mono_r; lia.
  - rewrite E1. unfold mul, round.
    replace (k1 * (100 * 2 ^ unit_exp) <? 0) with false
      by (symmetry; apply Z.ltb_ge; nia).
    replace (k1 * (100 * 2 ^ unit_exp)) with (100 * k1 * 2 ^ unit_exp) by lia.
    rewrite round_mag_unit by lia.
    apply round_mag_bound; try lia.
    + rewrite Z.log2_mul_pow2 by lia.
      change (Z.log2 100) with 6. lia.
    + rewrite Z.pow_add_r by lia.
      assert (100 < 2 ^ 1024) by (vm_compute; reflexivity). nia.
Qed.

Lemma percent_prints a b :
  0 <= a <= b -> 0 < b < 2 ^ 53 ->
  exists s, toFixed2 (mul (div (ofZ a) (ofZ b)) (ofZ 100)) = Some s.
Proof.
  intros Ha Hb. destruct (percent_bounds Ha Hb) as (k & -> & Hk).
  unfold toFixed2. pose proof unit_pos.
  destruct (Z.leb_spec (10 ^ 21 * 2 ^ unit_exp) (Z.abs k)); [ | eauto].
  assert (100 < 10 ^ 21) by (vm_compute; reflexivity). nia.
Qed.

(** A column whose values are all missing is 100.00 per cent missing. *)
Lemma percent_all b :
  0 < b < 2 ^ 53 ->
  toFixed2 (mul (div (ofZ b) (ofZ b)) (ofZ 100)) = Some (str "100.00").
Proof.
  intros Hb. pose proof unit_pos as HU.
  rewrite !ofZ_exact by (try lia; vm_compute; reflexivity).
  unfold div.
  replace (b * 2 ^ unit_exp =? 0) with false by (symmetry; apply Z.eqb_neq; nia).
  replace (0 <? b * 2 ^ unit_exp) with true by (symmetry; apply Z.ltb_lt; nia).
  unfold round at 1.
  replace (b * 2 ^ unit_exp * 2 ^ unit_exp <? 0) with false
    by (symmetry; apply Z.ltb_ge; nia).
  rewrite round_mag_scale by lia.
  replace (b * 2 ^ unit_exp) with (2 ^ unit_exp * b) by lia.
  rewrite round_mag_unit by lia.
  replace (2 ^ unit_exp) with (1 * 2 ^ unit_exp) at 1 by lia.
  rewrite NumFacts.round_mag_exact by (split; [lia | reflexivity]).
  unfold mul, round.
  replace (1 * 2 ^ unit_exp * (100 * 2 ^ unit_exp) <? 0) with false
    by (symmetry; apply Z.ltb_ge; nia).
  replace (1 * 2 ^ unit_exp * (100 * 2 ^ unit_exp))
    with (100 * 2 ^ unit_exp * 2 ^ unit_exp) by lia.
  rewrite round_mag_unit by lia.
  rewrite NumFacts.round_mag_exact by (split; [lia | reflexivity]).
  vm_compute. reflexivity.
Qed.

End NumOpsFacts.

(** ** The report of the command line *)

Lemma printSynopsis_run (sample : list value -> Z -> list value)
    cs sl h arr vs pct :
  nth_error h (nonEmptyValues cs) = Some arr ->
  nth_error h (values cs) = Some vs ->
  let n := Z.of_nat (List.length arr) in
  let total := Z.of_nat (List.length vs) in
  (n < total ->
   NumOps.toFixed2
     (NumOps.mul (NumOps.div (Num.ofZ (total - n)) (Num.ofZ total))
        (Num.ofZ 100)) = Some pct) ->
  printSynopsis sample cs sl h
  = Some
      ([str "  Type: " ++ str (typeName cs);
        if n <? total
        then str "  " ++ decimal (total - n)
             ++ str " missing values (out of " ++ decimal total
             ++ str " total), or " ++ pct ++ str "%"
        else str "  No missing values (" ++ decimal total ++ str " total)"]
       ++ (let valueRef :=
             if n <? total then str "(non-null) value" else str "value" in
           let size := Z.of_nat (List.length (counts cs)) in
           if n =? 0 then [str "  No values to show"]
           else if size =? 1 then
             [str "  There is only one unique " ++ valueRef ++ str ": "
              ++ String_ (minimum cs)]
           else if size =? n then
             [str "  All " ++ valueRef
              ++ str "s are unique and range from " ++ String_ (minimum cs)
              ++ str " to " ++ String_ (maximum cs)]
             ++ printCounts sample (counts cs) sl false
           else
             [str "  There are " ++ decimal size ++ str " unique "
              ++ valueRef ++ str "s, which range from "
              ++ String_ (minimum cs)
              ++ str " to " ++ String_ (maximum cs)]
             ++ printCounts sample (counts cs) sl true),
       h).
Proof.
  intros Ha Hv n total Hpct.
  unfold printSynopsis, Array_length, Array_read, bind, ret, orFail.
  rewrite Ha, Hv. cbv beta iota. fold n total.
  destruct (Z.ltb_spec n total) as [Hlt|Hge].
  - rewrite (Hpct Hlt). reflexivity.
  - reflexivity.
Qed.

(** The lengths that the report divides: the kept values and the
    missing ones make up the column. *)
Lemma kept_and_missing cmp vs :
  (List.length (sort_list cmp (filter present vs))
   + List.length (filter (fun v => negb (present v)) vs)
   = List.length vs)%nat.
Proof.
  rewrite (Permutation_length (sort_list_perm cmp (filter present vs))).
  apply filter_length.
Qed.

(** The report of one column, with the percentage at hand. *)
Lemma printColumn_run (sample : list value -> Z -> list value)
    (localeCompare : jsstring -> jsstring -> Number)
    name index sl h r vs :
  nth_error h r = Some vs ->
  Z.of_nat (List.length vs) < 2 ^ 53 ->
  let type := inferType localeCompare (filter present vs) in
  let arr := sort_list (compareFunction type) (filter present vs) in
  let n := Z.of_nat (List.length arr) in
  let total := Z.of_nat (List.length vs) in
  exists pct,
    (n < total ->
     NumOps.toFixed2
       (NumOps.mul (NumOps.div (Num.ofZ (total - n)) (Num.ofZ total))
          (Num.ofZ 100)) = Some pct) /\
    printColumn sample localeCompare name index r sl h
    = Some
        ((str "[" ++ decimal index ++ str "] " ++ [34%N] ++ name ++ [34%N])
         :: (str "  Type: " ++ str (id type))
         :: (if n <? total
             then str "  " ++ decimal (total - n)
                  ++ str " missing values (out of " ++ decimal total
                  ++ str " total), or " ++ pct ++ str "%"
             else str "  No missing values (" ++ decimal total
                  ++ str " total)")
         :: (let valueRef :=
               if n <? total then str "(non-null) value" else str "value" in
             let size := Z.of_nat (List.length (count arr)) in
             if n =? 0 then [str "  No values to show"]
             else if size =? 1 then
               [str "  There is only one unique " ++ valueRef ++ str ": "
                ++ String_ (hd VUndefined arr)]
             else if size =? n then
               [str "  All " ++ valueRef
                ++ str "s are unique and range from "
                ++ String_ (hd VUndefined arr)
                ++ str " to " ++ String_ (last arr VUndefined)]
               ++ printCounts sample (count arr) sl false
             else
               [str "  There are " ++ decimal size ++ str " unique "
                ++ valueRef ++ str "s, which range from "
                ++ String_ (hd VUndefined arr)
                ++ str " to " ++ String_ (last arr VUndefined)]
               ++ printCounts sample (count arr) sl true),
         h ++ [arr]).
Proof.
  intros Hr Hlen type arr n total.
  pose proof (kept_and_missing (compareFunction type) vs) as Hsum.
  fold arr in Hsum.
  assert (Hpct : exists pct,
    n < total ->
    NumOps.toFixed2
      (NumOps.mul (NumOps.div (Num.ofZ (total - n)) (Num.ofZ total))
         (Num.ofZ 100)) = Some pct).
  { destruct (Z.lt_ge_cases n total) as [Hlt|Hge].
    - destruct (@NumOpsFacts.percent_prints (total - n) total) as [s Hs];
        [unfold n, total; lia | unfold total; lia | ].
      exists s. intros _. exact Hs.
    - exists []. lia. }
  destruct Hpct as [pct Hpct]. exists pct. split; [exact Hpct | ].
  unfold printColumn, bind.
  rewrite (synopsize_run localeCompare _ _ Hr).
  fold type arr. cbv beta iota.
  assert (Hv : nth_error (h ++ [arr]) r = Some vs).
  { rewrite nth_error_app1; [assumption | ].
    apply nth_error_Some. congruence. }
  rewrite (@printSynopsis_run sample _ sl (h ++ [arr]) arr vs pct);
    [reflexivity | apply nth_error_fresh | exact Hv | exact Hpct].
Qed.

Lemma nodup_length_Permutation (l l' : list value) :
  Permutation l l' ->
  List.length (nodup value_eq_dec l) = List.length (nodup value_eq_dec l').
Proof.
  intros H. apply Permutation_length, NoDup_Permutation;
    try apply NoDup_nodup.
  intros v. rewrite !nodup_In. split; apply Permutation_in;
    [assumption | now apply Permutation_sym].
Qed.

Lemma nodup_constant (v : value) l :
  l <> [] -> Forall (eq v) l -> nodup value_eq_dec l = [v].
Proof.
  induction l as [|x l IH]; [contradiction | intros _ H].
  apply Forall_cons_iff in H. destruct H as [<- Hl]. simpl.
  destruct l as [|y l]; [reflexivity | ].
  destruct (in_dec value_eq_dec v (y :: l)) as [_|Hn].
  - apply IH; [discriminate | assumption].
  - apply Forall_cons_iff in Hl. destruct Hl as [<- _].
    exfalso. apply Hn. now left.
Qed.

Lemma some_missing vs :
  (List.length (filter present vs) < List.length vs)%nat
  <-> forallb present vs = false.
Proof.
  pose proof (filter_length present vs) as Hsum. split.
  - intros Hlt. destruct (forallb present vs) eqn:E; [ | reflexivity].
    rewrite (forallb_filter_same _ _ E) in Hlt. lia.
  - intros E. apply forallb_false_exists in E. destruct E as (v & Hv & Hf).
    assert (Hin : In v (filter (fun x => negb (present x)) vs))
      by (apply filter_In; split; [assumption | now rewrite Hf]).
    destruct (filter (fun x => negb (present x)) vs);
      [contradiction | simpl in Hsum; lia].
Qed.

Lemma firstOccurrences_length l :
  List.length (firstOccurrences l) = List.length (count l).
Proof.
  rewrite <- count_keys_firstOccurrences. unfold Map_keys.
  apply length_map.
Qed.

(** X12. The command line prints the report of every column: for a
    column of fewer than 2^53 rows (an array holds fewer than 2^32) the
    callback of [main] returns, and prints at least four lines: the
    index and the quoted name of the column, the inferred type, a line
    on the missing values and a line on the values.  The column itself
    is left as it was. *)
Theorem report_printed (sample : list value -> Z -> list value)
    (localeCompare : jsstring -> jsstring -> Number)
    name index sampleLength h r vs :
  nth_error h r = Some vs ->
  Z.of_nat (List.length vs) < 2 ^ 53 ->
  exists totals summary listing h',
    printColumn sample localeCompare name index r sampleLength h
    = Some
        ((str "[" ++ decimal index ++ str "] " ++ [34%N] ++ name ++ [34%N])
         :: (str "  Type: "
             ++ str (id (inferType localeCompare (filter present vs))))
         :: totals :: summary :: listing,
         h') /\
    nth_error h' r = Some vs.
Proof.
  intros Hr Hlen.
  pose proof (@printColumn_run sample localeCompare name index sampleLength
                h r vs Hr Hlen) as H.
  cbv zeta in H. destruct H as (pct & _ & Hrun). rewrite Hrun.
  assert (Hv : forall a, nth_error (h ++ [a]) r = Some vs).
  { intros a. rewrite nth_error_app1; [assumption | ].
    apply nth_error_Some. congruence. }
  destruct (_ =? 0); [ | destruct (_ =? 1); [ | destruct (_ =? _)]];
    cbn [app]; do 4 eexists; (split; [reflexivity | apply Hv]).
Qed.

Lemma report_printed_witness :
  exists totals summary listing h',
    printColumn (fun l n => firstn (Z.to_nat n) l) codeUnitCompare
      (str "route_id") 1 0%nat 10
      (column ["10"; "9"; EmptyString; "2"; "10"]%string)
    = Some
        ((str "[" ++ decimal 1 ++ str "] " ++ [34%N] ++ str "route_id"
          ++ [34%N])
         :: (str "  Type: "
             ++ str (id (inferType codeUnitCompare
                           (filter present
                              (strings ["10"; "9"; EmptyString; "2"; "10"]
                                 %string)))))
         :: totals :: summary :: listing,
         h') /\
    nth_error h' 0%nat
    = Some (strings ["10"; "9"; EmptyString; "2"; "10"]%string).
Proof.
  apply (@report_printed (fun l n => firstn (Z.to_nat n) l) codeUnitCompare
           (str "route_id") 1 10
           (column ["10"; "9"; EmptyString; "2"; "10"]%string) 0%nat
           (strings ["10"; "9"; EmptyString; "2"; "10"]%string)).
  - reflexivity.
  - vm_compute. reflexivity.
Defined.

(** X13. The third line of the report counts the missing values
    rightly.  When no value of the column is blank it reads
    "No missing values (N total)" with N the number of rows; otherwise
    it reads "K missing values (out of N total), or P%" where K is the
    number of blank values and P is [toFixed(2)] of the double
    K / N * 100, which lies between 0 and 100; and P is 100.00 when
    every value is blank. *)
Theorem report_counts_missing (sample : list value -> Z -> list value)
    (localeCompare : jsstring -> jsstring -> Number)
    name index sampleLength h r vs :
  nth_error h r = Some vs ->
  Z.of_nat (List.length vs) < 2 ^ 53 ->
  exists lines h',
    printColumn sample localeCompare name index r sampleLength h
    = Some (lines, h') /\
    let missing :=
      Z.of_nat (List.length (filter (fun v => negb (present v)) vs)) in
    let total := Z.of_nat (List.length vs) in
    (missing = 0 ->
     nth_error lines 2
     = Some (str "  No missing values (" ++ decimal total ++ str " total)")) /\
    (0 < missing ->
     exists k pct,
       NumOps.mul (NumOps.div (Num.ofZ missing) (Num.ofZ total))
         (Num.ofZ 100) = Finite k /\
       0 <= k <= 100 * 2 ^ Num.unit_exp /\
       NumOps.toFixed2 (Finite k) = Some pct /\
       nth_error lines 2
       = Some (str "  " ++ decimal missing
               ++ str " missing values (out of " ++ decimal total
               ++ str " total), or " ++ pct ++ str "%")) /\
    (0 < missing -> missing = total ->
     nth_error lines 2
     = Some (str "  " ++ decimal total
             ++ str " missing values (out of " ++ decimal total
             ++ str " total), or " ++ str "100.00" ++ str "%")).
Proof.
  intros Hr Hlen.
  pose proof (@printColumn_run sample localeCompare name index sampleLength
                h r vs Hr Hlen) as H.
  cbv zeta in H. destruct H as (pct & Hpct & Hrun).
  pose proof (kept_and_missing
                (compareFunction
                   (inferType localeCompare (filter present vs))) vs) as Hsum.
  set (arr := sort_list _ (filter present vs)) in *.
  set (n := Z.of_nat (List.length arr)) in *.
  do 2 eexists. split; [exact Hrun | ].
  intros missing total. fold total in Hpct.
  assert (Hn : n + missing = total) by (unfold n, missing, total; lia).
  cbn [nth_error]. change (Z.of_nat (List.length vs)) with total.
  split; [ | split].
  - intros H0. destruct (Z.ltb_spec n total); [lia | reflexivity].
  - intros Hpos.
    destruct (@NumOpsFacts.percent_bounds missing total) as (k & Hk & Hb);
      [lia | unfold total in *; lia | ].
    assert (Hlt : n < total) by lia.
    specialize (Hpct Hlt).
    replace (total - n) with missing in * by lia.
    exists k, pct. split; [exact Hk | ]. split; [exact Hb | ].
    split; [rewrite <- Hk; exact Hpct | ].
    destruct (Z.ltb_spec n total); [reflexivity | lia].
  - intros Hpos Hall.
    assert (Hlt : n < total) by lia.
    specialize (Hpct Hlt).
    replace (total - n) with total in * by lia.
    rewrite NumOpsFacts.percent_all in Hpct by (unfold total in *; lia).
    injection Hpct as <-.
    destruct (Z.ltb_spec n total); [reflexivity | lia].
Qed.

Lemma report_counts_missing_witness :
  exists lines h',
    printColumn (fun l n => firstn (Z.to_nat n) l) codeUnitCompare
      (str "route_id") 1 0%nat 10
      (column ["10"; "9"; EmptyString; "2"; "10"]%string)
    = Some (lines, h') /\
    let missing :=
      Z.of_nat
        (List.length
           (filter (fun v => negb (present v))
              (strings ["10"; "9"; EmptyString; "2"; "10"]%string))) in
    let total :=
      Z.of_nat
        (List.length (strings ["10"; "9"; EmptyString; "2"; "10"]%string)) in
    (missing = 0 ->
     nth_error lines 2
     = Some (str "  No missing values (" ++ decimal total ++ str " total)")) /\
    (0 < missing ->
     exists k pct,
       NumOps.mul (NumOps.div (Num.ofZ missing) (Num.ofZ total))
         (Num.ofZ 100) = Finite k /\
       0 <= k <= 100 * 2 ^ Num.unit_exp /\
       NumOps.toFixed2 (Finite k) = Some pct /\
       nth_error lines 2
       = Some (str "  " ++ decimal missing
               ++ str " missing values (out of " ++ decimal total
               ++ str " total), or " ++ pct ++ str "%")) /\
    (0 < missing -> missing = total ->
     nth_error lines 2
     = Some (str "  " ++ decimal total
             ++ str " missing values (out of " ++ decimal total
             ++ str " total), or " ++ str "100.00" ++ str "%")).
Proof.
  apply (@report_counts_missing (fun l n => firstn (Z.to_nat n) l)
           codeUnitCompare (str "route_id") 1 10
           (column ["10"; "9"; EmptyString; "2"; "10"]%string) 0%nat
           (strings ["10"; "9"; EmptyString; "2"; "10"]%string)).
  - reflexivity.
  - vm_compute. reflexivity.
Defined.

(** X14. The fourth line of the report says of the non-blank values
    what holds of them.  It reads "No values to show" when there is
    none; "There is only one unique value: v" when all of them are the
    same value v; "All values are unique and range from m to M" when
    there are at least two and none occurs twice; and otherwise
    "There are K unique values, which range from m to M", K being the
    number of distinct values.  Here m and M are the first and the last
    value in the order of the inferred type, and "value" is written
    "(non-null) value" exactly when some value of the column is blank.
    In the first two cases nothing follows the line. *)
Theorem report_summary (sample : list value -> Z -> list value)
    (localeCompare : jsstring -> jsstring -> Number)
    name index sampleLength h r vs :
  nth_error h r = Some vs ->
  Z.of_nat (List.length vs) < 2 ^ 53 ->
  exists lines h',
    printColumn sample localeCompare name index r sampleLength h
    = Some (lines, h') /\
    let kept := filter present vs in
    let arr :=
      sort_list (compareFunction (inferType localeCompare kept)) kept in
    let valueRef :=
      if forallb present vs then str "value" else str "(non-null) value" in
    (kept = [] -> skipn 3 lines = [str "  No values to show"]) /\
    (forall v, In v kept -> Forall (eq v) kept ->
     skipn 3 lines
     = [str "  There is only one unique " ++ valueRef ++ str ": "
        ++ String_ v]) /\
    ((2 <= List.length kept)%nat -> NoDup kept ->
     nth_error lines 3
     = Some (str "  All " ++ valueRef
             ++ str "s are unique and range from "
             ++ String_ (hd VUndefined arr)
             ++ str " to " ++ String_ (last arr VUndefined))) /\
    (forall a b, In a kept -> In b kept -> a <> b -> ~ NoDup kept ->
     nth_error lines 3
     = Some (str "  There are "
             ++ decimal (Z.of_nat (List.length (nodup value_eq_dec kept)))
             ++ str " unique " ++ valueRef
             ++ str "s, which range from "
             ++ String_ (hd VUndefined arr)
             ++ str " to " ++ String_ (last arr VUndefined))).
Proof.
  intros Hr Hlen.
  pose proof (@printColumn_run sample localeCompare name index sampleLength
                h r vs Hr Hlen) as H.
  cbv zeta in H. destruct H as (pct & _ & Hrun).
  do 2 eexists. split; [exact Hrun | ].
  intros kept arr valueRef. fold kept. fold arr.
  assert (Hperm : Permutation arr kept) by apply sort_list_perm.
  pose proof (Permutation_length Hperm) as Hlenp.
  set (n := Z.of_nat (List.length arr)).
  set (total := Z.of_nat (List.length vs)).
  assert (Href : (if n <? total then str "(non-null) value" else str "value")
                 = valueRef).
  { unfold valueRef. destruct (Z.ltb_spec n total) as [Hlt|Hge].
    - assert (E : forallb present vs = false)
        by (apply some_missing; fold kept; unfold n, total in Hlt; lia).
      now rewrite E.
    - destruct (forallb present vs) eqn:E; [reflexivity | ].
      apply some_missing in E. fold kept in E. unfold n, total in Hge. lia. }
  rewrite Href. rewrite (count_size arr).
  set (size := Z.of_nat (List.length (nodup value_eq_dec arr))).
  split; [ | split; [ | split]].
  - intros E. assert (Hn : n = 0).
    { unfold n. rewrite Hlenp, E. reflexivity. }
    rewrite Hn. reflexivity.
  - intros v Hin Hall.
    assert (Hne : arr <> []).
    { intros E. rewrite E in Hperm. apply Permutation_nil in Hperm.
      rewrite Hperm in Hin. contradiction. }
    assert (Hall' : Forall (eq v) arr).
    { rewrite Forall_forall in *. intros x Hx. apply Hall.
      now apply (Permutation_in _ Hperm). }
    assert (Hn : n <> 0).
    { unfold n. destruct arr; [contradiction | simpl; lia]. }
    assert (Hs : size = 1).
    { unfold size. now rewrite (nodup_constant Hne Hall'). }
    assert (Hm : hd VUndefined arr = v).
    { symmetry. rewrite Forall_forall in Hall'. apply Hall'.
      now apply hd_In. }
    apply Z.eqb_neq in Hn. rewrite Hn, Hs, Hm. reflexivity.
  - intros H2 Hnd.
    assert (Hnd' : NoDup arr)
      by (apply (Permutation_NoDup (Permutation_sym Hperm) Hnd)).
    assert (Hs : size = n).
    { unfold size, n. now rewrite (nodup_fixed_point value_eq_dec Hnd'). }
    assert (Hn : n <> 0) by (unfold n; lia).
    assert (H1 : size <> 1) by (rewrite Hs; unfold n; lia).
    apply Z.eqb_neq in Hn, H1. rewrite Hn, H1, Hs, Z.eqb_refl.
    reflexivity.
  - intros a b Ha Hb Hab Hnd.
    assert (Hn : n <> 0).
    { unfold n. rewrite Hlenp. destruct kept; [contradiction | simpl; lia]. }
    assert (H1 : size <> 1).
    { unfold size. intros E.
      assert (Hk : exists k, nodup value_eq_dec arr = [k]).
      { destruct (nodup value_eq_dec arr) as [|k [|? ?]];
          [cbn [List.length] in E; lia | now exists k
          | cbn [List.length] in E; lia]. }
      destruct Hk as [k Hk].
      assert (Hin : forall x, In x kept -> x = k).
      { intros x Hx. apply (Permutation_in _ (Permutation_sym Hperm)) in Hx.
        apply (nodup_In value_eq_dec) in Hx. rewrite Hk in Hx.
        destruct Hx as [<-|[]]. reflexivity. }
      apply Hab. now rewrite (Hin a Ha), (Hin b Hb). }
    assert (Hs : size <> n).
    { unfold size, n. intros E. apply Hnd.
      apply (Permutation_NoDup Hperm).
      apply nodup_length_NoDup. lia. }
    apply Z.eqb_neq in Hn, H1, Hs. rewrite Hn, H1, Hs.
    unfold size. rewrite (nodup_length_Permutation Hperm).
    reflexivity.
Qed.

Lemma report_summary_witness :
  exists lines h',
    printColumn (fun l n => firstn (Z.to_nat n) l) codeUnitCompare
      (str "route_id") 1 0%nat 10
      (column ["10"; "9"; EmptyString; "2"; "10"]%string)
    = Some (lines, h') /\
    let kept :=
      filter present (strings ["10"; "9"; EmptyString; "2"; "10"]%string) in
    let arr :=
      sort_list (compareFunction (inferType codeUnitCompare kept)) kept in
    let valueRef :=
      if forallb present (strings ["10"; "9"; EmptyString; "2"; "10"]%string)
      then str "value" else str "(non-null) value" in
    (kept = [] -> skipn 3 lines = [str "  No values to show"]) /\
    (forall v, In v kept -> Forall (eq v) kept ->
     skipn 3 lines
     = [str "  There is only one unique " ++ valueRef ++ str ": "
        ++ String_ v]) /\
    ((2 <= List.length kept)%nat -> NoDup kept ->
     nth_error lines 3
     = Some (str "  All " ++ valueRef
             ++ str "s are unique and range from "
             ++ String_ (hd VUndefined arr)
             ++ str " to " ++ String_ (last arr VUndefined))) /\
    (forall a b, In a kept -> In b kept -> a <> b -> ~ NoDup kept ->
     nth_error lines 3
     = Some (str "  There are "
             ++ decimal (Z.of_nat (List.length (nodup value_eq_dec kept)))
             ++ str " unique " ++ valueRef
             ++ str "s, which range from "
             ++ String_ (hd VUndefined arr)
             ++ str " to " ++ String_ (last arr VUndefined))).
Proof.
  apply (@report_summary (fun l n => firstn (Z.to_nat n) l)
           codeUnitCompare (str "route_id") 1 10
           (column ["10"; "9"; EmptyString; "2"; "10"]%string) 0%nat
           (strings ["10"; "9"; EmptyString; "2"; "10"]%string)).
  - reflexivity.
  - vm_compute. reflexivity.
Defined.

(** X15. After the fourth line, a column with at least two distinct
    non-blank values is listed.  When the distinct values are no more
    than [sampleLength] each of them has one line, in the ascending
    order of [nonEmptyValues]: the value alone when no value occurs
    twice, and otherwise the value with the number of rows of the
    column that hold it.  When they are more, a line announces
    [sampleLength] random examples, and the lines are those of the
    values that [sample] drew from the distinct values. *)
Theorem report_listing (sample : list value -> Z -> list value)
    (localeCompare : jsstring -> jsstring -> Number)
    name index sampleLength h r vs :
  nth_error h r = Some vs ->
  Z.of_nat (List.length vs) < 2 ^ 53 ->
  (2 <= List.length (nodup value_eq_dec (filter present vs)))%nat ->
  exists lines h',
    printColumn sample localeCompare name index r sampleLength h
    = Some (lines, h') /\
    let kept := filter present vs in
    let arr :=
      sort_list (compareFunction (inferType localeCompare kept)) kept in
    let distinct := firstOccurrences arr in
    let sampled := sampleLength <? Z.of_nat (List.length distinct) in
    let heading :=
      if sampled
      then [str "  " ++ decimal sampleLength ++ str " random examples:"]
      else [] in
    let shown := if sampled then sample distinct sampleLength else distinct in
    (NoDup kept ->
     skipn 4 lines
     = heading ++ map (fun v => str "    " ++ String_ v) shown) /\
    (~ NoDup kept -> sampled = false ->
     skipn 4 lines
     = map (fun v =>
              str "    " ++ String_ v ++ str ": "
              ++ decimal (Z.of_nat (count_occ value_eq_dec vs v)))
         distinct) /\
    (~ NoDup kept -> sampled = true ->
     skipn 4 lines
     = heading
       ++ map (fun v =>
                 str "    " ++ String_ v ++ str ": "
                 ++ match count_occ value_eq_dec kept v with
                    | O => str "undefined"
                    | S _ as c => decimal (Z.of_nat c)
                    end)
           shown).
Proof.
  intros Hr Hlen H2.
  pose proof (@printColumn_run sample localeCompare name index sampleLength
                h r vs Hr Hlen) as H.
  cbv zeta in H. destruct H as (pct & _ & Hrun).
  do 2 eexists. split; [exact Hrun | ].
  intros kept arr distinct sampled heading shown.
  fold kept in H2 |- *. fold arr.
  assert (Hperm : Permutation arr kept) by apply sort_list_perm.
  pose proof (Permutation_length Hperm) as Hlenp.
  pose proof (nodup_length_Permutation Hperm) as Hnp.
  assert (Hle : (List.length (nodup value_eq_dec arr)
                 <= List.length arr)%nat).
  { apply NoDup_incl_length; [apply NoDup_nodup | ].
    intros y Hy. now apply nodup_In in Hy. }
  assert (Hocc : forall v,
    count_occ value_eq_dec arr v = count_occ value_eq_dec kept v).
  { now apply (Permutation_count_occ value_eq_dec). }
  assert (Hget : forall v,
    match Map_get (count arr) v with
    | Some c => decimal c
    | None => str "undefined"
    end
    = match count_occ value_eq_dec kept v with
      | O => str "undefined"
      | S _ as c => decimal (Z.of_nat c)
      end).
  { intros v. rewrite count_get, Hocc.
    now destruct (count_occ value_eq_dec kept v). }
  pose proof (count_size arr) as Hsize.
  pose proof (firstOccurrences_length arr) as Hd. fold distinct in Hd.
  set (n := Z.of_nat (List.length arr)).
  set (size := Z.of_nat (List.length (count arr))).
  assert (Hn : n <> 0) by (unfold n; lia).
  assert (H1 : size <> 1) by (unfold size; lia).
  apply Z.eqb_neq in Hn, H1. rewrite Hn, H1.
  unfold printCounts. rewrite count_keys_firstOccurrences.
  fold distinct. fold sampled.
  split; [ | split].
  - intros Hnd.
    assert (Hnd' : NoDup arr)
      by (apply (Permutation_NoDup (Permutation_sym Hperm) Hnd)).
    assert (Hs : size = n).
    { unfold size, n. rewrite Hsize.
      now rewrite (nodup_fixed_point value_eq_dec Hnd'). }
    rewrite Hs, Z.eqb_refl. cbn [app skipn].
    unfold heading, shown. now destruct sampled.
  - intros Hnd Hsam.
    assert (Hs : size <> n).
    { unfold size, n. intros E. apply Hnd.
      apply (Permutation_NoDup Hperm).
      apply nodup_length_NoDup. lia. }
    apply Z.eqb_neq in Hs. rewrite Hs, Hsam. cbn [app skipn].
    apply map_ext_in. intros v Hv. do 3 f_equal.
    rewrite Hget.
    apply (proj1 (firstOccurrences_In arr v)) in Hv.
    apply (Permutation_in _ Hperm) in Hv.
    assert (Hp : present v = true) by (apply filter_In in Hv; tauto).
    assert (Hc : count_occ value_eq_dec kept v
                 = count_occ value_eq_dec vs v).
    { unfold kept. now rewrite count_occ_filter, Hp. }
    apply (count_occ_In value_eq_dec) in Hv. rewrite <- Hc.
    destruct (count_occ value_eq_dec kept v); [lia | reflexivity].
  - intros Hnd Hsam.
    assert (Hs : size <> n).
    { unfold size, n. intros E. apply Hnd.
      apply (Permutation_NoDup Hperm).
      apply nodup_length_NoDup. lia. }
    apply Z.eqb_neq in Hs. rewrite Hs. cbn [app skipn].
    unfold heading, shown. rewrite Hsam. f_equal.
    apply map_ext. intros v. do 3 f_equal. apply Hget.
Qed.

Lemma report_listing_witness :
  exists lines h',
    printColumn (fun l n => firstn (Z.to_nat n) l) codeUnitCompare
      (str "route_id") 1 0%nat 10
      (column ["10"; "9"; EmptyString; "2"; "10"]%string)
    = Some (lines, h') /\
    let kept :=
      filter present (strings ["10"; "9"; EmptyString; "2"; "10"]%string) in
    let arr :=
      sort_list (compareFunction (inferType codeUnitCompare kept)) kept in
    let distinct := firstOccurrences arr in
    let sampled := 10 <? Z.of_nat (List.length distinct) in
    let heading :=
      if sampled
      then [str "  " ++ decimal 10 ++ str " random examples:"]
      else [] in
    let shown :=
      if sampled
      then (fun l n => firstn (Z.to_nat n) l) distinct 10
      else distinct in
    (NoDup kept ->
     skipn 4 lines
     = heading ++ map (fun v => str "    " ++ String_ v) shown) /\
    (~ NoDup kept -> sampled = false ->
     skipn 4 lines
     = map (fun v =>
              str "    " ++ String_ v ++ str ": "
              ++ decimal
                   (Z.of_nat
                      (count_occ value_eq_dec
                         (strings ["10"; "9"; EmptyString; "2"; "10"]%string)
                         v)))
         distinct) /\
    (~ NoDup kept -> sampled = true ->
     skipn 4 lines
     = heading
       ++ map (fun v =>
                 str "    " ++ String_ v ++ str ": "
                 ++ match count_occ value_eq_dec kept v with
                    | O => str "undefined"
                    | S _ as c => decimal (Z.of_nat c)
                    end)
           shown).
Proof.
  apply (@report_listing (fun l n => firstn (Z.to_nat n) l)
           codeUnitCompare (str "route_id") 1 10
           (column ["10"; "9"; EmptyString; "2"; "10"]%string) 0%nat
           (strings ["10"; "9"; EmptyString; "2"; "10"]%string)).
  - reflexivity.
  - vm_compute. reflexivity.
  - vm_compute. lia.
Defined.
